(** * SQL lineage extraction: a shallow embedding of the browser-side extractor

    The development follows the JavaScript sources of the lineage tracker:
    the [SQLLineageParser] class and the [generateVisualizationData] method
    of [SQLLineageVisualizer] in the script that parses in the browser
    (modules [Parser] and [Viz]), and the sample-data path
    [createSampleDataFromSQL] of the script that falls back from the
    remote service (module [Sample]).  Further modules follow the other
    functions of these scripts: the column lists of the parser
    ([ParserColumns]), [generateRelationships] ([Relations]), the labels
    and the details panel ([Panel]), the visualizer that parses locally
    ([Local]) and the sample data of [script.js] ([Fallback]).

    Modelling conventions.
    - A JavaScript string is a [string] over the characters U+0000 to
      U+00FF.  White space, for [\s] and for [trim], is what JavaScript
      counts as such among them: TAB, LF, VT, FF, CR, SPACE and the
      no-break space U+00A0.  [toLowerCase]/[toUpperCase] act on the 26
      letters of ASCII.
    - A regular expression is a term of [regex], run by a backtracking
      matcher that tries alternatives in the order the JavaScript engine
      does (greedy before shorter, lazy before longer, left alternative
      first) and records capture groups.
    - A [Map], a [Set] and a plain object used as a dictionary are
      insertion-ordered association lists over own keys; the keys are SQL
      identifiers, never integer-like, so [Object.entries] follows the
      insertion order.  The scripts keep [tableAliases] and the maps from
      tables to columns in plain objects, where a lookup under a name of
      [Object.prototype] ([constructor], [toString], ...) finds the
      inherited member: the script then throws, or names a column after
      the text of a native function.  The association lists do not hold
      these members; the predicate [ordinary] marks the texts in which no
      such name occurs, and the statements that depend on the result of
      such a lookup are made for ordinary texts.
    - A value that the code tests for truthiness is an [option string];
      the empty string and [None] (undefined/null) are falsy. *)

From Stdlib Require Import String Ascii List Bool Arith ZArith Lia DecimalString.
From Stdlib Require DecimalNat.
Import ListNotations.
Open Scope string_scope.
Open Scope list_scope.
Open Scope nat_scope.

(** ** JavaScript string primitives *)

Module Js.

Definition code (a : ascii) : nat := nat_of_ascii a.

Definition is_upper (a : ascii) : bool := (65 <=? code a) && (code a <=? 90).
Definition is_lower (a : ascii) : bool := (97 <=? code a) && (code a <=? 122).
Definition is_digit (a : ascii) : bool := (48 <=? code a) && (code a <=? 57).

(** [\s], and what [trim] removes, among the characters 0 to 255: TAB, LF,
    VT, FF, CR, SPACE and the no-break space U+00A0. *)
Definition is_space (a : ascii) : bool :=
  ((9 <=? code a) && (code a <=? 13)) || (code a =? 32) || (code a =? 160).

(** Line terminators, which [.] does not match without the [s] flag. *)
Definition is_line_terminator (a : ascii) : bool :=
  (code a =? 10) || (code a =? 13).

Definition upper_char (a : ascii) : ascii :=
  if is_lower a then ascii_of_nat (code a - 32) else a.
Definition lower_char (a : ascii) : ascii :=
  if is_upper a then ascii_of_nat (code a + 32) else a.

Fixpoint map_string (f : ascii -> ascii) (s : string) : string :=
  match s with
  | EmptyString => EmptyString
  | String a s' => String (f a) (map_string f s')
  end.

Definition toUpperCase : string -> string := map_string upper_char.
Definition toLowerCase : string -> string := map_string lower_char.

Definition is_empty (s : string) : bool :=
  match s with EmptyString => true | _ => false end.

Fixpoint trimStart (s : string) : string :=
  match s with
  | String a s' => if is_space a then trimStart s' else s
  | EmptyString => EmptyString
  end.

Fixpoint trimEnd (s : string) : string :=
  match s with
  | EmptyString => EmptyString
  | String a s' =>
      let t := trimEnd s' in
      if is_space a && is_empty t then EmptyString else String a t
  end.

Definition trim (s : string) : string := trimEnd (trimStart s).

(** [hay.includes(needle)] *)
Fixpoint includes (hay needle : string) : bool :=
  String.prefix needle hay ||
  match hay with
  | String _ hay' => includes hay' needle
  | EmptyString => false
  end.

(** [s.split(sep)] for a one-character separator; never returns []. *)
Fixpoint split (sep : ascii) (s : string) : list string :=
  match s with
  | EmptyString => [EmptyString]
  | String a s' =>
      if Ascii.eqb a sep then EmptyString :: split sep s'
      else match split sep s' with
           | x :: xs => String a x :: xs
           | [] => [String a EmptyString]
           end
  end.

(** [arr.pop()] read as "last element". *)
Definition pop (l : list string) : string := last l EmptyString.

(** [arr.includes(x)] on an array of strings. *)
Definition arr_includes (l : list string) (x : string) : bool :=
  existsb (String.eqb x) l.

(** Truthiness of a possibly undefined string. *)
Definition truthy (o : option string) : bool :=
  match o with
  | Some s => negb (is_empty s)
  | None => false
  end.

(** [a || b] where [a] may be undefined. *)
Definition or_else (o : option string) (d : string) : string :=
  match o with
  | Some s => if is_empty s then d else s
  | None => d
  end.

(** Template-literal rendering of a number. *)
Definition of_nat (n : nat) : string := NilEmpty.string_of_uint (Nat.to_uint n).

(** Template-literal rendering of an array slot that may be missing. *)
Definition slot (l : list string) (i : nat) : string := nth i l "undefined".

End Js.

(** ** Insertion-ordered dictionaries ([Map], [Set], plain objects) *)

Module Dict.

Definition t (V : Type) := list (string * V).

Fixpoint get {V} (m : t V) (k : string) : option V :=
  match m with
  | [] => None
  | (k', v) :: m' => if String.eqb k' k then Some v else get m' k
  end.

Definition has {V} (m : t V) (k : string) : bool :=
  match get m k with Some _ => true | None => false end.

(** [m.set(k, v)]: an existing key keeps its place in the iteration order. *)
Fixpoint set {V} (m : t V) (k : string) (v : V) : t V :=
  match m with
  | [] => [(k, v)]
  | (k', v') :: m' =>
      if String.eqb k' k then (k', v) :: m' else (k', v') :: set m' k v
  end.

(** [s.add(k)] on a [Set] kept as the list of its members. *)
Definition add (s : list string) (k : string) : list string :=
  if Js.arr_includes s k then s else s ++ [k].

End Dict.

(** ** Regular expressions *)

Module Re.

Inductive cclass : Type :=
| Dot                 (* [.] without the s flag *)
| DotAll              (* [.] with the s flag *)
| Space               (* [\s] *)
| IdStart             (* [[a-zA-Z_]] *)
| IdChar              (* [[a-zA-Z0-9_]] *)
| Lit (c : ascii)     (* a literal character *)
| LitI (c : ascii).   (* a literal character under the i flag *)

Definition cmatch (c : cclass) (a : ascii) : bool :=
  match c with
  | Dot => negb (Js.is_line_terminator a)
  | DotAll => true
  | Space => Js.is_space a
  | IdStart => Js.is_upper a || Js.is_lower a || Ascii.eqb a "_"
  | IdChar => Js.is_upper a || Js.is_lower a || Js.is_digit a || Ascii.eqb a "_"
  | Lit c => Ascii.eqb a c
  | LitI c => Ascii.eqb (Js.upper_char a) (Js.upper_char c)
  end.

Inductive regex : Type :=
| Eps
| Cls (c : cclass)
| Seq (r1 r2 : regex)
| Alt (r1 r2 : regex)
| Star (c : cclass)          (* [c*], greedy *)
| StarLazy (c : cclass)      (* [c*?] *)
| Opt (r : regex)            (* [(?:r)?] *)
| Grp (n : nat) (r : regex)  (* capture group number n *)
| Ahead (r : regex)          (* [(?=r)] *)
| Bol                        (* [^] *)
| Eol.                       (* [$] *)

Definition caps := list (nat * string).

Fixpoint group (cs : caps) (n : nat) : option string :=
  match cs with
  | [] => None
  | (m, s) :: cs' => if Nat.eqb m n then Some s else group cs' n
  end.

(** A continuation receives the position reached, the input that is left
    and the captures made so far. *)
Definition cont (A : Type) := nat -> string -> caps -> option A.

Fixpoint star_greedy {A} (c : cclass) (k : cont A)
    (pos : nat) (s : string) (cs : caps) : option A :=
  match s with
  | String a s' =>
      if cmatch c a then
        match star_greedy c k (S pos) s' cs with
        | Some r => Some r
        | None => k pos s cs
        end
      else k pos s cs
  | EmptyString => k pos s cs
  end.

Fixpoint star_lazy {A} (c : cclass) (k : cont A)
    (pos : nat) (s : string) (cs : caps) : option A :=
  match k pos s cs with
  | Some r => Some r
  | None =>
      match s with
      | String a s' => if cmatch c a then star_lazy c k (S pos) s' cs else None
      | EmptyString => None
      end
  end.

Fixpoint rmatch {A} (r : regex) (k : cont A)
    (pos : nat) (s : string) (cs : caps) {struct r} : option A :=
  match r with
  | Eps => k pos s cs
  | Cls c =>
      match s with
      | String a s' => if cmatch c a then k (S pos) s' cs else None
      | EmptyString => None
      end
  | Seq r1 r2 => rmatch r1 (fun p s' cs' => rmatch r2 k p s' cs') pos s cs
  | Alt r1 r2 =>
      match rmatch r1 k pos s cs with
      | Some x => Some x
      | None => rmatch r2 k pos s cs
      end
  | Star c => star_greedy c k pos s cs
  | StarLazy c => star_lazy c k pos s cs
  | Opt r1 =>
      match rmatch r1 k pos s cs with
      | Some x => Some x
      | None => k pos s cs
      end
  | Grp n r1 =>
      rmatch r1
        (fun p s' cs' => k p s' ((n, String.substring 0 (p - pos) s) :: cs'))
        pos s cs
  | Ahead r1 =>
      match rmatch r1 (fun _ _ cs' => Some cs') pos s cs with
      | Some cs' => k pos s cs'
      | None => None
      end
  | Bol => if Nat.eqb pos 0 then k pos s cs else None
  | Eol =>
      match s with
      | EmptyString => k pos s cs
      | String _ _ => None
      end
  end.

(** The match object: index, matched text, groups, and what follows. *)
Record result : Type := mkResult {
  index : nat;
  stop : nat;
  text : string;
  groups : caps;
  after : string
}.

Definition at_pos (r : regex) (pos : nat) (s : string) : option result :=
  rmatch r
    (fun p s' cs => Some (mkResult pos p (String.substring 0 (p - pos) s) cs s'))
    pos s [].

(** Leftmost match at or after the current position. *)
Fixpoint search (r : regex) (pos : nat) (s : string) : option result :=
  match at_pos r pos s with
  | Some m => Some m
  | None =>
      match s with
      | String _ s' => search r (S pos) s'
      | EmptyString => None
      end
  end.

(** [str.match(re)] and [re.exec(str)] for a pattern without the g flag. *)
Definition exec (r : regex) (s : string) : option result := search r 0 s.

Definition test (r : regex) (s : string) : bool :=
  match exec r s with Some _ => true | None => false end.

(** The [while ((m = re.exec(str)) !== null)] loop of a pattern with the g
    flag: each round resumes at [lastIndex].  Every global pattern of the
    program consumes at least one character, so a round always advances
    and [S (length str)] rounds are never exhausted (lemmas
    [exec_loop_fuel] and [global_patterns_consume] below). *)
Fixpoint exec_loop (r : regex) (fuel pos : nat) (s : string) : list result :=
  match fuel with
  | O => []
  | S fuel' =>
      match search r pos s with
      | None => []
      | Some m => m :: exec_loop r fuel' (stop m) (after m)
      end
  end.

Definition exec_all (r : regex) (s : string) : list result :=
  exec_loop r (S (String.length s)) 0 s.

(** [str.replace(re, '')] for a pattern without the g flag. *)
Definition remove_first (r : regex) (s : string) : string :=
  match exec r s with
  | Some m => String.append (String.substring 0 (index m) s) (after m)
  | None => s
  end.

(** Pattern building blocks. *)
Definition seq (l : list regex) : regex := fold_right Seq Eps l.

Fixpoint lit (s : string) : regex :=
  match s with
  | EmptyString => Eps
  | String a s' => Seq (Cls (LitI a)) (lit s')
  end.

Definition plus (c : cclass) : regex := Seq (Cls c) (Star c).
Definition plus_lazy (c : cclass) : regex := Seq (Cls c) (StarLazy c).

(** [[a-zA-Z_][a-zA-Z0-9_]*] *)
Definition ident : regex := Seq (Cls IdStart) (Star IdChar).
(** [\s+] and [\s*] *)
Definition ws1 : regex := plus Space.
Definition ws0 : regex := Star Space.

End Re.

Notation "a +++ b" := (String.append a b) (at level 60, right associativity).

(** ** The lineage graph *)

Inductive node_type : Type := query | table | column.

Inductive edge_type : Type :=
  provides | flows_to | sources | constrains | modifies | uses.

Record node : Type := mkNode {
  id : string;
  name : string;
  type : node_type;
  originalQualifiedName : option string;
  isAlias : bool
}.

Record edge : Type := mkEdge {
  source : string;
  target : string;
  etype : edge_type;
  label : option string
}.

Record graph : Type := mkGraph {
  nodes : list node;
  edges : list edge
}.

Definition node_type_eqb (a b : node_type) : bool :=
  match a, b with
  | query, query | table, table | column, column => true
  | _, _ => false
  end.

Definition edge_type_eqb (a b : edge_type) : bool :=
  match a, b with
  | provides, provides | flows_to, flows_to | sources, sources
  | constrains, constrains | modifies, modifies | uses, uses => true
  | _, _ => false
  end.

(** [nodes.some(n => n.id === x)] *)
Definition has_id (ns : list node) (x : string) : bool :=
  existsb (fun n => String.eqb (id n) x) ns.

(** The reserved words of [isSQLKeyword], the same list in both scripts. *)
Definition keywords : list string :=
  [ "SELECT"; "FROM"; "WHERE"; "JOIN"; "INNER"; "LEFT"; "RIGHT"; "FULL";
    "ON"; "AND"; "OR"; "NOT"; "NULL"; "TRUE"; "FALSE"; "COUNT"; "SUM";
    "AVG"; "MIN"; "MAX"; "GROUP"; "BY"; "ORDER"; "HAVING"; "LIMIT";
    "DISTINCT"; "AS"; "CASE"; "WHEN"; "THEN"; "ELSE"; "END"; "LIKE";
    "IN"; "BETWEEN"; "EXISTS"; "ALL"; "ANY"; "SOME"; "UNION"; "INTERSECT";
    "EXCEPT"; "INSERT"; "UPDATE"; "DELETE"; "CREATE"; "ALTER"; "DROP";
    "TABLE"; "VIEW"; "INDEX"; "DATABASE"; "SCHEMA"; "PRIMARY"; "KEY";
    "FOREIGN"; "REFERENCES"; "CONSTRAINT"; "UNIQUE"; "CHECK"; "DEFAULT";
    "AUTO_INCREMENT"; "IDENTITY"; "TIMESTAMP"; "DATETIME"; "DATE"; "TIME";
    "VARCHAR"; "CHAR"; "TEXT"; "INT"; "INTEGER"; "BIGINT"; "SMALLINT";
    "DECIMAL"; "NUMERIC"; "FLOAT"; "DOUBLE"; "BOOLEAN"; "BOOL" ].

Definition isSQLKeyword (word : string) : bool :=
  Js.arr_includes keywords (Js.toUpperCase word).

(** ** The patterns of the scripts *)

Module Pat.
Import Re.

Definition dot : regex := Cls (Lit ".").

Fixpoint alts (l : list regex) : regex :=
  match l with
  | [] => Eps
  | [r] => r
  | r :: l' => Alt r (alts l')
  end.

(** [(?:INNER\s+JOIN|LEFT\s+JOIN|RIGHT\s+JOIN|FULL\s+JOIN|JOIN)] *)
Definition joinKw : regex :=
  alts [ seq [lit "INNER"; ws1; lit "JOIN"];
         seq [lit "LEFT"; ws1; lit "JOIN"];
         seq [lit "RIGHT"; ws1; lit "JOIN"];
         seq [lit "FULL"; ws1; lit "JOIN"];
         lit "JOIN" ].

(** [ident(?:\.ident)?] *)
Definition tableRef : regex := Seq ident (Opt (Seq dot ident)).

(** [/SELECT\s+(.*?)\s+FROM/si] *)
Definition selectRe : regex :=
  seq [lit "SELECT"; ws1; Grp 1 (StarLazy DotAll); ws1; lit "FROM"].

(** [/FROM\s+(ident(?:\.ident)?)/i] *)
Definition fromRe : regex := seq [lit "FROM"; ws1; Grp 1 tableRef].

(** [/(?:INNER\s+JOIN|...|JOIN)\s+(ident(?:\.ident)?)/gi] *)
Definition joinRe : regex := seq [joinKw; ws1; Grp 1 tableRef].

(** [/FROM\s+(ident(?:\.ident)?)\s*(?:AS\s+)?(ident)?/i] *)
Definition fromAliasRe : regex :=
  seq [lit "FROM"; ws1; Grp 1 tableRef; ws0;
       Opt (Seq (lit "AS") ws1); Opt (Grp 2 ident)].

(** [/(?:INNER\s+JOIN|...|JOIN)\s+(ident(?:\.ident)?)\s*(?:AS\s+)?(ident)?/gi] *)
Definition joinAliasRe : regex :=
  seq [joinKw; ws1; Grp 1 tableRef; ws0;
       Opt (Seq (lit "AS") ws1); Opt (Grp 2 ident)].

(** [/(ident)\s*\.\s*(ident)/g] *)
Definition tableColumnRe : regex :=
  seq [Grp 1 ident; ws0; dot; ws0; Grp 2 ident].

(** [/^(.*?)\s+AS\s+(ident)$/i] *)
Definition asAliasRe : regex :=
  seq [Bol; Grp 1 (StarLazy Dot); ws1; lit "AS"; ws1; Grp 2 ident; Eol].

(** [/\s+AS\s+ident/i] *)
Definition asSuffixRe : regex := seq [ws1; lit "AS"; ws1; ident].

(** [/ident\s*\((.*?)\)/i] *)
Definition funcRe : regex :=
  seq [ident; ws0; Cls (Lit "("); Grp 1 (StarLazy Dot); Cls (Lit ")")].

(** [/^[a-zA-Z_][a-zA-Z0-9_]*$/] *)
Definition identRe : regex := seq [Bol; ident; Eol].

(** [/(?:INNER\s+JOIN|...|JOIN)\s+ident(?:\s+AS\s+ident)?\s+ON\s+(.*?)
      (?=\s+(?:INNER\s+JOIN|LEFT\s+JOIN|RIGHT\s+JOIN|FULL\s+JOIN|JOIN|WHERE
              |GROUP\s+BY|ORDER\s+BY|HAVING|LIMIT|;|$))/gi] *)
Definition joinOnRe : regex :=
  seq [joinKw; ws1; ident; Opt (seq [ws1; lit "AS"; ws1; ident]);
       ws1; lit "ON"; ws1; Grp 1 (StarLazy Dot);
       Ahead (Seq ws1
         (alts [ seq [lit "INNER"; ws1; lit "JOIN"];
                 seq [lit "LEFT"; ws1; lit "JOIN"];
                 seq [lit "RIGHT"; ws1; lit "JOIN"];
                 seq [lit "FULL"; ws1; lit "JOIN"];
                 lit "JOIN";
                 lit "WHERE";
                 seq [lit "GROUP"; ws1; lit "BY"];
                 seq [lit "ORDER"; ws1; lit "BY"];
                 lit "HAVING";
                 lit "LIMIT";
                 Cls (Lit ";");
                 Eol ]))].

(** [/(ident\.ident)\s*=\s*(ident\.ident)/g] *)
Definition joinCondRe : regex :=
  seq [Grp 1 (seq [ident; dot; ident]); ws0; Cls (Lit "="); ws0;
       Grp 2 (seq [ident; dot; ident])].

(** [/WHERE\s+(.+?)(?:\s+GROUP|\s+ORDER|\s+HAVING|\s*;|\s*$)/si] *)
Definition whereRe : regex :=
  seq [lit "WHERE"; ws1; Grp 1 (plus_lazy DotAll);
       alts [ Seq ws1 (lit "GROUP");
              Seq ws1 (lit "ORDER");
              Seq ws1 (lit "HAVING");
              Seq ws0 (Cls (Lit ";"));
              Seq ws0 Eol ]].

(** [/UPDATE\s+(ident)/i] *)
Definition updateRe : regex := seq [lit "UPDATE"; ws1; Grp 1 ident].

(** [/INSERT\s+INTO\s+(ident)/i] *)
Definition insertRe : regex :=
  seq [lit "INSERT"; ws1; lit "INTO"; ws1; Grp 1 ident].

(** A capture group that takes part in every match of its pattern. *)
Definition cap (m : result) (n : nat) : string :=
  match group (groups m) n with Some s => s | None => EmptyString end.

(** A capture group that may be undefined. *)
Definition cap_opt (m : result) (n : nat) : option string := group (groups m) n.

End Pat.

(** ** [SQLLineageParser] *)

Module Parser.
Import Re Pat.

(** The part of the parse result that [generateVisualizationData] reads;
    [columns] and the always-empty [relationships] are not consumed by the
    graph builder and are left out. *)
Record parse_result : Type := mkParse {
  cleanQuery : string;
  tables : list string
}.

(** [str.replace(/\s+/g, ' ')]: every maximal run of white space becomes
    one space.  [in_run] tells that the previous character was white. *)
Fixpoint collapse_ws (in_run : bool) (s : string) : string :=
  match s with
  | EmptyString => EmptyString
  | String a s' =>
      if Js.is_space a then
        if in_run then collapse_ws true s'
        else String " "%char (collapse_ws true s')
      else String a (collapse_ws false s')
  end.

(** [sqlQuery.trim().replace(/\s+/g, ' ')] *)
Definition normalize (sqlQuery : string) : string :=
  collapse_ws false (Js.trim sqlQuery).

(** [fullName.split('.').pop()] *)
Definition dropSchema (fullName : string) : string :=
  Js.pop (Js.split "." fullName).

Definition pushUnique (l : list string) (x : string) : list string :=
  if Js.arr_includes l x then l else l ++ [x].

(** The table part of [extractTablesAndColumns]. *)
Definition extractTables (sql : string) : list string :=
  let tables0 :=
    match exec fromRe sql with
    | Some fromMatch => pushUnique [] (dropSchema (cap fromMatch 1))
    | None => []
    end in
  fold_left
    (fun tables joinMatch => pushUnique tables (dropSchema (cap joinMatch 1)))
    (exec_all joinRe sql) tables0.

Definition parseSQL (sqlQuery : string) : parse_result :=
  let cleanQuery := normalize sqlQuery in
  mkParse cleanQuery (extractTables cleanQuery).

Definition isValidColumnName (name : string) : bool :=
  test identRe name && negb (isSQLKeyword name).

(** [splitSelectClause]: split at the commas outside parentheses; the
    loop state is the text still to read, [current], the signed counter
    [parenCount] and [parts]. *)
Fixpoint splitLoop (chars current : string) (parenCount : Z)
    (parts : list string) : list string :=
  match chars with
  | EmptyString =>
      if Js.is_empty (Js.trim current) then parts
      else parts ++ [Js.trim current]
  | String char rest =>
      if Ascii.eqb char "(" then
        splitLoop rest (current +++ String char "") (parenCount + 1)%Z parts
      else if Ascii.eqb char ")" then
        splitLoop rest (current +++ String char "") (parenCount - 1)%Z parts
      else if Ascii.eqb char "," && Z.eqb parenCount 0 then
        splitLoop rest EmptyString parenCount (parts ++ [Js.trim current])
      else splitLoop rest (current +++ String char "") parenCount parts
  end.

Definition splitSelectClause (selectClause : string) : list string :=
  splitLoop selectClause EmptyString 0%Z [].

(** The first two steps of [extractOriginalColumnFromExpression]: the
    [AS alias] suffix is removed, and a function call is replaced by the
    text between its parentheses when that text is not empty. *)
Definition unwrapExpression (expr : string) : string :=
  let cleanExpr := remove_first asSuffixRe expr in
  match exec funcRe cleanExpr with
  | Some funcMatch =>
      if Js.truthy (cap_opt funcMatch 1) then cap funcMatch 1 else cleanExpr
  | None => cleanExpr
  end.

Definition extractOriginalColumnFromExpression (expr : string) : option string :=
  let cleanExpr := unwrapExpression expr in
  if Js.includes cleanExpr "." then
    Some (Js.trim (Js.pop (Js.split "." cleanExpr)))
  else if isValidColumnName cleanExpr then Some cleanExpr
  else None.

End Parser.

(** ** [SQLLineageVisualizer]: the graph builder *)

Module Viz.
Import Re Pat.

(** The mutable locals of [generateVisualizationData]. *)
Record builder : Type := mkBuilder {
  b_nodes : list node;
  b_edges : list edge;
  nodeIdCounter : nat;
  nodeMap : Dict.t string;
  columnNodeIdMap : Dict.t string;
  aliasNodeIdMap : Dict.t string;
  resolvedColumnAliases : Dict.t string;
  outputColumns : list string;
  selectedOriginalQualifiedColumns : list string
}.

Definition mainQueryNodeId : string := "query_main".

Definition mainQueryNode : node :=
  mkNode mainQueryNodeId "Main Query" query None false.

(** [nodes.push(n)] with a fresh id built from [nodeIdCounter++]; the
    caller registers the id in the map it belongs to. *)
Definition pushNode (b : builder) (n : node) : builder :=
  mkBuilder (b_nodes b ++ [n]) (b_edges b) (S (nodeIdCounter b))
    (nodeMap b) (columnNodeIdMap b) (aliasNodeIdMap b)
    (resolvedColumnAliases b) (outputColumns b)
    (selectedOriginalQualifiedColumns b).

Definition pushEdge (b : builder) (e : edge) : builder :=
  mkBuilder (b_nodes b) (b_edges b ++ [e]) (nodeIdCounter b)
    (nodeMap b) (columnNodeIdMap b) (aliasNodeIdMap b)
    (resolvedColumnAliases b) (outputColumns b)
    (selectedOriginalQualifiedColumns b).

Definition setNodeMap (b : builder) (k v : string) : builder :=
  mkBuilder (b_nodes b) (b_edges b) (nodeIdCounter b)
    (Dict.set (nodeMap b) k v) (columnNodeIdMap b) (aliasNodeIdMap b)
    (resolvedColumnAliases b) (outputColumns b)
    (selectedOriginalQualifiedColumns b).

Definition setColumnNodeId (b : builder) (k v : string) : builder :=
  mkBuilder (b_nodes b) (b_edges b) (nodeIdCounter b)
    (nodeMap b) (Dict.set (columnNodeIdMap b) k v) (aliasNodeIdMap b)
    (resolvedColumnAliases b) (outputColumns b)
    (selectedOriginalQualifiedColumns b).

Definition setAliasNodeId (b : builder) (k v : string) : builder :=
  mkBuilder (b_nodes b) (b_edges b) (nodeIdCounter b)
    (nodeMap b) (columnNodeIdMap b) (Dict.set (aliasNodeIdMap b) k v)
    (resolvedColumnAliases b) (outputColumns b)
    (selectedOriginalQualifiedColumns b).

Definition setResolvedAlias (b : builder) (k v : string) : builder :=
  mkBuilder (b_nodes b) (b_edges b) (nodeIdCounter b)
    (nodeMap b) (columnNodeIdMap b) (aliasNodeIdMap b)
    (Dict.set (resolvedColumnAliases b) k v) (outputColumns b)
    (selectedOriginalQualifiedColumns b).

Definition addOutputColumn (b : builder) (k : string) : builder :=
  mkBuilder (b_nodes b) (b_edges b) (nodeIdCounter b)
    (nodeMap b) (columnNodeIdMap b) (aliasNodeIdMap b)
    (resolvedColumnAliases b) (Dict.add (outputColumns b) k)
    (selectedOriginalQualifiedColumns b).

Definition addSelected (b : builder) (k : string) : builder :=
  mkBuilder (b_nodes b) (b_edges b) (nodeIdCounter b)
    (nodeMap b) (columnNodeIdMap b) (aliasNodeIdMap b)
    (resolvedColumnAliases b) (outputColumns b)
    (Dict.add (selectedOriginalQualifiedColumns b) k).

(** [map.get(k)] followed by the [if (id)] test of the source. *)
Definition getId (m : Dict.t string) (k : string) : option string :=
  match Dict.get m k with
  | Some v => if Js.is_empty v then None else Some v
  | None => None
  end.

(** [extractTableAliases] *)
Definition aliasEntry (aliases : Dict.t string) (m : result) : Dict.t string :=
  let tableName := Parser.dropSchema (cap m 1) in
  let alias := Js.or_else (cap_opt m 2) tableName in
  Dict.set aliases (Js.toLowerCase alias) tableName.

Definition extractTableAliases (sql : string) : Dict.t string :=
  let aliases :=
    match exec fromAliasRe sql with
    | Some fromMatch => aliasEntry [] fromMatch
    | None => []
    end in
  fold_left aliasEntry (exec_all joinAliasRe sql) aliases.

(** [extractTableColumnReferences]: the optional [tableColumnMap] and the
    [qualifiedNamesArray] are updated in place by the source and returned
    here.  [tableAliases] and [tableColumnMap] are plain objects in the
    source: under a key that names a member of [Object.prototype] the
    source finds that member, and then names the column after the text of
    a function or throws at [includes].  The definition follows the
    source on the other keys, which are all the keys there are for an
    [ordinary] text. *)
Definition recordReference (tableAliases : Dict.t string)
    (acc : option (Dict.t (list string)) * list string) (m : result)
    : option (Dict.t (list string)) * list string :=
  let tableOrAlias := Js.trim (cap m 1) in
  let columnName := Js.trim (cap m 2) in
  let actualTableName :=
    Js.or_else (Dict.get tableAliases (Js.toLowerCase tableOrAlias))
               tableOrAlias in
  let tableColumnMap :=
    match fst acc with
    | None => None
    | Some tcm =>
        let tcm :=
          match Dict.get tcm actualTableName with
          | None => Dict.set tcm actualTableName []
          | Some _ => tcm
          end in
        let cols :=
          match Dict.get tcm actualTableName with
          | Some cols => cols
          | None => []
          end in
        Some (if Js.arr_includes cols columnName then tcm
              else Dict.set tcm actualTableName (cols ++ [columnName]))
    end in
  let qualifiedName := actualTableName +++ "." +++ columnName in
  (tableColumnMap, Parser.pushUnique (snd acc) qualifiedName).

Definition extractTableColumnReferences (expression : string)
    (tableAliases : Dict.t string)
    (tableColumnMap : option (Dict.t (list string)))
    (qualifiedNamesArray : list string)
    : option (Dict.t (list string)) * list string :=
  fold_left (recordReference tableAliases)
    (exec_all tableColumnRe expression)
    (tableColumnMap, qualifiedNamesArray).

(** The references of an expression, as collected into a fresh array. *)
Definition refsOf (expression : string) (tableAliases : Dict.t string)
    : list string :=
  snd (extractTableColumnReferences expression tableAliases None []).

(** [extractJoinConditions] *)
Definition resolveQualified (tableAliases : Dict.t string) (expr : string)
    : string :=
  let parts := Js.split "." expr in
  let tableOrAlias := Js.slot parts 0 in
  let columnName := Js.slot parts 1 in
  let actualTable :=
    Js.or_else (Dict.get tableAliases (Js.toLowerCase tableOrAlias))
               tableOrAlias in
  actualTable +++ "." +++ columnName.

Definition extractJoinConditions (sql : string) (tableAliases : Dict.t string)
    : list (string * string) :=
  flat_map
    (fun m =>
       let onClause := cap m 1 in
       map (fun condMatch =>
              (resolveQualified tableAliases (Js.trim (cap condMatch 1)),
               resolveQualified tableAliases (Js.trim (cap condMatch 2))))
           (exec_all joinCondRe onClause))
    (exec_all joinOnRe sql).

(** "Add Tables": one node per parsed table, registered under its
    lower-cased name. *)
Definition addTable (b : builder) (tableName : string) : builder :=
  let nodeId := "table_" +++ Js.of_nat (nodeIdCounter b) in
  setNodeMap (pushNode b (mkNode nodeId tableName table None false))
    (Js.toLowerCase tableName) nodeId.

(** "Create nodes for table-qualified columns". *)
Definition addQualifiedColumn (b : builder) (qualifiedColumnName : string)
    : builder :=
  if Dict.has (columnNodeIdMap b) (Js.toLowerCase qualifiedColumnName) then b
  else
    let parts := Js.split "." qualifiedColumnName in
    let tableName := Js.slot parts 0 in
    let columnName := Js.slot parts 1 in
    let nodeId := "col_" +++ Js.of_nat (nodeIdCounter b) in
    setColumnNodeId
      (pushNode b (mkNode nodeId (tableName +++ " > " +++ columnName) column
                          (Some qualifiedColumnName) false))
      (Js.toLowerCase qualifiedColumnName) nodeId.

(** The node of an unqualified column (or of [*]), created on first use. *)
Definition addSimpleColumn (b : builder) (columnName : string) : builder :=
  if Dict.has (columnNodeIdMap b) (Js.toLowerCase columnName) then b
  else
    let nodeId := "col_" +++ Js.of_nat (nodeIdCounter b) in
    setColumnNodeId
      (pushNode b (mkNode nodeId columnName column (Some columnName) false))
      (Js.toLowerCase columnName) nodeId.

Definition addStarColumn (b : builder) : builder :=
  if Dict.has (columnNodeIdMap b) "*" then b
  else
    let nodeId := "col_" +++ Js.of_nat (nodeIdCounter b) in
    setColumnNodeId
      (pushNode b (mkNode nodeId "*" column (Some "*") false)) "*" nodeId.

(** The body of [selectClauseParts.forEach]. *)
Definition processSelectPart (tableAliases : Dict.t string) (b : builder)
    (part : string) : builder :=
  let trimmedPart := Js.trim part in
  match exec asAliasRe trimmedPart with
  | Some asMatch =>
      let originalExpr := Js.trim (cap asMatch 1) in
      let aliasName := Js.toLowerCase (Js.trim (cap asMatch 2)) in
      let b :=
        match refsOf originalExpr tableAliases with
        | ref0 :: _ =>
            let originalQualifiedName := Js.toLowerCase ref0 in
            addSelected (setResolvedAlias b originalQualifiedName aliasName)
                        originalQualifiedName
        | [] =>
            let inferredColumnName :=
              Parser.extractOriginalColumnFromExpression originalExpr in
            if Js.truthy inferredColumnName then
              let inferred := Js.or_else inferredColumnName "" in
              addSelected (addSimpleColumn b inferred) (Js.toLowerCase inferred)
            else b
        end in
      addOutputColumn b aliasName
  | None =>
      match refsOf trimmedPart tableAliases with
      | ref0 :: _ =>
          let originalQualifiedName := Js.toLowerCase ref0 in
          addOutputColumn (addSelected b originalQualifiedName)
                          originalQualifiedName
      | [] =>
          let inferredColumnName :=
            Parser.extractOriginalColumnFromExpression trimmedPart in
          if Js.truthy inferredColumnName then
            let inferred := Js.or_else inferredColumnName "" in
            addOutputColumn
              (addSelected (addSimpleColumn b inferred) (Js.toLowerCase inferred))
              (Js.toLowerCase inferred)
          else if String.eqb trimmedPart "*" then
            addStarColumn (addOutputColumn b "*")
          else b
      end
  end.

(** The body of [outputColumns.forEach]: alias nodes and the flows of
    output columns into the query. *)
Definition emitOutputColumn (b : builder) (outputName : string) : builder :=
  let isAliasNode :=
    existsb (fun entry => String.eqb outputName (snd entry))
            (resolvedColumnAliases b) in
  if isAliasNode && negb (Dict.has (aliasNodeIdMap b) outputName) then
    let nodeId := "alias_" +++ Js.of_nat (nodeIdCounter b) in
    pushEdge
      (setAliasNodeId
         (pushNode b (mkNode nodeId outputName column None true))
         outputName nodeId)
      (mkEdge nodeId mainQueryNodeId flows_to None)
  else if negb isAliasNode && Dict.has (columnNodeIdMap b) outputName
          && negb (Js.arr_includes (selectedOriginalQualifiedColumns b) outputName)
  then
    match getId (columnNodeIdMap b) outputName with
    | Some qualifiedColNodeId =>
        pushEdge b (mkEdge qualifiedColNodeId mainQueryNodeId flows_to None)
    | None => b
    end
  else if String.eqb outputName "*" && Dict.has (columnNodeIdMap b) "*" then
    match Dict.get (columnNodeIdMap b) "*" with
    | Some starId => pushEdge b (mkEdge starId mainQueryNodeId flows_to None)
    | None => b
    end
  else b.

(** "Table --provides--> Qualified Column", for one entry of
    [tableColumnReferences]. *)
Definition emitProvides (b : builder) (entry : string * list string) : builder :=
  let (tableName, columns) := entry in
  match getId (nodeMap b) (Js.toLowerCase tableName) with
  | Some tableNodeId =>
      fold_left
        (fun b columnName =>
           let qualifiedColumnName := tableName +++ "." +++ columnName in
           match getId (columnNodeIdMap b) (Js.toLowerCase qualifiedColumnName) with
           | Some qualifiedColNodeId =>
               pushEdge b (mkEdge tableNodeId qualifiedColNodeId provides None)
           | None => b
           end)
        columns b
  | None => b
  end.

(** [edges.some(e => e.source === s && e.target === t && e.type === ty)] *)
Definition linked (es : list edge) (s t : string) (ty : edge_type) : bool :=
  existsb (fun e => String.eqb (source e) s && String.eqb (target e) t
                    && edge_type_eqb (etype e) ty) es.

(** "Qualified Column -> Alias -> Main Query, or Qualified Column -> Main
    Query", for one selected column. *)
Definition emitSelectedFlow (b : builder) (qualifiedColName : string) : builder :=
  match getId (columnNodeIdMap b) qualifiedColName with
  | Some qualifiedColNodeId =>
      let aliasName := Dict.get (resolvedColumnAliases b) qualifiedColName in
      if Js.truthy aliasName then
        match getId (aliasNodeIdMap b) (Js.or_else aliasName "") with
        | Some aliasColNodeId =>
            pushEdge b (mkEdge qualifiedColNodeId aliasColNodeId flows_to None)
        | None => b
        end
      else if Js.arr_includes (outputColumns b) qualifiedColName
              || Js.arr_includes (outputColumns b)
                   (Js.pop (Js.split "." qualifiedColName))
      then
        if linked (b_edges b) qualifiedColNodeId mainQueryNodeId flows_to then b
        else pushEdge b (mkEdge qualifiedColNodeId mainQueryNodeId flows_to None)
      else b
  | None => b
  end.

(** "Handle JOIN conditions", for one condition. *)
Definition emitJoin (b : builder) (condition : string * string) : builder :=
  let (leftColumnQualified, rightColumnQualified) := condition in
  if negb (Js.is_empty leftColumnQualified)
     && negb (Js.is_empty rightColumnQualified) then
    match getId (columnNodeIdMap b) (Js.toLowerCase leftColumnQualified),
          getId (columnNodeIdMap b) (Js.toLowerCase rightColumnQualified) with
    | Some leftNodeId, Some rightNodeId =>
        pushEdge
          (pushEdge b (mkEdge leftNodeId rightNodeId uses (Some "on_join")))
          (mkEdge rightNodeId leftNodeId uses (Some "on_join"))
    | _, _ => b
    end
  else b.

(** "Handle WHERE clause constraints". *)
Definition emitConstraint (b : builder) (qualifiedColName : string) : builder :=
  match getId (columnNodeIdMap b) (Js.toLowerCase qualifiedColName) with
  | Some colNodeId => pushEdge b (mkEdge colNodeId mainQueryNodeId constrains None)
  | None => b
  end.

Definition emitWhere (sqlQuery : string) (tableAliases : Dict.t string)
    (b : builder) : builder :=
  match exec whereRe sqlQuery with
  | Some m =>
      if Js.truthy (cap_opt m 1) then
        fold_left emitConstraint (refsOf (cap m 1) tableAliases) b
      else b
  | None => b
  end.

(** "Handle UPDATE queries" and "Handle INSERT queries": [kw] is the text
    looked for in the upper-cased statement, [re] the pattern that
    captures the target table. *)
Definition emitModifies (kw : string) (re : regex) (sqlQuery : string)
    (b : builder) : builder :=
  if Js.includes (Js.toUpperCase sqlQuery) kw then
    match exec re sqlQuery with
    | Some m =>
        match getId (nodeMap b) (Js.toLowerCase (cap m 1)) with
        | Some tableNodeId =>
            pushEdge b (mkEdge mainQueryNodeId tableNodeId modifies None)
        | None => b
        end
    | None => b
    end
  else b.

(** [sqlQuery.match(/SELECT\s+(.*?)\s+FROM/si)?.[1]] split into parts. *)
Definition selectClauseParts (sqlQuery : string) : list string :=
  match exec selectRe sqlQuery with
  | Some m =>
      if Js.truthy (cap_opt m 1) then Parser.splitSelectClause (cap m 1) else []
  | None => []
  end.

Definition initial : builder :=
  mkBuilder [mainQueryNode] [] 0 [("main_query", mainQueryNodeId)]
            [] [] [] [] [].

Definition generateVisualizationData (sqlQuery : string)
    (parserResult : Parser.parse_result) : graph :=
  let b := initial in
  let tableAliases := extractTableAliases sqlQuery in
  let b := fold_left addTable (Parser.tables parserResult) b in
  let '(tableColumnReferences, allQualifiedColumnNames) :=
    extractTableColumnReferences sqlQuery tableAliases (Some []) [] in
  let b := fold_left addQualifiedColumn allQualifiedColumnNames b in
  let b := fold_left (processSelectPart tableAliases)
             (selectClauseParts sqlQuery) b in
  let b := fold_left emitOutputColumn (outputColumns b) b in
  let b := fold_left emitProvides
             (match tableColumnReferences with Some tcm => tcm | None => [] end)
             b in
  let b := fold_left emitSelectedFlow (selectedOriginalQualifiedColumns b) b in
  let b := fold_left emitJoin (extractJoinConditions sqlQuery tableAliases) b in
  let b := emitWhere sqlQuery tableAliases b in
  let b := emitModifies "UPDATE" updateRe sqlQuery b in
  let b := emitModifies "INSERT INTO" insertRe sqlQuery b in
  mkGraph (b_nodes b) (b_edges b).

(** The filter of [visualizeData]: the edges that are drawn. *)
Definition validEdges (data : graph) : list edge :=
  filter (fun e => has_id (nodes data) (source e) && has_id (nodes data) (target e))
         (edges data).

(** [parseSQLAndVisualize] up to rendering: the trimmed text of the input
    box is parsed and turned into the graph; blank input is rejected.
    The source catches what [generateVisualizationData] throws and then
    shows no graph; that happens for texts that are not [ordinary] only,
    which the definition does not tell apart. *)
Definition parseSQLAndVisualize (value : string) : option graph :=
  let sqlInput := Js.trim value in
  if Js.is_empty sqlInput then None
  else Some (generateVisualizationData sqlInput (Parser.parseSQL sqlInput)).

(** Extraction on a statement, as the page runs it. *)
Definition extract (sql : string) : graph :=
  generateVisualizationData sql (Parser.parseSQL sql).

End Viz.

(** ** [SQLLineageVisualizer] of the fallback script: the sample-data path

    [validateAndNormalizeData] calls [createSampleDataFromSQL] when the
    data it received holds no node; the graph is then derived from the text
    of the input box. *)

Module Sample.
Import Re Pat.

(** [/^(.*?)\s+AS\s+(ident)/i] *)
Definition asPrefixRe : regex :=
  seq [Bol; Grp 1 (StarLazy Dot); ws1; lit "AS"; ws1; Grp 2 ident].

(** [/^(ident)$/], without flags *)
Definition simpleColumnRe : regex := seq [Bol; Grp 1 ident; Eol].

(** [/WHERE\s+(.*?)(?:\s+GROUP\s+BY|\s+ORDER\s+BY|\s+HAVING|\s+LIMIT|\s*;|\s*$)/si] *)
Definition whereRe : regex :=
  seq [lit "WHERE"; ws1; Grp 1 (StarLazy DotAll);
       alts [ seq [ws1; lit "GROUP"; ws1; lit "BY"];
              seq [ws1; lit "ORDER"; ws1; lit "BY"];
              Seq ws1 (lit "HAVING");
              Seq ws1 (lit "LIMIT");
              Seq ws0 (Cls (Lit ";"));
              Seq ws0 Eol ]].

(** [/GROUP\s+BY\s+(.*?)(?:\s+HAVING|\s+ORDER\s+BY|\s+LIMIT|\s*;|\s*$)/si] *)
Definition groupByRe : regex :=
  seq [lit "GROUP"; ws1; lit "BY"; ws1; Grp 1 (StarLazy DotAll);
       alts [ Seq ws1 (lit "HAVING");
              seq [ws1; lit "ORDER"; ws1; lit "BY"];
              Seq ws1 (lit "LIMIT");
              Seq ws0 (Cls (Lit ";"));
              Seq ws0 Eol ]].

(** [/ORDER\s+BY\s+(.*?)(?:\s+LIMIT|\s*;|\s*$)/si] *)
Definition orderByRe : regex :=
  seq [lit "ORDER"; ws1; lit "BY"; ws1; Grp 1 (StarLazy DotAll);
       alts [ Seq ws1 (lit "LIMIT");
              Seq ws0 (Cls (Lit ";"));
              Seq ws0 Eol ]].

(** [/HAVING\s+(.*?)(?:\s+ORDER\s+BY|\s+LIMIT|\s*;|\s*$)/si] *)
Definition havingRe : regex :=
  seq [lit "HAVING"; ws1; Grp 1 (StarLazy DotAll);
       alts [ seq [ws1; lit "ORDER"; ws1; lit "BY"];
              Seq ws1 (lit "LIMIT");
              Seq ws0 (Cls (Lit ";"));
              Seq ws0 Eol ]].

(** [/(?:INNER\s+JOIN|...|JOIN)\s+ident(?:\s+(?:AS\s+)?ident)?\s+ON\s+(.*?)
      (?=\s+(?:INNER\s+JOIN|LEFT\s+JOIN|RIGHT\s+JOIN|FULL\s+JOIN|JOIN)|WHERE
         |GROUP\s+BY|ORDER\s+BY|HAVING|LIMIT|;|$)/gi] *)
Definition joinOnRe : regex :=
  seq [joinKw; ws1; ident;
       Opt (seq [ws1; Opt (Seq (lit "AS") ws1); ident]);
       ws1; lit "ON"; ws1; Grp 1 (StarLazy Dot);
       Ahead (alts [ Seq ws1 joinKw;
                     lit "WHERE";
                     seq [lit "GROUP"; ws1; lit "BY"];
                     seq [lit "ORDER"; ws1; lit "BY"];
                     lit "HAVING";
                     lit "LIMIT";
                     Cls (Lit ";");
                     Eol ])].

Record table_info : Type := mkInfo {
  tableName : string;
  alias : string;
  fullName : string
}.

Definition infoOf (m : result) : table_info :=
  let fullTableName := cap m 1 in
  let tableName := Parser.dropSchema fullTableName in
  let alias := Js.or_else (cap_opt m 2) tableName in
  mkInfo tableName (Js.toLowerCase alias) fullTableName.

Definition extractTableInfoWithAliases (sql : string) : list table_info :=
  let tableInfo :=
    match exec fromAliasRe sql with
    | Some fromMatch => [infoOf fromMatch]
    | None => []
    end in
  fold_left
    (fun tableInfo joinMatch =>
       let t := infoOf joinMatch in
       if existsb (fun t' => String.eqb (tableName t') (tableName t)) tableInfo
       then tableInfo else tableInfo ++ [t])
    (exec_all joinAliasRe sql) tableInfo.

(** [[...new Set(arr)]] *)
Definition unique (l : list string) : list string :=
  fold_left Parser.pushUnique l [].

Definition aliasMapOf (tableInfo : list table_info) : Dict.t string :=
  fold_left (fun m t => Dict.set m (alias t) (tableName t)) tableInfo [].

(** The visualizer's own [isValidColumnName], which trims first. *)
Definition isValidColumnName (name : string) : bool :=
  if Js.is_empty name then false
  else
    let name := Js.trim name in
    test identRe name && negb (isSQLKeyword name).

Definition extractColumnNamesFromExpression (expression : string) : list string :=
  let columns := map (fun m => cap m 2) (exec_all tableColumnRe expression) in
  match columns with
  | [] =>
      match exec simpleColumnRe expression with
      | Some simpleColumnMatch => [cap simpleColumnMatch 1]
      | None => []
      end
  | _ => columns
  end.

(** The body of [parts.forEach] in [extractColumnsWithAliases]. *)
Definition collectColumn (columns : list string) (part : string) : list string :=
  let trimmedPart := Js.trim part in
  let plain :=
    fold_left Parser.pushUnique
      (extractColumnNamesFromExpression trimmedPart) columns in
  if String.eqb trimmedPart "*" then columns
  else if Js.includes (Js.toUpperCase trimmedPart) " AS " then
    match exec asPrefixRe trimmedPart with
    | Some asMatch =>
        let sourceExpr := Js.trim (cap asMatch 1) in
        let alias := Js.trim (cap asMatch 2) in
        fold_left Parser.pushUnique
          (extractColumnNamesFromExpression sourceExpr) (columns ++ [alias])
    | None => plain
    end
  else plain.

Definition extractColumnsWithAliases (sql : string) : list string :=
  match exec selectRe sql with
  | None => []
  | Some m =>
      unique (fold_left collectColumn (Parser.splitSelectClause (cap m 1)) [])
  end.

(** [if (!map[k]) map[k] = []; if (!map[k].includes(c)) map[k].push(c)].
    The map is a plain object in the source: for a key that names a
    member of [Object.prototype] the source finds that member and throws
    at [includes].  The definition follows the source on the other keys,
    which are all the keys there are for an [ordinary] text. *)
Definition addColumn (tableColumnMap : Dict.t (list string))
    (k c : string) : Dict.t (list string) :=
  let tcm :=
    match Dict.get tableColumnMap k with
    | None => Dict.set tableColumnMap k []
    | Some _ => tableColumnMap
    end in
  let cols := match Dict.get tcm k with Some cols => cols | None => [] end in
  if Js.arr_includes cols c then tcm else Dict.set tcm k (cols ++ [c]).

(** [if (!map[k]) map[k] = []], then the star is pushed onto [map[k]]
    without a membership test. *)
Definition addStar (tableColumnMap : Dict.t (list string))
    (t : table_info) : Dict.t (list string) :=
  let k := tableName t in
  let tcm :=
    match Dict.get tableColumnMap k with
    | None => Dict.set tableColumnMap k []
    | Some _ => tableColumnMap
    end in
  let cols := match Dict.get tcm k with Some cols => cols | None => [] end in
  Dict.set tcm k (cols ++ ["*"]).

Definition extractTableColumnReferencesWithAliases (expression : string)
    (aliasToTableMap : Dict.t string) (tableColumnMap : Dict.t (list string))
    : Dict.t (list string) :=
  fold_left
    (fun tcm m =>
       let tableOrAlias := Js.toLowerCase (cap m 1) in
       let columnName := cap m 2 in
       let actualTableName :=
         Js.or_else (Dict.get aliasToTableMap tableOrAlias) tableOrAlias in
       addColumn tcm actualTableName columnName)
    (exec_all tableColumnRe expression) tableColumnMap.

Definition fromClause (re : regex) (sql : string)
    (aliasToTableMap : Dict.t string) (tableColumnMap : Dict.t (list string))
    : Dict.t (list string) :=
  match exec re sql with
  | Some m =>
      extractTableColumnReferencesWithAliases (cap m 1) aliasToTableMap tableColumnMap
  | None => tableColumnMap
  end.

Definition extractColumnsFromClausesWithAliases (sql : string)
    (aliasToTableMap : Dict.t string) (tableColumnMap : Dict.t (list string))
    : Dict.t (list string) :=
  let tcm := fromClause whereRe sql aliasToTableMap tableColumnMap in
  let tcm := fromClause groupByRe sql aliasToTableMap tcm in
  let tcm := fromClause orderByRe sql aliasToTableMap tcm in
  let tcm := fromClause havingRe sql aliasToTableMap tcm in
  fold_left
    (fun tcm joinMatch =>
       extractTableColumnReferencesWithAliases (cap joinMatch 1) aliasToTableMap tcm)
    (exec_all joinOnRe sql) tcm.

(** The body of [columns.forEach] in
    [parseTableColumnRelationshipsWithAliases]. *)
Definition attributeColumn (tableInfo : list table_info)
    (aliasToTableMap : Dict.t string) (tableColumnMap : Dict.t (list string))
    (column : string) : Dict.t (list string) :=
  let trimmedColumn := Js.trim column in
  if String.eqb trimmedColumn "*" then fold_left addStar tableInfo tableColumnMap
  else
    let tcm :=
      extractTableColumnReferencesWithAliases trimmedColumn aliasToTableMap
        tableColumnMap in
    if negb (Js.includes trimmedColumn ".") && isValidColumnName trimmedColumn then
      match tableInfo with
      | t0 :: _ =>
          let mainTable := tableName t0 in
          if Js.is_empty mainTable then tcm
          else addColumn tcm mainTable trimmedColumn
      | [] => tcm
      end
    else tcm.

Definition parseTableColumnRelationshipsWithAliases (sql : string)
    (tableInfo : list table_info) : Dict.t (list string) :=
  let aliasToTableMap := aliasMapOf tableInfo in
  match exec selectRe sql with
  | None => []
  | Some selectMatch =>
      let columns := Parser.splitSelectClause (cap selectMatch 1) in
      let tcm :=
        fold_left (attributeColumn tableInfo aliasToTableMap) columns [] in
      extractColumnsFromClausesWithAliases sql aliasToTableMap tcm
  end.

(** [arr.findIndex(x => x.toLowerCase() === key.toLowerCase())], counting
    from [i]; [None] stands for -1. *)
Fixpoint findIndexFrom (i : nat) (l : list string) (key : string) : option nat :=
  match l with
  | [] => None
  | x :: l' =>
      if String.eqb (Js.toLowerCase x) (Js.toLowerCase key) then Some i
      else findIndexFrom (S i) l' key
  end.

Definition findIndex := findIndexFrom 0.

Definition tableId (i : nat) : string := "table_" +++ Js.of_nat i.
Definition columnId (i : nat) : string := "column_" +++ Js.of_nat i.

Definition pushProvides (es : list edge) (s t : string) : list edge :=
  if Viz.linked es s t provides then es else es ++ [mkEdge s t provides None].

(** Step 1 of [createRelationshipsFromSQL], for one entry of the map. *)
Definition providesOfEntry (tables columns : list string) (es : list edge)
    (entry : string * list string) : list edge :=
  let (tableName, tableColumns) := entry in
  match findIndex tables tableName with
  | Some tableIndex =>
      fold_left
        (fun es columnName =>
           match findIndex columns columnName with
           | Some columnIndex =>
               pushProvides es (tableId tableIndex) (columnId columnIndex)
           | None => es
           end)
        tableColumns es
  | None => es
  end.

(** [xs.forEach((x, i) => ...)]: the elements with their indices. *)
Definition indexed (l : list string) : list (nat * string) :=
  combine (List.seq 0 (List.length l)) l.

Definition createRelationshipsFromSQL (normalized : graph) (sql : string)
    (tables columns : list string) : graph :=
  let tableInfo := extractTableInfoWithAliases sql in
  let tableColumnMap := parseTableColumnRelationshipsWithAliases sql tableInfo in
  let es := fold_left (providesOfEntry tables columns) tableColumnMap
              (edges normalized) in
  let es :=
    match es, tables, columns with
    | [], _ :: _, _ :: _ =>
        fold_left
          (fun es ic =>
             if String.eqb (snd ic) "*" then es
             else es ++ [mkEdge (tableId 0) (columnId (fst ic)) provides None])
          (indexed columns) es
    | _, _, _ => es
    end in
  let hasQuery := has_id (nodes normalized) "main_query" in
  let es :=
    if hasQuery then
      es ++ map (fun ic => mkEdge (columnId (fst ic)) "main_query" flows_to None)
                (indexed columns)
    else es in
  let es :=
    if hasQuery then
      es ++ map (fun it => mkEdge (tableId (fst it)) "main_query" sources None)
                (indexed tables)
    else es in
  mkGraph (nodes normalized) es.

Definition createSampleDataFromSQL (normalized : graph) (sqlInput : string)
    : graph :=
  let tableInfo := extractTableInfoWithAliases sqlInput in
  let uniqueTables := unique (map tableName tableInfo) in
  let ns :=
    nodes normalized
    ++ map (fun it => mkNode (tableId (fst it)) (snd it) table None false)
           (indexed uniqueTables) in
  let columnsWithAliases := extractColumnsWithAliases sqlInput in
  let ns :=
    ns ++ map (fun ic => mkNode (columnId (fst ic)) (snd ic) column None false)
              (indexed columnsWithAliases) in
  let ns :=
    match uniqueTables, columnsWithAliases with
    | [], [] => ns
    | _, _ => ns ++ [mkNode "main_query" "Main Query" query None false]
    end in
  createRelationshipsFromSQL (mkGraph ns (edges normalized)) sqlInput
    uniqueTables columnsWithAliases.

End Sample.

(** ** [SQLLineageParser]: the columns of the SELECT, ORDER BY and GROUP BY
    clauses *)

Module ParserColumns.
Import Re Pat.

(** [/\s+(ASC|DESC)$/i] *)
Definition directionRe : regex :=
  seq [ws1; Grp 1 (Alt (lit "ASC") (lit "DESC")); Eol].

(** The body of the loop of [parseSelectClause]. *)
Definition selectColumn (columns : list string) (part : string) : list string :=
  let part := Js.trim part in
  if Js.is_empty part then columns
  else
    let originalColumn := Parser.extractOriginalColumnFromExpression part in
    if Js.truthy originalColumn
       && Parser.isValidColumnName (Js.or_else originalColumn "")
    then columns ++ [Js.or_else originalColumn ""]
    else columns.

Definition parseSelectClause (selectClause : string) : list string :=
  if String.eqb (Js.trim selectClause) "*" then ["*"]
  else
    Sample.unique
      (fold_left selectColumn (Parser.splitSelectClause selectClause) []).

(** The loop shared by [extractOrderByColumns] and [extractGroupByColumns];
    only the former strips a trailing ASC or DESC. *)
Definition clauseColumn (stripDirection : bool) (columns : list string)
    (part : string) : list string :=
  let part := Js.trim part in
  let part := if stripDirection then remove_first directionRe part else part in
  if Js.includes part "." then columns ++ [Js.pop (Js.split "." part)]
  else if Parser.isValidColumnName part then columns ++ [part]
  else columns.

Definition extractOrderByColumns (sql : string) : list string :=
  match exec Sample.orderByRe sql with
  | None => []
  | Some orderByMatch =>
      fold_left (clauseColumn true) (Js.split "," (cap orderByMatch 1)) []
  end.

Definition extractGroupByColumns (sql : string) : list string :=
  match exec Sample.groupByRe sql with
  | None => []
  | Some groupByMatch =>
      fold_left (clauseColumn false) (Js.split "," (cap groupByMatch 1)) []
  end.

End ParserColumns.

(** ** [SQLLineageParser] of the fallback script: [generateRelationships] *)

Module Relations.

Record relationship : Type := mkRel {
  r_source : string;
  r_target : string;
  r_type : edge_type
}.

(** Every table provides every column but the star. *)
Definition generateRelationships (tables columns : list string)
    : list relationship :=
  flat_map
    (fun table =>
       flat_map
         (fun column =>
            if String.eqb column "*" then []
            else [mkRel table column provides])
         columns)
    tables.

End Relations.

(** ** [SQLLineageVisualizer]: labels and the details panel *)

Module Panel.

(** [truncateText]: a missing or empty text reads [Unnamed]. *)
Definition truncateText (text : option string) (maxLength : nat) : string :=
  if Js.truthy text then
    let text := Js.or_else text "" in
    if Nat.ltb maxLength (String.length text)
    then String.substring 0 maxLength text +++ "..."
    else text
  else "Unnamed".

(** [nodeMap[node.id] = node] for every node, a later node of the same id
    replacing an earlier one. *)
Definition nodeMapOf (ns : list node) : Dict.t node :=
  fold_left (fun m n => Dict.set m (id n) n) ns [].

(** [getNodeName] of [updateDetails]. *)
Definition getNodeName (data : graph) (nodeId : string) : string :=
  match Dict.get (nodeMapOf (nodes data)) nodeId with
  | Some n => name n +++ (if isAlias n then " (Alias)" else "")
  | None => nodeId
  end.

(** The figures of the Summary section. *)
Record summary : Type := mkSummary {
  totalTables : nat;
  totalColumns : nat;
  totalAliasedColumns : nat;
  totalQueries : nat;
  totalRelationships : nat
}.

Definition count (p : node -> bool) (ns : list node) : nat :=
  List.length (filter p ns).

(** [updateDetails] shows no summary when the graph has no node. *)
Definition summarize (data : graph) : option summary :=
  match nodes data with
  | [] => None
  | ns =>
      Some (mkSummary
              (count (fun n => node_type_eqb (type n) table) ns)
              (count (fun n => node_type_eqb (type n) column && negb (isAlias n)) ns)
              (count (fun n => node_type_eqb (type n) column && isAlias n) ns)
              (count (fun n => node_type_eqb (type n) query) ns)
              (List.length (edges data)))
  end.

End Panel.

(** ** The visualizer that parses locally when the service is unreachable *)

Module Local.
Import Re Pat.

(** [patterns.join]:
    [/(?:(?:INNER|LEFT|RIGHT|FULL)\s+)?JOIN\s+(ident(?:\.ident)?)\s*(?:AS\s+)?(ident)?/gi];
    [patterns.from], [patterns.select], [patterns.tableColumn] and
    [patterns.alias] are [Pat.fromAliasRe], [Pat.selectRe],
    [Pat.tableColumnRe] and [Sample.asPrefixRe]. *)
Definition joinRe : regex :=
  seq [Opt (Seq (alts [lit "INNER"; lit "LEFT"; lit "RIGHT"; lit "FULL"]) ws1);
       lit "JOIN"; ws1; Grp 1 tableRef; ws0;
       Opt (Seq (lit "AS") ws1); Opt (Grp 2 ident)].

(** The shorter list of reserved words of this script. *)
Definition sqlKeywords : list string :=
  [ "SELECT"; "FROM"; "WHERE"; "JOIN"; "INNER"; "LEFT"; "RIGHT"; "FULL";
    "ON"; "AND"; "OR"; "NOT"; "NULL"; "TRUE"; "FALSE"; "COUNT"; "SUM";
    "AVG"; "MIN"; "MAX"; "GROUP"; "BY"; "ORDER"; "HAVING"; "LIMIT";
    "DISTINCT"; "AS"; "CASE"; "WHEN"; "THEN"; "ELSE"; "END" ].

Record table_info : Type := mkTable {
  t_name : string;
  t_alias : string
}.

Definition tableOf (m : result) : table_info :=
  let name := Parser.dropSchema (cap m 1) in
  mkTable name (Js.or_else (cap_opt m 2) name).

Definition extractTables (sql : string) : list table_info :=
  let tables :=
    match exec fromAliasRe sql with
    | Some fromMatch => [tableOf fromMatch]
    | None => []
    end in
  fold_left
    (fun tables m =>
       let tableInfo := tableOf m in
       if existsb (fun t => String.eqb (t_name t) (t_name tableInfo)) tables
       then tables else tables ++ [tableInfo])
    (exec_all joinRe sql) tables.

Definition extractColumnNames (expression : string) : list string :=
  let columns := map (fun m => cap m 2) (exec_all tableColumnRe expression) in
  match columns with
  | [] =>
      if test identRe (Js.trim expression) then
        let name := Js.trim expression in
        if Js.arr_includes sqlKeywords (Js.toUpperCase name) then [] else [name]
      else []
  | _ => columns
  end.

(** The body of [parts.forEach] in [extractColumns]; [columns] is the
    [Set] in insertion order. *)
Definition addColumns (columns : list string) (part : string) : list string :=
  let trimmed := Js.trim part in
  if String.eqb trimmed "*" then columns
  else
    match exec Sample.asPrefixRe trimmed with
    | Some aliasMatch =>
        fold_left Dict.add (extractColumnNames (cap aliasMatch 1))
                  (Dict.add columns (cap aliasMatch 2))
    | None => fold_left Dict.add (extractColumnNames trimmed) columns
    end.

Definition extractColumns (sql : string) : list string :=
  match exec selectRe sql with
  | None => []
  | Some selectMatch =>
      fold_left addColumns (Parser.splitSelectClause (cap selectMatch 1)) []
  end.

Definition tableId (i : nat) : string := "table_" +++ Js.of_nat i.
Definition columnId (i : nat) : string := "column_" +++ Js.of_nat i.

(** The indices [0 .. n-1] of a [forEach] over [n] elements. *)
Definition indices {A} (l : list A) : list nat := List.seq 0 (List.length l).

(** [createRelationships]: every table provides every column, every column
    flows to the query, every table sources the query. *)
Definition createRelationships (edges : list edge)
    (tables : list table_info) (columns : list string) : list edge :=
  edges
  ++ flat_map
       (fun tableIndex =>
          map (fun columnIndex =>
                 mkEdge (tableId tableIndex) (columnId columnIndex) provides None)
              (indices columns))
       (indices tables)
  ++ map (fun columnIndex =>
            mkEdge (columnId columnIndex) "main_query" flows_to None)
         (indices columns)
  ++ map (fun tableIndex =>
            mkEdge (tableId tableIndex) "main_query" sources None)
         (indices tables).

Definition parseLocalSQL (sql : string) : graph :=
  let tables := extractTables sql in
  let columns := extractColumns sql in
  let ns :=
    map (fun it => mkNode (tableId (fst it)) (t_name (snd it)) table None false)
        (combine (indices tables) tables)
    ++ map (fun ic => mkNode (columnId (fst ic)) (snd ic) column None false)
           (combine (indices columns) columns) in
  let ns :=
    match ns with
    | [] => ns
    | _ => ns ++ [mkNode "main_query" "Main Query" query None false]
    end in
  mkGraph ns (createRelationships [] tables columns).

End Local.

(** ** [script.js]: the sample data built from the text of the input box *)

Module Fallback.
Import Re Pat.

(** [/(?:FROM|JOIN)\s+(ident(?:\.ident)?)/gi] *)
Definition tableRe : regex :=
  seq [Alt (lit "FROM") (lit "JOIN"); ws1; Grp 1 tableRef].

(** [/(?:FROM|JOIN)\s+/i] *)
Definition leadRe : regex := seq [Alt (lit "FROM") (lit "JOIN"); ws1].

(** [/.*\s+AS\s+/i] *)
Definition upToAsRe : regex := seq [Star Dot; ws1; lit "AS"; ws1].

(** [/.*\./g] *)
Definition upToDotRe : regex := seq [Star Dot; dot].

(** [str.replace(re, '')] for a pattern with the g flag: the text between
    the matches, and what follows the last one. *)
Fixpoint between (s : string) (from : nat) (ms : list result) : string :=
  match ms with
  | [] => String.substring from (String.length s - from) s
  | m :: ms' =>
      String.substring from (index m - from) s +++ between s (stop m) ms'
  end.

Definition remove_all (r : regex) (s : string) : string :=
  between s 0 (exec_all r s).

(** [str.replace(/[^a-zA-Z0-9_]/g, '')]: the identifier characters of the
    text. *)
Fixpoint wordChars (s : string) : string :=
  match s with
  | EmptyString => EmptyString
  | String a s' =>
      if cmatch IdChar a then String a (wordChars s') else wordChars s'
  end.

(** [sql.match(tableRegex) || []] lists the matched texts. *)
Definition extractTablesFromSQL (sql : string) : list string :=
  Sample.unique
    (map (fun m => Js.trim (remove_first leadRe (text m)))
         (exec_all tableRe sql)).

Definition cleanColumn (col : string) : string :=
  let cleanCol := remove_all upToDotRe (remove_first upToAsRe (Js.trim col)) in
  String.substring 0 20 (wordChars cleanCol).

Definition extractColumnsFromSQL (sql : string) : list string :=
  match exec selectRe sql with
  | None => []
  | Some m =>
      Sample.unique
        (filter (fun col => negb (Js.is_empty col) && negb (String.eqb col "*"))
                (map cleanColumn (Js.split "," (cap m 1))))
  end.

(** Nodes and edges as this script builds them; the edge type [feeds]
    occurs nowhere else. *)
Record sample_edge : Type := mkFeed {
  f_source : string;
  f_target : string;
  f_type : string
}.

Record sample_graph : Type := mkSample {
  s_nodes : list node;
  s_edges : list sample_edge
}.

Definition createSampleDataFromSQL (normalized : sample_graph)
    (sqlInput : string) : sample_graph :=
  let tables := extractTablesFromSQL sqlInput in
  let columns := extractColumnsFromSQL sqlInput in
  let ns :=
    s_nodes normalized
    ++ map (fun it => mkNode (Local.tableId (fst it)) (snd it) table None false)
           (Sample.indexed tables)
    ++ map (fun ic => mkNode (Local.columnId (fst ic)) (snd ic) column None false)
           (Sample.indexed columns) in
  match tables with
  | [] => mkSample ns (s_edges normalized)
  | _ =>
      mkSample
        (ns ++ [mkNode "main_query" "Main Query" query None false])
        (s_edges normalized
         ++ map (fun it => mkFeed (Local.tableId (fst it)) "main_query" "feeds")
                (Sample.indexed tables))
  end.

End Fallback.

(** ** Predicates used by the statements *)

Definition ids (ns : list node) : list string := map id ns.

(** Every id stored in a map names a node. *)
Definition values_in (m : Dict.t string) (ns : list node) : Prop :=
  forall k v, Dict.get m k = Some v -> In v (ids ns).

(** No edge dangles. *)
Definition closed (ns : list node) (es : list edge) : Prop :=
  forall e, In e es -> In (source e) (ids ns) /\ In (target e) (ids ns).

(** The invariant of the graph builder. *)
Record wf (b : Viz.builder) : Prop := mkWf {
  wf_query : In Viz.mainQueryNodeId (ids (Viz.b_nodes b));
  wf_nodeMap : values_in (Viz.nodeMap b) (Viz.b_nodes b);
  wf_columnMap : values_in (Viz.columnNodeIdMap b) (Viz.b_nodes b);
  wf_aliasMap : values_in (Viz.aliasNodeIdMap b) (Viz.b_nodes b);
  wf_edges : closed (Viz.b_nodes b) (Viz.b_edges b)
}.

(** The kinds of node the builder creates. *)
Definition is_table (n : node) : Prop :=
  type n = table /\ isAlias n = false /\ originalQualifiedName n = None.

Definition is_qualified_column (n : node) : Prop :=
  type n = column /\ isAlias n = false /\
  exists q, originalQualifiedName n = Some q /\
            name n = Js.slot (Js.split "." q) 0 +++ " > " +++ Js.slot (Js.split "." q) 1.

(** A name that [processSelectPart] gives to an unqualified column: the
    star, or what [extractOriginalColumnFromExpression] infers. *)
Definition inferred_name (x : string) : Prop :=
  x = "*" \/ exists e, Parser.extractOriginalColumnFromExpression e = Some x.

Definition is_simple_column (n : node) : Prop :=
  type n = column /\ isAlias n = false /\
  originalQualifiedName n = Some (name n) /\ inferred_name (name n).

Definition is_alias_node (n : node) : Prop :=
  type n = column /\ isAlias n = true /\ originalQualifiedName n = None.

(** Qualified names in first-seen order, compared in lower case; [seen]
    holds the lower-cased names already met. *)
Fixpoint firstSeen (seen l : list string) : list string :=
  match l with
  | [] => []
  | q :: l' =>
      if Js.arr_includes seen (Js.toLowerCase q) then firstSeen seen l'
      else q :: firstSeen (Js.toLowerCase q :: seen) l'
  end.

(** The qualified references of the whole statement, as
    [generateVisualizationData] collects them. *)
Definition allQualifiedColumnNames (sql : string) : list string :=
  snd (Viz.extractTableColumnReferences sql (Viz.extractTableAliases sql)
         (Some []) []).

(** [b'] has the nodes of [b] followed by new nodes that satisfy [P]. *)
Definition extends (P : node -> Prop) (b b' : Viz.builder) : Prop :=
  exists l, Viz.b_nodes b' = Viz.b_nodes b ++ l /\ Forall P l.


(** The text is free of white space other than single inner spaces. *)
Fixpoint single_spaced (after_space : bool) (s : string) : bool :=
  match s with
  | EmptyString => negb after_space
  | String a s' =>
      if Js.is_space a then
        Ascii.eqb a " " && negb after_space && single_spaced true s'
      else single_spaced false s'
  end.

Definition normal_form (s : string) : bool :=
  Js.is_empty s || single_spaced true s.

(** The characters of a text that are not white space. *)
Fixpoint strip_ws (s : string) : string :=
  match s with
  | EmptyString => EmptyString
  | String a s' => if Js.is_space a then strip_ws s' else String a (strip_ws s')
  end.

Fixpoint has_space (s : string) : bool :=
  match s with
  | EmptyString => false
  | String a s' => Ascii.eqb a " " || has_space s'
  end.


Definition edges_of (ty : edge_type) (g : graph) : list edge :=
  filter (fun e => edge_type_eqb (etype e) ty) (edges g).

Definition nodes_of (ty : node_type) (g : graph) : list node :=
  filter (fun n => node_type_eqb (type n) ty) (nodes g).


(** [t] is what is left of [s] after some prefix. *)
Definition suffix (t s : string) : Prop := exists pre, s = pre +++ t.

(** Every character of [s] is in the class [c]. *)
Fixpoint all_in (c : Re.cclass) (s : string) : bool :=
  match s with
  | EmptyString => true
  | String a s' => Re.cmatch c a && all_in c s'
  end.

(** [s] has the shape [[a-zA-Z_][a-zA-Z0-9_]*]. *)
Definition is_ident (s : string) : bool :=
  match s with
  | EmptyString => false
  | String a s' => Re.cmatch Re.IdStart a && all_in Re.IdChar s'
  end.

(** [tableColumnMap[k]] is an array that holds [c]. *)
Definition has_column (tcm : Dict.t (list string)) (k c : string) : Prop :=
  exists cols, Dict.get tcm k = Some cols /\ In c cols.

(** The edge list holds a provides edge from [s] to [t]. *)
Definition provides_edge (es : list edge) (s t : string) : Prop :=
  exists e, In e es /\ source e = s /\ target e = t /\ etype e = provides.


(** The texts a pattern can consume, read off its syntax; anchors and
    lookaheads consume nothing. *)
Fixpoint lang (r : Re.regex) (w : string) : Prop :=
  match r with
  | Re.Eps => w = EmptyString
  | Re.Cls c => exists a, w = String a EmptyString /\ Re.cmatch c a = true
  | Re.Seq r1 r2 => exists w1 w2, w = w1 +++ w2 /\ lang r1 w1 /\ lang r2 w2
  | Re.Alt r1 r2 => lang r1 w \/ lang r2 w
  | Re.Star c => all_in c w = true
  | Re.StarLazy c => all_in c w = true
  | Re.Opt r1 => w = EmptyString \/ lang r1 w
  | Re.Grp _ r1 => lang r1 w
  | Re.Ahead _ => w = EmptyString
  | Re.Bol => w = EmptyString
  | Re.Eol => w = EmptyString
  end.

(** The pattern holds a capture group numbered [n]. *)
Fixpoint binds (r : Re.regex) (n : nat) : bool :=
  match r with
  | Re.Grp m r1 => Nat.eqb m n || binds r1 n
  | Re.Seq r1 r2 => binds r1 n || binds r2 n
  | Re.Alt r1 r2 => binds r1 n || binds r2 n
  | Re.Opt r1 => binds r1 n
  | Re.Ahead r1 => binds r1 n
  | _ => false
  end.

Fixpoint no_dot (s : string) : bool :=
  match s with
  | EmptyString => true
  | String a s' => negb (Ascii.eqb a ".") && no_dot s'
  end.


(** The least number of characters a pattern consumes. *)
Fixpoint min_len (r : Re.regex) : nat :=
  match r with
  | Re.Cls _ => 1
  | Re.Seq r1 r2 => min_len r1 + min_len r2
  | Re.Alt r1 r2 => Nat.min (min_len r1) (min_len r2)
  | Re.Grp _ r1 => min_len r1
  | _ => 0
  end.


(** The texts that capture group [n] of a pattern can hold. *)
Fixpoint grp_lang (r : Re.regex) (n : nat) (w : string) : Prop :=
  match r with
  | Re.Grp m r1 => (m = n /\ lang r1 w) \/ grp_lang r1 n w
  | Re.Seq r1 r2 => grp_lang r1 n w \/ grp_lang r2 n w
  | Re.Alt r1 r2 => grp_lang r1 n w \/ grp_lang r2 n w
  | Re.Opt r1 => grp_lang r1 n w
  | Re.Ahead r1 => grp_lang r1 n w
  | _ => False
  end.

(** Group [n] takes part in every match of the pattern. *)
Fixpoint must_bind (r : Re.regex) (n : nat) : bool :=
  match r with
  | Re.Grp m r1 => Nat.eqb m n || must_bind r1 n
  | Re.Seq r1 r2 => must_bind r1 n || must_bind r2 n
  | Re.Alt r1 r2 => must_bind r1 n && must_bind r2 n
  | Re.Ahead r1 => must_bind r1 n
  | _ => false
  end.

(** The ids that the graph builder makes from its counter. *)
Definition node_id (n : nat) (x : string) : Prop :=
  x = "table_" +++ Js.of_nat n \/ x = "col_" +++ Js.of_nat n
  \/ x = "alias_" +++ Js.of_nat n.

(** What a [uses] edge looks like, and its mirror image. *)
Definition join_edge (s t : string) : edge := mkEdge s t uses (Some "on_join").

(** A second invariant of the graph builder: ids are fresh, an alias node
    comes with its flow into the query, only join edges are labelled, and
    join edges come in pairs. *)
Record tidy (b : Viz.builder) : Prop := mkTidy {
  td_nodup : NoDup (ids (Viz.b_nodes b));
  td_ids : forall x, In x (ids (Viz.b_nodes b)) ->
             x = Viz.mainQueryNodeId \/
             exists n, n < Viz.nodeIdCounter b /\ node_id n x;
  td_alias : forall n, In n (Viz.b_nodes b) -> isAlias n = true ->
             In (mkEdge (id n) Viz.mainQueryNodeId flows_to None) (Viz.b_edges b);
  td_kinds : forall e, In e (Viz.b_edges b) ->
             etype e <> sources /\
             label e = if edge_type_eqb (etype e) uses then Some "on_join" else None;
  td_pairs : forall e, In e (Viz.b_edges b) -> etype e = uses ->
             In (join_edge (target e) (source e)) (Viz.b_edges b)
}.


(** The parenthesis counter of [splitSelectClause] after reading [x] from
    the count [d]; [None] when [x] holds a comma at count zero. *)
Fixpoint depthAfter (x : string) (d : Z) : option Z :=
  match x with
  | EmptyString => Some d
  | String a x' =>
      if Ascii.eqb a "(" then depthAfter x' (d + 1)%Z
      else if Ascii.eqb a ")" then depthAfter x' (d - 1)%Z
      else if Ascii.eqb a "," && Z.eqb d 0 then None
      else depthAfter x' d
  end.

(** The map from tables to columns and the array of qualified names hold
    the same references, each once. *)
Record consistent (tableColumnMap : Dict.t (list string))
    (qualifiedNamesArray : list string) : Prop := mkConsistent {
  cs_names : NoDup qualifiedNamesArray;
  cs_keys : NoDup (map fst tableColumnMap);
  cs_cols : Forall (fun kv => NoDup (snd kv)) tableColumnMap;
  cs_listed : forall t cols c,
      In (t, cols) tableColumnMap -> In c cols ->
      In (t +++ "." +++ c) qualifiedNamesArray;
  cs_mapped : forall q,
      In q qualifiedNamesArray ->
      exists t cols c,
        In (t, cols) tableColumnMap /\ In c cols /\ q = t +++ "." +++ c
}.

(** Where an edge may lead, by its kind: a constraint ends at the query
    node, a modification starts there, and a flow ends at the query node
    or at an alias node. *)
Definition ends_ok (ns : list node) (e : edge) : Prop :=
  match etype e with
  | constrains => target e = "query_main"
  | modifies => source e = "query_main"
  | flows_to =>
      target e = "query_main" \/
      exists n, In n ns /\ id n = target e /\ isAlias n = true
  | _ => True
  end.

(** A third invariant of the graph builder: the alias map points at alias
    nodes, and every edge leads where its kind allows. *)
Record directed (b : Viz.builder) : Prop := mkDirected {
  dr_aliases : forall k v,
      Dict.get (Viz.aliasNodeIdMap b) k = Some v ->
      exists n, In n (Viz.b_nodes b) /\ id n = v /\ isAlias n = true;
  dr_ends : forall e, In e (Viz.b_edges b) -> ends_ok (Viz.b_nodes b) e
}.


(** An edge that the data already had, or an edge between two of its
    nodes. *)
Definition sound (normalized : graph) (e : edge) : Prop :=
  In e (edges normalized) \/
  (In (source e) (ids (nodes normalized)) /\
   In (target e) (ids (nodes normalized))).


(** The names that every plain JavaScript object inherits from
    [Object.prototype].  The scripts keep the alias map and the map from
    tables to columns in plain objects; under such a name a lookup finds
    the inherited member, where the dictionaries of this development hold
    own keys only. *)
Definition inheritedMembers : list string :=
  [ "constructor"; "__proto__"; "hasOwnProperty"; "isPrototypeOf";
    "propertyIsEnumerable"; "toLocaleString"; "toString"; "valueOf";
    "__defineGetter__"; "__defineSetter__"; "__lookupGetter__";
    "__lookupSetter__" ].

(** No inherited name occurs in the text, in any letter case.  Every key
    of the plain objects is an identifier of the text, or its lower-case
    form, so for such a text the lookups meet own keys only. *)
Definition ordinary (sql : string) : bool :=
  forallb (fun k => negb (Js.includes (Js.toLowerCase sql) (Js.toLowerCase k)))
          inheritedMembers.

(** The normalisation in the words of the specification: the words of the
    text, which are its maximal runs of characters other than white
    space, ... *)
Definition starts_with_space (s : string) : bool :=
  match s with
  | String b _ => Js.is_space b
  | EmptyString => false
  end.

Fixpoint wordsOf (s : string) : list string :=
  match s with
  | EmptyString => []
  | String a s' =>
      if Js.is_space a then wordsOf s'
      else
        match wordsOf s' with
        | w :: ws =>
            if starts_with_space s' then String a EmptyString :: w :: ws
            else String a w :: ws
        | [] => [String a EmptyString]
        end
  end.

(** ... joined by single spaces. *)
Fixpoint unwords (ws : list string) : string :=
  match ws with
  | [] => EmptyString
  | [w] => w
  | w :: ws' => w +++ " " +++ unwords ws'
  end.

(** A word: not empty, no white space.  A gap: a run of white space. *)
Definition is_word (w : string) : bool :=
  negb (Js.is_empty w) && String.eqb (strip_ws w) w.

Definition is_gap (g : string) : bool :=
  negb (Js.is_empty g) && all_in Re.Space g.


(** The expressions that the SELECT phase of the graph builder reads a
    column from: a select item, trimmed, or what stands before its
    [AS alias]. *)
Definition select_expression (sql expr : string) : Prop :=
  exists part,
    In part (Viz.selectClauseParts sql) /\
    expr = match Re.exec Pat.asAliasRe (Js.trim part) with
           | Some asMatch => Js.trim (Pat.cap asMatch 1)
           | None => Js.trim part
           end.

(** The two ways in which [extractOriginalColumnFromExpression] names a
    column: after what follows the last dot of a dotted expression,
    unchecked; or after the whole expression, when that is an identifier
    and no reserved word. *)
Definition named_after (expr x : string) : Prop :=
  (Js.includes (Parser.unwrapExpression expr) "." = true /\
   x = Js.trim (Js.pop (Js.split "." (Parser.unwrapExpression expr))))
  \/
  (Js.includes (Parser.unwrapExpression expr) "." = false /\
   x = Parser.unwrapExpression expr /\
   is_ident x = true /\ isSQLKeyword x = false).

(** The node of an unqualified column: it is named from a select
    expression of the statement in which no qualified reference is
    found, or it is the star. *)
Definition column_of_select (sql : string) (n : node) : Prop :=
  type n = column /\ isAlias n = false /\
  originalQualifiedName n = Some (name n) /\
  exists expr,
    select_expression sql expr /\
    Viz.refsOf expr (Viz.extractTableAliases sql) = [] /\
    ((expr = "*" /\ name n = "*") \/
     (name n <> EmptyString /\ named_after expr (name n))).


(** A pattern without look-ahead and without [^] or [$]: whether it
    matches at a place depends on the text from that place on only. *)
Fixpoint plain (r : Re.regex) : bool :=
  match r with
  | Re.Seq r1 r2 | Re.Alt r1 r2 => plain r1 && plain r2
  | Re.Opt r1 | Re.Grp _ r1 => plain r1
  | Re.Ahead _ | Re.Bol | Re.Eol => false
  | _ => true
  end.

(** Some text of the pattern starts at position [p] of [sql]. *)
Definition matches_at (r : Re.regex) (sql : string) (p : nat) : Prop :=
  exists pre w post,
    sql = pre +++ w +++ post /\ String.length pre = p /\ lang r w.

(** The match [m] was found at its index in [sql]. *)
Definition found_at (r : Re.regex) (sql : string) (m : Re.result) : Prop :=
  exists pre rest,
    sql = pre +++ rest /\ String.length pre = Re.index m /\
    Re.at_pos r (Re.index m) rest = Some m.

(** The matches [ms] are what a scan of [sql] from position [from] finds:
    each is the first match that starts at or after the end of the one
    before, and none starts after the last. *)
Fixpoint scanned (r : Re.regex) (sql : string) (from : nat)
    (ms : list Re.result) : Prop :=
  match ms with
  | [] => forall p, from <= p -> ~ matches_at r sql p
  | m :: ms' =>
      from <= Re.index m /\ found_at r sql m /\
      (forall p, from <= p < Re.index m -> ~ matches_at r sql p) /\
      scanned r sql (Re.stop m) ms'
  end.

(** A reference [qualifier.column] in a text: where it starts, where it
    stops, and its two identifiers. *)
Record occurrence : Type := mkOccurrence {
  o_start : nat;
  o_stop : nat;
  o_qualifier : string;
  o_column : string
}.

Definition starts_with_idchar (s : string) : bool :=
  match s with
  | String a _ => Re.cmatch Re.IdChar a
  | EmptyString => false
  end.

(** At position [p] the text reads: an identifier, white space or none, a
    dot, white space or none, an identifier. *)
Definition some_reference_at (sql : string) (p : nat) : Prop :=
  exists pre q w1 w2 c post,
    sql = pre +++ q +++ w1 +++ "." +++ w2 +++ c +++ post /\
    String.length pre = p /\
    is_ident q = true /\ all_in Re.Space w1 = true /\
    all_in Re.Space w2 = true /\ is_ident c = true.

(** The occurrence [o] is in the text: its qualifier starts at [o_start],
    and its column, taken in full, ends at [o_stop]. *)
Definition reference_at (sql : string) (o : occurrence) : Prop :=
  exists pre w1 w2 post,
    sql = pre +++ o_qualifier o +++ w1 +++ "." +++ w2 +++ o_column o +++ post /\
    String.length pre = o_start o /\
    o_stop o = o_start o
               + String.length (o_qualifier o +++ w1 +++ "." +++ w2 +++ o_column o) /\
    is_ident (o_qualifier o) = true /\ all_in Re.Space w1 = true /\
    all_in Re.Space w2 = true /\ is_ident (o_column o) = true /\
    starts_with_idchar post = false.

(** The occurrences [os] are the references of [sql] read from left to
    right, starting at position [from]: each is the first reference that
    starts at or after the end of the one before, and no reference starts
    after the last. *)
Fixpoint in_text_order (sql : string) (from : nat) (os : list occurrence)
    : Prop :=
  match os with
  | [] => forall p, from <= p -> ~ some_reference_at sql p
  | o :: os' =>
      from <= o_start o /\ reference_at sql o /\
      (forall p, from <= p < o_start o -> ~ some_reference_at sql p) /\
      in_text_order sql (o_stop o) os'
  end.

(** The table that a qualifier stands for, and the qualified name that
    the collector makes of an occurrence. *)
Definition resolve (tableAliases : Dict.t string) (qualifier : string) : string :=
  Js.or_else (Dict.get tableAliases (Js.toLowerCase qualifier)) qualifier.

Definition qualifiedNameOf (tableAliases : Dict.t string) (o : occurrence)
    : string :=
  resolve tableAliases (o_qualifier o) +++ "." +++ o_column o.

Definition occurrenceOf (m : Re.result) : occurrence :=
  mkOccurrence (Re.index m) (Re.stop m) (Pat.cap m 1) (Pat.cap m 2).


(** The entry [k -> v] of the column map stands for a column node: [v]
    is the id of a node that is a column and no alias, and [k] is the
    lower-case form of the name the node was made for. *)
Definition registered (ns : list node) (k v : string) : Prop :=
  Js.is_empty v = false /\
  exists n q,
    In n ns /\ id n = v /\ type n = column /\ isAlias n = false /\
    originalQualifiedName n = Some q /\ Js.toLowerCase q = k.

(** A fourth invariant of the graph builder: the column map holds column
    nodes under their names, only dotted names are given an alias, and a
    provides edge ends at the node of a dotted name. *)
Record attributed (b : Viz.builder) : Prop := mkAttributed {
  at_columns : forall k v,
      Dict.get (Viz.columnNodeIdMap b) k = Some v ->
      registered (Viz.b_nodes b) k v;
  at_aliases : forall k v,
      Dict.get (Viz.resolvedColumnAliases b) k = Some v ->
      Js.includes k "." = true;
  at_provides : forall e,
      In e (Viz.b_edges b) -> etype e = provides ->
      exists k, Js.includes k "." = true /\
                registered (Viz.b_nodes b) k (target e)
}.

(** What no step of the builder takes back: edges, entries of the column
    map, selected columns and output columns. *)
Record grows (b b' : Viz.builder) : Prop := mkGrows {
  gr_edges : forall e, In e (Viz.b_edges b) -> In e (Viz.b_edges b');
  gr_columns : forall k v,
      Dict.get (Viz.columnNodeIdMap b) k = Some v ->
      Dict.get (Viz.columnNodeIdMap b') k = Some v;
  gr_selected : forall k,
      In k (Viz.selectedOriginalQualifiedColumns b) ->
      In k (Viz.selectedOriginalQualifiedColumns b');
  gr_output : forall k,
      In k (Viz.outputColumns b) -> In k (Viz.outputColumns b')
}.

(** The column [k] has its node and is both selected and an output
    column. *)
Definition tracked (k : string) (b : Viz.builder) : Prop :=
  (exists v, Dict.get (Viz.columnNodeIdMap b) k = Some v) /\
  In k (Viz.selectedOriginalQualifiedColumns b) /\
  In k (Viz.outputColumns b).

(** The node of the column [k] has its flow into the query. *)
Definition flows (k : string) (b : Viz.builder) : Prop :=
  exists v, Dict.get (Viz.columnNodeIdMap b) k = Some v /\
            In (mkEdge v Viz.mainQueryNodeId flows_to None) (Viz.b_edges b).


(** * Proofs *)

(** ** Dictionaries *)

Lemma get_set {V} (m : Dict.t V) (k k' : string) (v : V) :
  Dict.get (Dict.set m k v) k' =
  if String.eqb k k' then Some v else Dict.get m k'.
Proof.
  induction m as [|[k0 v0] m IH]; simpl.
  - reflexivity.
  - destruct (String.eqb k0 k) eqn:E0; simpl.
    + apply String.eqb_eq in E0; subst k0.
      destruct (String.eqb k k'); reflexivity.
    + rewrite IH. destruct (String.eqb k0 k') eqn:E1; [|reflexivity].
      apply String.eqb_eq in E1; subst k0.
      rewrite String.eqb_sym, E0. reflexivity.
Qed.

Lemma values_in_set m ns k v :
  values_in m ns -> In v (ids ns) -> values_in (Dict.set m k v) ns.
Proof.
  intros Hm Hv k' v'. rewrite get_set.
  destruct (String.eqb k k'); [intros [= <-]; exact Hv | apply Hm].
Qed.

Lemma ids_app ns l : ids (ns ++ l) = ids ns ++ ids l.
Proof. apply map_app. Qed.

Lemma values_in_app m ns l : values_in m ns -> values_in m (ns ++ l).
Proof.
  intros Hm k v Hk. rewrite ids_app. apply in_or_app. left. eauto.
Qed.

Lemma closed_app_nodes ns l es : closed ns es -> closed (ns ++ l) es.
Proof.
  intros H e He. rewrite ids_app. destruct (H e He).
  split; apply in_or_app; left; assumption.
Qed.

Lemma closed_push ns es e :
  closed ns es -> In (source e) (ids ns) -> In (target e) (ids ns) ->
  closed ns (es ++ [e]).
Proof.
  intros H Hs Ht e' He'. apply in_app_or in He'.
  destruct He' as [He'|[<-|[]]]; auto.
Qed.

Lemma getId_in m ns k v :
  values_in m ns -> Viz.getId m k = Some v -> In v (ids ns).
Proof.
  unfold Viz.getId. intros Hm.
  destruct (Dict.get m k) as [v'|] eqn:E; [|discriminate].
  destruct (Js.is_empty v'); [discriminate|].
  intros [= <-]. eauto.
Qed.

(** ** The builder keeps the graph closed *)

(** An id read from one of the three id maps names a node. *)
Ltac id_known H E :=
  first [ exact (getId_in _ _ _ _ (wf_columnMap _ H) E)
        | exact (getId_in _ _ _ _ (wf_nodeMap _ H) E)
        | exact (getId_in _ _ _ _ (wf_aliasMap _ H) E) ].

Lemma fold_left_inv {A B} (P : A -> Prop) (f : A -> B -> A) (l : list B) :
  (forall a x, P a -> P (f a x)) -> forall a, P a -> P (fold_left f l a).
Proof.
  intros Hf. induction l as [|x l IH]; simpl; auto.
Qed.

Lemma wf_pushNode b n : wf b -> wf (Viz.pushNode b n).
Proof.
  intros [Hq Hn Hc Ha He]. constructor; simpl.
  - rewrite ids_app. apply in_or_app. left. exact Hq.
  - apply values_in_app, Hn.
  - apply values_in_app, Hc.
  - apply values_in_app, Ha.
  - apply closed_app_nodes, He.
Qed.

Lemma in_pushNode b n : In (id n) (ids (Viz.b_nodes (Viz.pushNode b n))).
Proof.
  simpl. rewrite ids_app. apply in_or_app. right. simpl. auto.
Qed.

Lemma wf_pushEdge b e :
  wf b -> In (source e) (ids (Viz.b_nodes b)) ->
  In (target e) (ids (Viz.b_nodes b)) -> wf (Viz.pushEdge b e).
Proof.
  intros [Hq Hn Hc Ha He] Hs Ht. constructor; simpl; auto.
  apply closed_push; assumption.
Qed.

Lemma wf_setNodeMap b k v :
  wf b -> In v (ids (Viz.b_nodes b)) -> wf (Viz.setNodeMap b k v).
Proof.
  intros [Hq Hn Hc Ha He] Hv. constructor; simpl; auto.
  apply values_in_set; assumption.
Qed.

Lemma wf_setColumnNodeId b k v :
  wf b -> In v (ids (Viz.b_nodes b)) -> wf (Viz.setColumnNodeId b k v).
Proof.
  intros [Hq Hn Hc Ha He] Hv. constructor; simpl; auto.
  apply values_in_set; assumption.
Qed.

Lemma wf_setAliasNodeId b k v :
  wf b -> In v (ids (Viz.b_nodes b)) -> wf (Viz.setAliasNodeId b k v).
Proof.
  intros [Hq Hn Hc Ha He] Hv. constructor; simpl; auto.
  apply values_in_set; assumption.
Qed.

Lemma wf_setResolvedAlias b k v : wf b -> wf (Viz.setResolvedAlias b k v).
Proof. intros [Hq Hn Hc Ha He]. constructor; simpl; auto. Qed.

Lemma wf_addOutputColumn b k : wf b -> wf (Viz.addOutputColumn b k).
Proof. intros [Hq Hn Hc Ha He]. constructor; simpl; auto. Qed.

Lemma wf_addSelected b k : wf b -> wf (Viz.addSelected b k).
Proof. intros [Hq Hn Hc Ha He]. constructor; simpl; auto. Qed.

Create HintDb wfdb.

#[local] Hint Resolve wf_pushNode wf_pushEdge wf_setNodeMap wf_setColumnNodeId
  wf_setAliasNodeId wf_setResolvedAlias wf_addOutputColumn wf_addSelected
  in_pushNode : wfdb.

Lemma wf_initial : wf Viz.initial.
Proof.
  constructor; simpl.
  - auto.
  - intros k v. cbn [Viz.nodeMap Viz.initial Dict.get].
    destruct (String.eqb _ k); [|discriminate].
    intros [= <-]. simpl. auto.
  - intros k v; simpl; discriminate.
  - intros k v; simpl; discriminate.
  - intros e [].
Qed.

Lemma wf_addTable b t : wf b -> wf (Viz.addTable b t).
Proof.
  intros H. unfold Viz.addTable. apply wf_setNodeMap; [auto with wfdb|].
  apply (in_pushNode b (mkNode _ t table None false)).
Qed.

Lemma wf_addQualifiedColumn b q : wf b -> wf (Viz.addQualifiedColumn b q).
Proof.
  intros H. unfold Viz.addQualifiedColumn.
  destruct (Dict.has _ _); [assumption|].
  apply wf_setColumnNodeId; [auto with wfdb|].
  apply (in_pushNode b (mkNode _ _ column _ false)).
Qed.

Lemma wf_addSimpleColumn b c : wf b -> wf (Viz.addSimpleColumn b c).
Proof.
  intros H. unfold Viz.addSimpleColumn.
  destruct (Dict.has _ _); [assumption|].
  apply wf_setColumnNodeId; [auto with wfdb|].
  apply (in_pushNode b (mkNode _ _ column _ false)).
Qed.

Lemma wf_addStarColumn b : wf b -> wf (Viz.addStarColumn b).
Proof.
  intros H. unfold Viz.addStarColumn.
  destruct (Dict.has _ _); [assumption|].
  apply wf_setColumnNodeId; [auto with wfdb|].
  apply (in_pushNode b (mkNode _ _ column _ false)).
Qed.

#[local] Hint Resolve wf_addTable wf_addQualifiedColumn wf_addSimpleColumn
  wf_addStarColumn : wfdb.

Lemma wf_processSelectPart al b part :
  wf b -> wf (Viz.processSelectPart al b part).
Proof.
  intros H. unfold Viz.processSelectPart.
  destruct (Re.exec Pat.asAliasRe _) as [m|].
  - apply wf_addOutputColumn.
    destruct (Viz.refsOf _ al); [|auto with wfdb].
    destruct (Js.truthy _); auto with wfdb.
  - destruct (Viz.refsOf _ al); [|auto with wfdb].
    destruct (Js.truthy _); [auto with wfdb|].
    destruct (String.eqb _ _); auto with wfdb.
Qed.

Lemma wf_emitOutputColumn b o : wf b -> wf (Viz.emitOutputColumn b o).
Proof.
  intros H. unfold Viz.emitOutputColumn.
  destruct (_ && negb (Dict.has (Viz.aliasNodeIdMap b) o)).
  - set (n := mkNode _ o column None true).
    apply wf_pushEdge; simpl.
    + apply wf_setAliasNodeId; [auto with wfdb|]. apply (in_pushNode b n).
    + apply (in_pushNode b n).
    + rewrite ids_app. apply in_or_app. left. apply H.
  - destruct (_ && negb (Js.arr_includes _ o)).
    + destruct (Viz.getId _ o) as [c|] eqn:E; [|assumption].
      apply wf_pushEdge; simpl; [assumption| |apply H].
      id_known H E.
    + destruct (_ && Dict.has _ "*"); [|assumption].
      destruct (Dict.get _ "*") as [c|] eqn:E; [|assumption].
      apply wf_pushEdge; simpl; [assumption| |apply H].
      eapply (wf_columnMap b H); exact E.
Qed.

Lemma wf_emitProvides_columns b tn tid cols :
  wf b -> In tid (ids (Viz.b_nodes b)) ->
  wf (fold_left
        (fun b columnName =>
           match Viz.getId (Viz.columnNodeIdMap b)
                   (Js.toLowerCase (tn +++ "." +++ columnName)) with
           | Some c => Viz.pushEdge b (mkEdge tid c provides None)
           | None => b
           end) cols b).
Proof.
  revert b. induction cols as [|c cols IH]; intros b H Ht; simpl; [assumption|].
  destruct (Viz.getId _ _) as [cid|] eqn:E.
  - apply IH; [|exact Ht].
    apply wf_pushEdge; simpl; [assumption|exact Ht|].
    id_known H E.
  - apply IH; assumption.
Qed.

Lemma wf_emitProvides b entry : wf b -> wf (Viz.emitProvides b entry).
Proof.
  intros H. destruct entry as [tn cols]. unfold Viz.emitProvides.
  destruct (Viz.getId _ _) as [tid|] eqn:E; [|assumption].
  apply wf_emitProvides_columns; [assumption|].
  id_known H E.
Qed.

Lemma wf_emitSelectedFlow b q : wf b -> wf (Viz.emitSelectedFlow b q).
Proof.
  intros H. unfold Viz.emitSelectedFlow.
  destruct (Viz.getId (Viz.columnNodeIdMap b) q) as [c|] eqn:E; [|assumption].
  pose proof (getId_in _ _ _ _ (wf_columnMap b H) E) as Hc.
  destruct (Js.truthy _).
  - destruct (Viz.getId (Viz.aliasNodeIdMap b) _) as [a|] eqn:Ea; [|assumption].
    apply wf_pushEdge; simpl; [assumption|exact Hc|].
    id_known H Ea.
  - destruct (_ || _); [|assumption].
    destruct (Viz.linked _ _ _ _); [assumption|].
    apply wf_pushEdge; simpl; [assumption|exact Hc|apply H].
Qed.

Lemma wf_emitJoin b cond : wf b -> wf (Viz.emitJoin b cond).
Proof.
  intros H. destruct cond as [l r]. unfold Viz.emitJoin.
  destruct (_ && _); [|assumption].
  destruct (Viz.getId _ (Js.toLowerCase l)) as [lid|] eqn:El; [|assumption].
  destruct (Viz.getId _ (Js.toLowerCase r)) as [rid|] eqn:Er; [|assumption].
  pose proof (getId_in _ _ _ _ (wf_columnMap b H) El) as Hl.
  pose proof (getId_in _ _ _ _ (wf_columnMap b H) Er) as Hr.
  apply wf_pushEdge; simpl; [|exact Hr|exact Hl].
  apply wf_pushEdge; simpl; assumption.
Qed.

Lemma wf_emitConstraint b q : wf b -> wf (Viz.emitConstraint b q).
Proof.
  intros H. unfold Viz.emitConstraint.
  destruct (Viz.getId _ _) as [c|] eqn:E; [|assumption].
  apply wf_pushEdge; simpl; [assumption| |apply H].
  id_known H E.
Qed.

Lemma wf_emitWhere sql al b : wf b -> wf (Viz.emitWhere sql al b).
Proof.
  intros H. unfold Viz.emitWhere.
  destruct (Re.exec _ _); [|assumption].
  destruct (Js.truthy _); [|assumption].
  apply fold_left_inv; [intros; apply wf_emitConstraint|]; assumption.
Qed.

Lemma wf_emitModifies kw re sql b : wf b -> wf (Viz.emitModifies kw re sql b).
Proof.
  intros H. unfold Viz.emitModifies.
  destruct (Js.includes _ _); [|assumption].
  destruct (Re.exec _ _); [|assumption].
  destruct (Viz.getId _ _) as [t|] eqn:E; [|assumption].
  apply wf_pushEdge; simpl; [assumption|apply H|].
  id_known H E.
Qed.

(** The builder state [generateVisualizationData] ends with. *)
Lemma generate_closed sql pr :
  closed (nodes (Viz.generateVisualizationData sql pr))
         (edges (Viz.generateVisualizationData sql pr)).
Proof.
  unfold Viz.generateVisualizationData.
  destruct (Viz.extractTableColumnReferences sql _ _ _) as [tcr qs].
  simpl. apply wf_edges.
  repeat first
    [ apply wf_emitModifies
    | apply wf_emitWhere
    | apply fold_left_inv;
      [ intros;
        first [ apply wf_emitJoin | apply wf_emitSelectedFlow
              | apply wf_emitProvides | apply wf_emitOutputColumn
              | apply wf_processSelectPart | apply wf_addQualifiedColumn
              | apply wf_addTable ]; assumption
      | ] ].
  apply wf_initial.
Qed.

(** ** The order in which nodes are created *)

Lemma extends_refl P b : extends P b b.
Proof. exists []. rewrite app_nil_r. auto. Qed.

Lemma extends_trans P b1 b2 b3 :
  extends P b1 b2 -> extends P b2 b3 -> extends P b1 b3.
Proof.
  intros [l1 [E1 F1]] [l2 [E2 F2]]. exists (l1 ++ l2). split.
  - rewrite E2, E1, app_assoc. reflexivity.
  - apply Forall_app. auto.
Qed.

Lemma extends_same P b b' :
  Viz.b_nodes b' = Viz.b_nodes b -> extends P b b'.
Proof. intros E. exists []. rewrite app_nil_r. auto. Qed.

Lemma extends_push P b n : P n -> extends P b (Viz.pushNode b n).
Proof. intros H. exists [n]. simpl. auto. Qed.

Lemma fold_extends {B} P (f : Viz.builder -> B -> Viz.builder) l :
  (forall b x, extends P b (f b x)) ->
  forall b, extends P b (fold_left f l b).
Proof.
  intros Hf. induction l as [|x l IH]; intros b; simpl.
  - apply extends_refl.
  - eapply extends_trans; [apply Hf | apply IH].
Qed.

Lemma fold_same_nodes {B} (f : Viz.builder -> B -> Viz.builder) l :
  (forall b x, Viz.b_nodes (f b x) = Viz.b_nodes b) ->
  forall b, Viz.b_nodes (fold_left f l b) = Viz.b_nodes b.
Proof.
  intros Hf. induction l as [|x l IH]; intros b; simpl; [reflexivity|].
  rewrite IH. apply Hf.
Qed.

(** Phase 1: one table node per parsed table, in order. *)
Lemma tables_phase ts b :
  exists l,
    Viz.b_nodes (fold_left Viz.addTable ts b) = Viz.b_nodes b ++ l /\
    map name l = ts /\ Forall is_table l /\
    Viz.columnNodeIdMap (fold_left Viz.addTable ts b) = Viz.columnNodeIdMap b.
Proof.
  revert b. induction ts as [|t ts IH]; intros b; simpl.
  - exists []. rewrite app_nil_r. auto.
  - destruct (IH (Viz.addTable b t)) as [l [E [N [F C]]]].
    exists (mkNode ("table_" +++ Js.of_nat (Viz.nodeIdCounter b)) t table None false :: l).
    rewrite E, C. unfold Viz.addTable; cbn [Viz.b_nodes Viz.setNodeMap Viz.pushNode Viz.columnNodeIdMap].
    rewrite <- app_assoc. cbn [app map name]. rewrite N.
    repeat split; auto. constructor; [|assumption]. repeat split.
Qed.

Lemma has_set {V} (m : Dict.t V) k v k' :
  Dict.has (Dict.set m k v) k' = String.eqb k k' || Dict.has m k'.
Proof.
  unfold Dict.has. rewrite get_set. destruct (String.eqb k k'); reflexivity.
Qed.

(** Phase 2: qualified column nodes in first-seen order. *)
Lemma qualified_phase qs : forall b seen,
  (forall k, Dict.has (Viz.columnNodeIdMap b) k = Js.arr_includes seen k) ->
  exists l,
    Viz.b_nodes (fold_left Viz.addQualifiedColumn qs b) = Viz.b_nodes b ++ l /\
    map originalQualifiedName l = map Some (firstSeen seen qs) /\
    Forall is_qualified_column l.
Proof.
  induction qs as [|q qs IH]; intros b seen Hseen; simpl.
  - exists []. rewrite app_nil_r. auto.
  - unfold Viz.addQualifiedColumn at 2. rewrite Hseen.
    destruct (Js.arr_includes seen (Js.toLowerCase q)) eqn:E.
    + apply IH, Hseen.
    + match goal with
      | |- context [Viz.pushNode b ?n] => set (n0 := n)
      end.
      destruct (IH (Viz.setColumnNodeId (Viz.pushNode b n0) (Js.toLowerCase q)
                      ("col_" +++ Js.of_nat (Viz.nodeIdCounter b)))
                   (Js.toLowerCase q :: seen)) as [l [El [Ol Fl]]].
      { intros k. cbn [Viz.columnNodeIdMap Viz.setColumnNodeId Viz.pushNode].
        rewrite has_set, Hseen. cbn [Js.arr_includes existsb].
        rewrite (String.eqb_sym k). reflexivity. }
      exists (n0 :: l). rewrite El.
      cbn [Viz.b_nodes Viz.setColumnNodeId Viz.pushNode].
      rewrite <- app_assoc. cbn [app map]. rewrite Ol.
      repeat split; auto. constructor; [|assumption].
      subst n0. repeat split. exists q. split; reflexivity.
Qed.

Lemma truthy_some o : Js.truthy o = true -> o = Some (Js.or_else o "").
Proof.
  destruct o as [s|]; simpl; [|discriminate].
  destruct (Js.is_empty s); [discriminate|reflexivity].
Qed.

Lemma extends_nodes P b b1 b2 :
  Viz.b_nodes b2 = Viz.b_nodes b1 -> extends P b b1 -> extends P b b2.
Proof. intros E [l [El Fl]]. exists l. rewrite E. auto. Qed.

Lemma extends_addOutputColumn P b b' k :
  extends P b b' -> extends P b (Viz.addOutputColumn b' k).
Proof. apply extends_nodes. reflexivity. Qed.

Lemma extends_addSelected P b b' k :
  extends P b b' -> extends P b (Viz.addSelected b' k).
Proof. apply extends_nodes. reflexivity. Qed.

Lemma extends_setResolvedAlias P b b' k v :
  extends P b b' -> extends P b (Viz.setResolvedAlias b' k v).
Proof. apply extends_nodes. reflexivity. Qed.

Lemma extends_setColumnNodeId P b b' k v :
  extends P b b' -> extends P b (Viz.setColumnNodeId b' k v).
Proof. apply extends_nodes. reflexivity. Qed.

Lemma extends_setAliasNodeId P b b' k v :
  extends P b b' -> extends P b (Viz.setAliasNodeId b' k v).
Proof. apply extends_nodes. reflexivity. Qed.

Lemma extends_pushEdge P b b' e :
  extends P b b' -> extends P b (Viz.pushEdge b' e).
Proof. apply extends_nodes. reflexivity. Qed.

Lemma extends_addSimpleColumn b x :
  inferred_name x -> extends is_simple_column b (Viz.addSimpleColumn b x).
Proof.
  intros Hx. unfold Viz.addSimpleColumn.
  destruct (Dict.has _ _); [apply extends_refl|].
  apply extends_setColumnNodeId, extends_push.
  repeat split; assumption.
Qed.

Lemma extends_addStarColumn b b' :
  extends is_simple_column b b' ->
  extends is_simple_column b (Viz.addStarColumn b').
Proof.
  intros H. unfold Viz.addStarColumn.
  destruct (Dict.has _ _); [assumption|].
  apply extends_setColumnNodeId.
  eapply extends_trans; [exact H|]. apply extends_push.
  repeat split. left. reflexivity.
Qed.

(** Phase 3: the SELECT list adds unqualified column nodes only. *)
Lemma extends_processSelectPart al b part :
  extends is_simple_column b (Viz.processSelectPart al b part).
Proof.
  unfold Viz.processSelectPart.
  destruct (Re.exec Pat.asAliasRe _) as [m|].
  - apply extends_addOutputColumn.
    destruct (Viz.refsOf _ al).
    + destruct (Js.truthy _) eqn:T; [|apply extends_refl].
      apply extends_addSelected, extends_addSimpleColumn.
      right. eexists. apply truthy_some, T.
    + apply extends_addSelected, extends_setResolvedAlias, extends_refl.
  - destruct (Viz.refsOf _ al).
    + destruct (Js.truthy _) eqn:T.
      * apply extends_addOutputColumn, extends_addSelected, extends_addSimpleColumn.
        right. eexists. apply truthy_some, T.
      * destruct (String.eqb _ _); [|apply extends_refl].
        apply extends_addStarColumn, extends_addOutputColumn, extends_refl.
    + apply extends_addOutputColumn, extends_addSelected, extends_refl.
Qed.

(** Phase 4: the output columns add alias nodes only. *)
Lemma extends_emitOutputColumn b o :
  extends is_alias_node b (Viz.emitOutputColumn b o).
Proof.
  unfold Viz.emitOutputColumn.
  destruct (_ && negb (Dict.has (Viz.aliasNodeIdMap b) o)).
  - apply extends_pushEdge, extends_setAliasNodeId, extends_push.
    repeat split.
  - destruct (_ && negb (Js.arr_includes _ o)).
    + destruct (Viz.getId _ o); [apply extends_pushEdge|]; apply extends_refl.
    + destruct (_ && Dict.has _ "*"); [|apply extends_refl].
      destruct (Dict.get _ "*"); [apply extends_pushEdge|]; apply extends_refl.
Qed.

(** The later phases add edges only. *)
Lemma nodes_emitProvides b entry :
  Viz.b_nodes (Viz.emitProvides b entry) = Viz.b_nodes b.
Proof.
  destruct entry as [tn cols]. unfold Viz.emitProvides.
  destruct (Viz.getId _ _) as [tid|]; [|reflexivity].
  apply fold_same_nodes. intros b' c.
  destruct (Viz.getId _ _); reflexivity.
Qed.

Lemma nodes_emitSelectedFlow b q :
  Viz.b_nodes (Viz.emitSelectedFlow b q) = Viz.b_nodes b.
Proof.
  unfold Viz.emitSelectedFlow.
  destruct (Viz.getId (Viz.columnNodeIdMap b) q); [|reflexivity].
  destruct (Js.truthy _).
  - destruct (Viz.getId _ _); reflexivity.
  - destruct (_ || _); [|reflexivity].
    destruct (Viz.linked _ _ _ _); reflexivity.
Qed.

Lemma nodes_emitJoin b cond : Viz.b_nodes (Viz.emitJoin b cond) = Viz.b_nodes b.
Proof.
  destruct cond as [l r]. unfold Viz.emitJoin.
  destruct (_ && _); [|reflexivity].
  destruct (Viz.getId _ (Js.toLowerCase l)); [|reflexivity].
  destruct (Viz.getId _ (Js.toLowerCase r)); reflexivity.
Qed.

Lemma nodes_emitWhere sql al b :
  Viz.b_nodes (Viz.emitWhere sql al b) = Viz.b_nodes b.
Proof.
  unfold Viz.emitWhere.
  destruct (Re.exec _ _); [|reflexivity].
  destruct (Js.truthy _); [|reflexivity].
  apply fold_same_nodes. intros b' q. unfold Viz.emitConstraint.
  destruct (Viz.getId _ _); reflexivity.
Qed.

Lemma nodes_emitModifies kw re sql b :
  Viz.b_nodes (Viz.emitModifies kw re sql b) = Viz.b_nodes b.
Proof.
  unfold Viz.emitModifies.
  destruct (Js.includes _ _); [|reflexivity].
  destruct (Re.exec _ _); [|reflexivity].
  destruct (Viz.getId _ _); reflexivity.
Qed.

(** The node list of every graph: the query node, the tables, the
    qualified columns, the unqualified columns, the aliases. *)
Lemma nodes_shape sql pr :
  exists ts qs us als,
    nodes (Viz.generateVisualizationData sql pr)
      = Viz.mainQueryNode :: ts ++ qs ++ us ++ als /\
    map name ts = Parser.tables pr /\ Forall is_table ts /\
    map originalQualifiedName qs
      = map Some (firstSeen [] (allQualifiedColumnNames sql)) /\
    Forall is_qualified_column qs /\
    Forall is_simple_column us /\
    Forall is_alias_node als.
Proof.
  unfold Viz.generateVisualizationData, allQualifiedColumnNames.
  destruct (Viz.extractTableColumnReferences sql _ _ _) as [tcr qsl].
  cbn [snd nodes].
  rewrite !nodes_emitModifies, nodes_emitWhere.
  rewrite (fold_same_nodes Viz.emitJoin) by apply nodes_emitJoin.
  rewrite (fold_same_nodes Viz.emitSelectedFlow) by apply nodes_emitSelectedFlow.
  rewrite (fold_same_nodes Viz.emitProvides) by apply nodes_emitProvides.
  destruct (tables_phase (Parser.tables pr) Viz.initial) as [ts [E1 [N1 [F1 C1]]]].
  set (b1 := fold_left Viz.addTable (Parser.tables pr) Viz.initial) in *.
  destruct (qualified_phase qsl b1 []) as [qs [E2 [O2 F2]]].
  { intros k. rewrite C1. reflexivity. }
  set (b2 := fold_left Viz.addQualifiedColumn qsl b1) in *.
  destruct (fold_extends is_simple_column
              (Viz.processSelectPart (Viz.extractTableAliases sql))
              (Viz.selectClauseParts sql)
              (extends_processSelectPart _) b2) as [us [E3 F3]].
  set (b3 := fold_left _ (Viz.selectClauseParts sql) b2) in *.
  destruct (fold_extends is_alias_node Viz.emitOutputColumn
              (Viz.outputColumns b3) extends_emitOutputColumn b3)
    as [als [E4 F4]].
  exists ts, qs, us, als.
  rewrite E4, E3, E2, E1. cbn [Viz.b_nodes Viz.initial].
  rewrite <- !app_assoc. cbn [app]. repeat split; assumption.
Qed.

(** ** Normalisation of the statement text *)

Lemma trimEnd_cons a s :
  Js.trimEnd (String a s) = String a s -> Js.trimEnd s = s.
Proof.
  simpl. destruct (Js.is_space a && Js.is_empty (Js.trimEnd s));
    [discriminate | intros [= E]; exact E].
Qed.

Lemma trimEnd_cons_space a s :
  Js.trimEnd (String a s) = String a s -> Js.is_space a = true ->
  s <> EmptyString.
Proof.
  simpl. intros H Ha Hs. subst s. rewrite Ha in H. simpl in H. discriminate.
Qed.

Lemma trimEnd_idem s : Js.trimEnd (Js.trimEnd s) = Js.trimEnd s.
Proof.
  induction s as [|a s IH]; simpl; [reflexivity|].
  destruct (Js.is_space a && Js.is_empty (Js.trimEnd s)) eqn:E; simpl.
  - reflexivity.
  - rewrite IH, E. reflexivity.
Qed.

Lemma trimStart_head s :
  match Js.trimStart s with
  | EmptyString => True
  | String a _ => Js.is_space a = false
  end.
Proof.
  induction s as [|a s IH]; simpl; [exact I|].
  destruct (Js.is_space a) eqn:E; [exact IH | exact E].
Qed.

Lemma trim_head s :
  match Js.trim s with
  | EmptyString => True
  | String a _ => Js.is_space a = false
  end.
Proof.
  unfold Js.trim. pose proof (trimStart_head s) as H.
  destruct (Js.trimStart s) as [|a t]; simpl; [exact I|].
  rewrite H. simpl. exact H.
Qed.

Lemma collapse_single_spaced s :
  Js.trimEnd s = s ->
  single_spaced false (Parser.collapse_ws false s) = true /\
  (s <> EmptyString -> single_spaced true (Parser.collapse_ws true s) = true).
Proof.
  induction s as [|a s IH]; intros H.
  - simpl. split; [reflexivity | intros C; contradiction C; reflexivity].
  - pose proof (trimEnd_cons _ _ H) as Hs.
    destruct (IH Hs) as [IH1 IH2]. simpl.
    destruct (Js.is_space a) eqn:Ea.
    + pose proof (trimEnd_cons_space _ _ H Ea) as Hne.
      split; [|intros _; apply IH2, Hne].
      simpl. rewrite (IH2 Hne). reflexivity.
    + simpl. rewrite Ea. split; [exact IH1 | intros _; exact IH1].
Qed.

Lemma normalize_normal_form s : normal_form (Parser.normalize s) = true.
Proof.
  unfold Parser.normalize, normal_form.
  pose proof (trim_head s) as Hh.
  assert (Ht : Js.trimEnd (Js.trim s) = Js.trim s) by apply trimEnd_idem.
  destruct (Js.trim s) as [|a t]; [reflexivity|].
  simpl. rewrite Hh. simpl. rewrite Hh.
  apply collapse_single_spaced. eapply trimEnd_cons. exact Ht.
Qed.

Lemma strip_collapse r s : strip_ws (Parser.collapse_ws r s) = strip_ws s.
Proof.
  revert r. induction s as [|a s IH]; intros r; simpl; [reflexivity|].
  destruct (Js.is_space a) eqn:E.
  - destruct r; simpl; rewrite ?IH; reflexivity.
  - simpl. rewrite E, IH. reflexivity.
Qed.

Lemma strip_trimStart s : strip_ws (Js.trimStart s) = strip_ws s.
Proof.
  induction s as [|a s IH]; simpl; [reflexivity|].
  destruct (Js.is_space a) eqn:E; [exact IH|]. simpl. rewrite E. reflexivity.
Qed.

Lemma strip_trimEnd s : strip_ws (Js.trimEnd s) = strip_ws s.
Proof.
  induction s as [|a s IH]; simpl; [reflexivity|].
  destruct (Js.is_space a) eqn:E; simpl.
  - destruct (Js.is_empty (Js.trimEnd s)) eqn:Et; simpl.
    + rewrite <- IH. destruct (Js.trimEnd s); [reflexivity|discriminate].
    + rewrite E. exact IH.
  - rewrite E, IH. reflexivity.
Qed.

Lemma strip_normalize s : strip_ws (Parser.normalize s) = strip_ws s.
Proof.
  unfold Parser.normalize, Js.trim.
  rewrite strip_collapse, strip_trimEnd, strip_trimStart. reflexivity.
Qed.

Example normalize_example :
  Parser.normalize "  SELECT   a.id
	FROM t  " = "SELECT a.id FROM t".
Proof. reflexivity. Qed.

(** ** Reserved words *)

Lemma upper_char_space a :
  Ascii.eqb (Js.upper_char a) " " = Ascii.eqb a " ".
Proof.
  destruct a as [[] [] [] [] [] [] [] []]; reflexivity.
Qed.

Lemma has_space_upper s : has_space (Js.toUpperCase s) = has_space s.
Proof.
  unfold Js.toUpperCase.
  induction s as [|a s IH]; simpl; [reflexivity|].
  rewrite upper_char_space, IH. reflexivity.
Qed.

Lemma has_space_app a b : has_space (a +++ b) = has_space a || has_space b.
Proof.
  induction a as [|c a IH]; simpl; [reflexivity|].
  rewrite IH. apply orb_assoc.
Qed.

Lemma keywords_no_space : forallb (fun k => negb (has_space k)) keywords = true.
Proof. vm_compute. reflexivity. Qed.

Lemma keyword_no_space x : isSQLKeyword x = true -> has_space x = false.
Proof.
  unfold isSQLKeyword, Js.arr_includes. intros H.
  apply existsb_exists in H. destruct H as [k [Hk E]].
  apply String.eqb_eq in E.
  pose proof keywords_no_space as F. rewrite forallb_forall in F.
  specialize (F k Hk). rewrite <- has_space_upper, E.
  destruct (has_space k); [discriminate|reflexivity].
Qed.

Lemma valid_not_keyword x :
  Parser.isValidColumnName x = true -> isSQLKeyword x = false.
Proof.
  unfold Parser.isValidColumnName. intros H.
  apply andb_true_iff in H. destruct H as [_ H].
  destruct (isSQLKeyword x); [discriminate|reflexivity].
Qed.

Lemma qualified_not_keyword n :
  is_qualified_column n -> isSQLKeyword (name n) = false.
Proof.
  intros [_ [_ [q [_ E]]]].
  destruct (isSQLKeyword (name n)) eqn:K; [|reflexivity].
  apply keyword_no_space in K. rewrite E, !has_space_app in K.
  simpl in K. rewrite orb_true_r in K. discriminate.
Qed.

(** ** Results about the graph of [generateVisualizationData] *)

Lemma has_id_in ns x : has_id ns x = true <-> In x (ids ns).
Proof.
  unfold has_id, ids. rewrite existsb_exists, in_map_iff. split.
  - intros [n [Hn E]]. apply String.eqb_eq in E. eauto.
  - intros [n [E Hn]]. exists n. split; [exact Hn|]. apply String.eqb_eq, E.
Qed.

Lemma filter_all {A} (f : A -> bool) l :
  (forall x, In x l -> f x = true) -> filter f l = l.
Proof.
  induction l as [|x l IH]; simpl; intros H; [reflexivity|].
  rewrite (H x) by auto. rewrite IH; auto.
Qed.

Lemma Forall_app4 {A} (P : A -> Prop) a b c d :
  Forall P a -> Forall P b -> Forall P c -> Forall P d ->
  Forall P (a ++ b ++ c ++ d).
Proof.
  intros Ha Hb Hc Hd. apply Forall_app. split; [exact Ha|].
  apply Forall_app. split; [exact Hb|].
  apply Forall_app. split; assumption.
Qed.

(** On non-blank input the page shows the graph of the trimmed text. *)
Lemma parseSQLAndVisualize_extract value :
  Js.is_empty (Js.trim value) = false ->
  Viz.parseSQLAndVisualize value = Some (Viz.extract (Js.trim value)).
Proof.
  intros H. unfold Viz.parseSQLAndVisualize, Viz.extract. rewrite H. reflexivity.
Qed.

(** C1. For every statement text and every parse result, each edge of the
    graph returned by [generateVisualizationData] has a source and a
    target that are ids of nodes of that graph, so the edge filter of
    [visualizeData] drops nothing from it; and for any graph data
    whatsoever that filter keeps only edges whose two ends are node ids,
    so an edge with a missing end is never drawn. *)
Theorem edges_reference_existing_nodes :
  forall (sql : string) (pr : Parser.parse_result),
    let g := Viz.generateVisualizationData sql pr in
    Forall (fun e => In (source e) (ids (nodes g)) /\
                     In (target e) (ids (nodes g))) (edges g)
    /\ Viz.validEdges g = edges g
    /\ (forall data : graph,
          Forall (fun e => In e (edges data) /\
                           In (source e) (ids (nodes data)) /\
                           In (target e) (ids (nodes data)))
                 (Viz.validEdges data)).
Proof.
  intros sql pr g. pose proof (generate_closed sql pr) as C. fold g in C.
  split; [|split].
  - apply Forall_forall. exact C.
  - unfold Viz.validEdges. apply filter_all. intros e He.
    destruct (C e He) as [Hs Ht].
    apply has_id_in in Hs. apply has_id_in in Ht. rewrite Hs, Ht. reflexivity.
  - intros data. apply Forall_forall. intros e He.
    unfold Viz.validEdges in He. apply filter_In in He.
    destruct He as [He Hb]. apply andb_true_iff in Hb.
    destruct Hb as [Hs Ht]. rewrite has_id_in in Hs, Ht. auto.
Qed.

(** C2. For [SELECT a.id FROM orders a] the graph has the query node, one
    table node named [orders] (none named [a]), one column node for [id]
    qualified to [orders], one provides edge from the table node to the
    column node and one flows_to edge from the column node to the query
    node, and nothing else. *)
Theorem alias_resolves_to_table :
  Viz.extract "SELECT a.id FROM orders a" =
  mkGraph
    [ mkNode "query_main" "Main Query" query None false;
      mkNode "table_0" "orders" table None false;
      mkNode "col_1" "orders > id" column (Some "orders.id") false ]
    [ mkEdge "table_0" "col_1" provides None;
      mkEdge "col_1" "query_main" flows_to None ].
Proof. vm_compute. reflexivity. Qed.

(** C3 (the code departs from the claim). For
    [SELECT a.x FROM a JOIN b ON a.x = b.y] both column nodes exist, yet
    no uses edge is emitted: the ON clause that ends the statement is not
    recognised, because the pattern of [extractJoinConditions] asks for
    white space before the end of the text. *)
Theorem join_condition_at_end_is_missed :
  let g := Viz.extract "SELECT a.x FROM a JOIN b ON a.x = b.y" in
  map name (nodes_of column g) = ["a > x"; "b > y"] /\
  Viz.extractJoinConditions "SELECT a.x FROM a JOIN b ON a.x = b.y"
    (Viz.extractTableAliases "SELECT a.x FROM a JOIN b ON a.x = b.y") = [] /\
  edges_of uses g = [].
Proof. vm_compute. auto. Qed.

(** The same join followed by a WHERE clause yields the two uses edges. *)
Lemma join_condition_before_where :
  edges_of uses
    (Viz.extract "SELECT a.x FROM a JOIN b ON a.x = b.y WHERE a.x > 1") =
  [ mkEdge "col_2" "col_3" uses (Some "on_join");
    mkEdge "col_3" "col_2" uses (Some "on_join") ].
Proof. vm_compute. reflexivity. Qed.

(** C4, as stated, fails: the graph of [SELECT * FROM t] has no provides
    edge at all. *)
Lemma star_has_no_provides_edge :
  ~ exists e, In e (edges (Viz.extract "SELECT * FROM t")) /\ etype e = provides.
Proof.
  intros [e [He Ht]]. vm_compute in He.
  destruct He as [<-|[]]. discriminate Ht.
Qed.

(** C4, amended. For [SELECT * FROM t] the graph has exactly one column
    node, named [*], and a flows_to edge from it to the query node; it has
    the table node [t] and no other column node, and no provides edge. *)
Theorem select_star_graph :
  Viz.extract "SELECT * FROM t" =
  mkGraph
    [ mkNode "query_main" "Main Query" query None false;
      mkNode "table_0" "t" table None false;
      mkNode "col_1" "*" column (Some "*") false ]
    [ mkEdge "col_1" "query_main" flows_to None ].
Proof. vm_compute. reflexivity. Qed.

(** C5 (the code departs from the claim). For
    [UPDATE users SET name = 'x' WHERE id = 1] and for
    [INSERT INTO users (id) VALUES (1)] no modifies edge is emitted: the
    target table gets no node, since table nodes come from FROM and JOIN
    only, and the edge is skipped when the lookup of the target fails. *)
Theorem update_and_insert_emit_no_modifies :
  Viz.extract "UPDATE users SET name = 'x' WHERE id = 1" =
    mkGraph [mkNode "query_main" "Main Query" query None false] [] /\
  Viz.extract "INSERT INTO users (id) VALUES (1)" =
    mkGraph [mkNode "query_main" "Main Query" query None false] [].
Proof. vm_compute. auto. Qed.

(** The edge is there when the target also follows a FROM. *)
Lemma update_with_from_emits_modifies :
  edges_of modifies (Viz.extract "UPDATE t SET x = 1 FROM t") =
  [ mkEdge "query_main" "table_0" modifies None ].
Proof. vm_compute. reflexivity. Qed.

(** C6, as stated, fails: the text after [--] is kept by the normalisation
    and contributes the table [users]. *)
Lemma comment_text_contributes_a_table :
  Parser.cleanQuery (Parser.parseSQL "SELECT a.id FROM orders a -- JOIN users")
    = "SELECT a.id FROM orders a -- JOIN users" /\
  Parser.tables (Parser.parseSQL "SELECT a.id FROM orders a -- JOIN users")
    = ["orders"; "users"] /\
  Parser.tables (Parser.parseSQL "SELECT a.id FROM orders a") = ["orders"] /\
  map name (nodes_of table (Viz.extract "SELECT a.id FROM orders a -- JOIN users"))
    = ["orders"; "users"].
Proof. vm_compute. auto. Qed.

(** The words of a text are not touched by trimming. *)
Lemma wordsOf_trimStart s : wordsOf (Js.trimStart s) = wordsOf s.
Proof.
  induction s as [|a s IH]; [reflexivity|]. cbn [Js.trimStart].
  destruct (Js.is_space a) eqn:E; [|reflexivity].
  rewrite IH. cbn [wordsOf]. rewrite E. reflexivity.
Qed.

Lemma starts_trimEnd s :
  Js.trimEnd s = EmptyString \/
  starts_with_space (Js.trimEnd s) = starts_with_space s.
Proof.
  destruct s as [|a s]; [left; reflexivity|]. cbn [Js.trimEnd].
  destruct (Js.is_space a && Js.is_empty (Js.trimEnd s)); [left|right];
    reflexivity.
Qed.

Lemma wordsOf_trimEnd s : wordsOf (Js.trimEnd s) = wordsOf s.
Proof.
  induction s as [|a s IH]; [reflexivity|]. cbn [Js.trimEnd].
  destruct (Js.is_space a) eqn:E; cbn [andb].
  - destruct (Js.is_empty (Js.trimEnd s)) eqn:T.
    + cbn [wordsOf]. rewrite E, <- IH.
      destruct (Js.trimEnd s); [reflexivity|discriminate].
    + cbn [wordsOf]. rewrite E. exact IH.
  - cbn [wordsOf]. rewrite E, IH.
    destruct (wordsOf s) as [|w ws] eqn:W; [reflexivity|].
    destruct (starts_trimEnd s) as [H|H]; [|rewrite H; reflexivity].
    rewrite H in IH. cbn [wordsOf] in IH. congruence.
Qed.

Lemma words_nonempty t :
  Js.trimEnd t = t -> t <> EmptyString -> wordsOf t <> [].
Proof.
  induction t as [|a t IH]; intros H Hne; [contradiction Hne; reflexivity|].
  cbn [wordsOf]. destruct (Js.is_space a) eqn:E.
  - apply IH; [eapply trimEnd_cons, H | eapply trimEnd_cons_space; eassumption].
  - destruct (wordsOf t); [discriminate|].
    destruct (starts_with_space t); discriminate.
Qed.

Lemma unwords_cons a w ws :
  String a (unwords (w :: ws)) = unwords (String a w :: ws).
Proof. destruct ws; reflexivity. Qed.

(** Collapsing the white space of a text that does not end in white space
    joins its words by single spaces. *)
Lemma collapse_unwords t :
  Js.trimEnd t = t ->
  Parser.collapse_ws true t = unwords (wordsOf t) /\
  Parser.collapse_ws false t
  = (if starts_with_space t then String " " EmptyString else EmptyString)
    +++ unwords (wordsOf t).
Proof.
  induction t as [|a t IH]; intros H; [split; reflexivity|].
  pose proof (trimEnd_cons _ _ H) as Ht. destruct (IH Ht) as [IH1 IH2].
  cbn [Parser.collapse_ws wordsOf starts_with_space].
  destruct (Js.is_space a) eqn:E.
  - split; [exact IH1|]. rewrite IH1. reflexivity.
  - rewrite IH2. cbn [String.append]. 
    assert (G : String a ((if starts_with_space t
                           then String " " EmptyString else EmptyString)
                          +++ unwords (wordsOf t))
                = unwords match wordsOf t with
                          | w :: ws =>
                              if starts_with_space t
                              then String a EmptyString :: w :: ws
                              else String a w :: ws
                          | [] => [String a EmptyString]
                          end).
    { destruct (wordsOf t) as [|w ws] eqn:W.
      - destruct t as [|b t]; [reflexivity|].
        exfalso. apply (words_nonempty (String b t) Ht); [discriminate|exact W].
      - destruct (starts_with_space t); cbn [String.append].
        + reflexivity.
        + apply unwords_cons. }
    split; exact G.
Qed.

Lemma normalize_unwords s : Parser.normalize s = unwords (wordsOf s).
Proof.
  unfold Parser.normalize.
  destruct (collapse_unwords (Js.trim s) (trimEnd_idem _)) as [_ H].
  rewrite H. pose proof (trim_head s) as Hh.
  replace (starts_with_space (Js.trim s)) with false
    by (destruct (Js.trim s); [reflexivity | symmetry; exact Hh]).
  cbn [String.append]. unfold Js.trim.
  rewrite wordsOf_trimEnd, wordsOf_trimStart. reflexivity.
Qed.

(** What [wordsOf] does with a run of white space and with a word: the two
    equations fix it on every text. *)
Lemma wordsOf_gap g s : all_in Re.Space g = true -> wordsOf (g +++ s) = wordsOf s.
Proof.
  induction g as [|a g IH]; intros H; [reflexivity|].
  cbn [all_in Re.cmatch] in H. apply andb_true_iff in H. destruct H as [Ha Hg].
  cbn [String.append wordsOf]. rewrite Ha. apply IH, Hg.
Qed.

Lemma wordsOf_word w s :
  is_word w = true ->
  s = EmptyString \/ starts_with_space s = true ->
  wordsOf (w +++ s) = w :: wordsOf s.
Proof.
  unfold is_word. intros H Hs. apply andb_true_iff in H. destruct H as [Hn Hw].
  apply String.eqb_eq in Hw.
  induction w as [|a w IH]; [discriminate|].
  cbn [strip_ws] in Hw. destruct (Js.is_space a) eqn:E.
  - exfalso. apply (f_equal String.length) in Hw.
    assert (L : forall x, String.length (strip_ws x) <= String.length x).
    { induction x as [|c x IHx]; simpl; [lia|].
      destruct (Js.is_space c); simpl; lia. }
    specialize (L w). simpl in Hw. lia.
  - injection Hw as Hw. cbn [String.append wordsOf]. rewrite E.
    destruct w as [|b w].
    + cbn [String.append].
      destruct Hs as [->|Hs]; [reflexivity|].
      destruct (wordsOf s); [reflexivity|]. rewrite Hs. reflexivity.
    + rewrite (IH eq_refl Hw).
      cbn [String.append starts_with_space].
      cbn [strip_ws] in Hw. destruct (Js.is_space b); [|reflexivity].
      exfalso. apply (f_equal String.length) in Hw.
      assert (L : forall x, String.length (strip_ws x) <= String.length x).
      { induction x as [|c x IHx]; simpl; [lia|].
        destruct (Js.is_space c); simpl; lia. }
      specialize (L w). simpl in Hw. lia.
Qed.

(** The words of a text and its normal form, on an example. *)
Example words_of_a_text :
  wordsOf "  SELECT   a ,b
 FROM t  " = ["SELECT"; "a"; ",b"; "FROM"; "t"] /\
  Parser.normalize "  SELECT   a ,b
 FROM t  " = "SELECT a ,b FROM t".
Proof. split; reflexivity. Qed.

(** C6, amended. Before clause segmentation [parseSQL] trims the text and
    collapses every run of white space to one space: the normalised text
    is the words of the input, its maximal runs of characters other than
    white space, joined by single spaces.  So it has no white space other
    than single inner spaces, and nothing else is removed: the characters
    that are not white space, those of a [--] comment included, are all
    kept, in order. *)
Theorem normalization_collapses_white_space_only :
  forall sql : string,
    Parser.cleanQuery (Parser.parseSQL sql) = unwords (wordsOf sql) /\
    normal_form (Parser.cleanQuery (Parser.parseSQL sql)) = true /\
    strip_ws (Parser.cleanQuery (Parser.parseSQL sql)) = strip_ws sql.
Proof.
  intros sql. cbn [Parser.parseSQL Parser.cleanQuery].
  split; [apply normalize_unwords|].
  split; [apply normalize_normal_form | apply strip_normalize].
Qed.

(** C8, as stated, fails: an alias named [count] and a table named [date]
    both get a node. *)
Lemma keyword_named_nodes_exist :
  (exists n, In n (nodes (Viz.extract "SELECT COUNT(o.id) AS count FROM orders o"))
             /\ isAlias n = true /\ name n = "count"
             /\ isSQLKeyword (name n) = true) /\
  (exists n, In n (nodes (Viz.extract "SELECT d.year FROM date d"))
             /\ type n = table /\ name n = "date"
             /\ isSQLKeyword (name n) = true).
Proof.
  split.
  - exists (mkNode "alias_2" "count" column None true).
    vm_compute. intuition.
  - exists (mkNode "table_0" "date" table None false).
    vm_compute. intuition.
Qed.


Lemma no_query_among (l : list node) :
  Forall (fun n => type n <> query) l ->
  filter (fun n => node_type_eqb (type n) query) l = [].
Proof.
  induction 1 as [|n l Hn _ IH]; simpl; [reflexivity|].
  destruct (type n); simpl; [contradiction Hn; reflexivity| exact IH | exact IH].
Qed.

(** C10. For every input text and parse result, the graph returned by
    [generateVisualizationData] has exactly one node of kind query, with
    id [query_main] and name [Main Query]; it is there whether or not any
    table or column is found. *)
Theorem exactly_one_query_node :
  forall (sql : string) (pr : Parser.parse_result),
    nodes_of query (Viz.generateVisualizationData sql pr)
      = [mkNode "query_main" "Main Query" query None false].
Proof.
  intros sql pr.
  destruct (nodes_shape sql pr) as [ts [qs [us [als [E [_ [Ft [_ [Fq [Fu Fa]]]]]]]]]].
  unfold nodes_of. rewrite E. cbn [filter Viz.mainQueryNode type node_type_eqb].
  f_equal. apply no_query_among.
  apply Forall_app4;
    (eapply Forall_impl; [|eassumption]); intros n H;
    destruct H as [T _]; rewrite T; discriminate.
Qed.

(** ** Soundness of the matcher

    What a successful match consumed is a text of the pattern, and only
    the groups of the pattern are (re)bound. *)

Lemma append_assoc_str a b c : (a +++ b) +++ c = a +++ (b +++ c).
Proof. induction a as [|x a IH]; simpl; [reflexivity|]. rewrite IH. reflexivity. Qed.

Lemma append_length_str a b :
  String.length (a +++ b) = String.length a + String.length b.
Proof. induction a as [|x a IH]; simpl; [reflexivity|]. rewrite IH. reflexivity. Qed.

Lemma append_nil_r s : s +++ EmptyString = s.
Proof. induction s as [|x s IH]; simpl; [reflexivity|]. rewrite IH. reflexivity. Qed.

Lemma substring_prefix w s : String.substring 0 (String.length w) (w +++ s) = w.
Proof.
  induction w as [|x w IH]; simpl.
  - destruct s; reflexivity.
  - rewrite IH. reflexivity.
Qed.

Lemma star_greedy_sound {A} c (k : Re.cont A) s : forall pos cs x,
  Re.star_greedy c k pos s cs = Some x ->
  exists w s', s = w +++ s' /\ all_in c w = true /\
               k (pos + String.length w) s' cs = Some x.
Proof.
  induction s as [|a s IH]; intros pos cs x; simpl.
  - intros H. exists EmptyString, EmptyString. rewrite Nat.add_0_r. auto.
  - destruct (Re.cmatch c a) eqn:Ea.
    + destruct (Re.star_greedy c k (S pos) s cs) as [r|] eqn:E.
      * intros [= <-]. destruct (IH _ _ _ E) as [w [s' [Hs [Hw Hk]]]].
        exists (String a w), s'. simpl. rewrite Ea, Hw, Hs.
        rewrite Nat.add_succ_r. auto.
      * intros H. exists EmptyString, (String a s). rewrite Nat.add_0_r. auto.
    + intros H. exists EmptyString, (String a s). rewrite Nat.add_0_r. auto.
Qed.

Lemma star_lazy_sound {A} c (k : Re.cont A) s : forall pos cs x,
  Re.star_lazy c k pos s cs = Some x ->
  exists w s', s = w +++ s' /\ all_in c w = true /\
               k (pos + String.length w) s' cs = Some x.
Proof.
  induction s as [|a s IH]; intros pos cs x; simpl.
  - destruct (k pos EmptyString cs) as [r|] eqn:E; [|discriminate].
    intros [= <-]. exists EmptyString, EmptyString. rewrite Nat.add_0_r. auto.
  - destruct (k pos (String a s) cs) as [r|] eqn:E.
    + intros [= <-]. exists EmptyString, (String a s).
      rewrite Nat.add_0_r. auto.
    + destruct (Re.cmatch c a) eqn:Ea; [|discriminate].
      intros H. destruct (IH _ _ _ H) as [w [s' [Hs [Hw Hk]]]].
      exists (String a w), s'. simpl. rewrite Ea, Hw, Hs.
      rewrite Nat.add_succ_r. auto.
Qed.

Lemma rmatch_sound r : forall A (k : Re.cont A) pos s cs x,
  Re.rmatch r k pos s cs = Some x ->
  exists w s' cs',
    s = w +++ s' /\ lang r w /\
    (forall n, binds r n = false -> Re.group cs' n = Re.group cs n) /\
    k (pos + String.length w) s' cs' = Some x.
Proof.
  induction r as [|c|r1 IH1 r2 IH2|r1 IH1 r2 IH2|c|c|r1 IH1|g r1 IH1|r1 IH1| |];
    intros A k pos s cs x; cbn [Re.rmatch lang binds].
  - intros H. exists EmptyString, s, cs. rewrite Nat.add_0_r. auto.
  - destruct s as [|a s]; [discriminate|].
    destruct (Re.cmatch c a) eqn:Ea; [|discriminate].
    intros H. exists (String a EmptyString), s, cs. simpl.
    rewrite Nat.add_1_r. eauto 6.
  - intros H. destruct (IH1 _ _ _ _ _ _ H) as [w1 [s1 [cs1 [E1 [L1 [F1 H1]]]]]].
    destruct (IH2 _ _ _ _ _ _ H1) as [w2 [s2 [cs2 [E2 [L2 [F2 H2]]]]]].
    exists (w1 +++ w2), s2, cs2. split; [|split; [|split]].
    + rewrite append_assoc_str, <- E2. exact E1.
    + eauto.
    + intros n Hn. apply orb_false_iff in Hn. destruct Hn as [N1 N2].
      rewrite (F2 n N2). apply F1, N1.
    + rewrite append_length_str, Nat.add_assoc. exact H2.
  - destruct (Re.rmatch r1 k pos s cs) as [r|] eqn:E.
    + intros [= <-]. destruct (IH1 _ _ _ _ _ _ E) as [w [s' [cs' [E1 [L1 [F1 H1]]]]]].
      exists w, s', cs'. split; [|split; [|split]]; auto.
      intros n Hn. apply orb_false_iff in Hn. apply F1, Hn.
    + intros H. destruct (IH2 _ _ _ _ _ _ H) as [w [s' [cs' [E1 [L1 [F1 H1]]]]]].
      exists w, s', cs'. split; [|split; [|split]]; auto.
      intros n Hn. apply orb_false_iff in Hn. apply F1, Hn.
  - intros H. destruct (star_greedy_sound _ _ _ _ _ _ H) as [w [s' [E [L K]]]].
    exists w, s', cs. auto.
  - intros H. destruct (star_lazy_sound _ _ _ _ _ _ H) as [w [s' [E [L K]]]].
    exists w, s', cs. auto.
  - destruct (Re.rmatch r1 k pos s cs) as [r|] eqn:E.
    + intros [= <-]. destruct (IH1 _ _ _ _ _ _ E) as [w [s' [cs' [E1 [L1 [F1 H1]]]]]].
      exists w, s', cs'. auto.
    + intros H. exists EmptyString, s, cs. rewrite Nat.add_0_r. auto.
  - intros H. destruct (IH1 _ _ _ _ _ _ H) as [w [s' [cs' [E1 [L1 [F1 H1]]]]]].
    eexists w, s', _.
    split; [exact E1 | split; [exact L1 | split; [| exact H1]]].
    intros n Hn. apply orb_false_iff in Hn. destruct Hn as [N1 N2].
    cbn [Re.group]. rewrite N1. apply F1, N2.
  - destruct (Re.rmatch r1 _ pos s cs) as [cs1|] eqn:E; [|discriminate].
    intros H. destruct (IH1 _ _ _ _ _ _ E) as [w [s' [cs' [E1 [L1 [F1 H1]]]]]].
    injection H1 as <-.
    exists EmptyString, s, cs'. rewrite Nat.add_0_r. auto.
  - destruct (Nat.eqb pos 0); [|discriminate].
    intros H. exists EmptyString, s, cs. rewrite Nat.add_0_r. auto.
  - destruct s; [|discriminate].
    intros H. exists EmptyString, EmptyString, cs. rewrite Nat.add_0_r. auto.
Qed.

(** Group 1 of a match of [P \s+ (T) R], where [R] has no group 1, is a
    text of [T]. *)
Lemma capture_is_text P T R pos s m :
  binds R 1 = false ->
  Re.at_pos (Re.Seq P (Re.Seq Re.ws1 (Re.Seq (Re.Grp 1 T) R))) pos s = Some m ->
  lang T (Pat.cap m 1).
Proof.
  intros HR. unfold Re.at_pos. cbn [Re.rmatch]. intros H.
  apply rmatch_sound in H. destruct H as [w0 [s0 [cs0 [_ [_ [_ H]]]]]].
  apply rmatch_sound in H. destruct H as [w1 [s1 [cs1 [_ [_ [_ H]]]]]].
  apply rmatch_sound in H. destruct H as [w2 [s2 [cs2 [E2 [L2 [_ H]]]]]].
  apply rmatch_sound in H. destruct H as [w3 [s3 [cs3 [_ [_ [F3 H]]]]]].
  injection H as <-. unfold Pat.cap. cbn [Re.groups].
  rewrite (F3 1 HR). cbn [Re.group Nat.eqb].
  rewrite E2. 
  replace (pos + String.length w0 + String.length w1 + String.length w2
           - (pos + String.length w0 + String.length w1))
    with (String.length w2) by lia.
  rewrite substring_prefix. exact L2.
Qed.

Lemma search_at r s : forall pos m,
  Re.search r pos s = Some m -> exists pos' s', Re.at_pos r pos' s' = Some m.
Proof.
  induction s as [|a s IH]; intros pos m; cbn [Re.search].
  - destruct (Re.at_pos r pos EmptyString) eqn:E; [|discriminate].
    intros [= <-]. eauto.
  - destruct (Re.at_pos r pos (String a s)) eqn:E.
    + intros [= <-]. eauto.
    + apply IH.
Qed.

Lemma exec_loop_at r fuel : forall pos s,
  Forall (fun m => exists pos' s', Re.at_pos r pos' s' = Some m)
         (Re.exec_loop r fuel pos s).
Proof.
  induction fuel as [|fuel IH]; intros pos s; cbn [Re.exec_loop]; [constructor|].
  destruct (Re.search r pos s) as [m|] eqn:E; [|constructor].
  constructor; [eapply search_at, E | apply IH].
Qed.

(** ** The loops over global patterns stay within their fuel *)

Lemma lang_min_len r : forall w, lang r w -> min_len r <= String.length w.
Proof.
  induction r as [|c|r1 IH1 r2 IH2|r1 IH1 r2 IH2|c|c|r1 IH1|g r1 IH1|r1 IH1| |];
    intros w; cbn [lang min_len]; try (intros; lia).
  - intros [a [-> _]]. simpl. lia.
  - intros [w1 [w2 [-> [L1 L2]]]]. rewrite append_length_str.
    specialize (IH1 _ L1). specialize (IH2 _ L2). lia.
  - intros [L|L]; [specialize (IH1 _ L) | specialize (IH2 _ L)]; lia.
  - apply IH1.
Qed.

Lemma at_pos_consumes r pos s m :
  Re.at_pos r pos s = Some m ->
  String.length (Re.after m) + min_len r <= String.length s.
Proof.
  unfold Re.at_pos. intros H. apply rmatch_sound in H.
  destruct H as [w [s' [cs' [-> [L [_ H]]]]]]. injection H as <-.
  cbn [Re.after]. rewrite append_length_str.
  pose proof (lang_min_len _ _ L). lia.
Qed.

Lemma search_consumes r s : forall pos m,
  Re.search r pos s = Some m ->
  String.length (Re.after m) + min_len r <= String.length s.
Proof.
  induction s as [|a s IH]; intros pos m; cbn [Re.search].
  - destruct (Re.at_pos r pos EmptyString) eqn:E; [|discriminate].
    intros [= <-]. apply (at_pos_consumes _ _ _ _ E).
  - destruct (Re.at_pos r pos (String a s)) eqn:E.
    + intros [= <-]. apply (at_pos_consumes _ _ _ _ E).
    + intros H. specialize (IH _ _ H). simpl. lia.
Qed.

(** With a pattern that consumes at least one character, any fuel above
    the length of the text gives the same list of matches. *)
Lemma exec_loop_fuel r :
  0 < min_len r ->
  forall fuel fuel' pos s,
    String.length s < fuel -> String.length s < fuel' ->
    Re.exec_loop r fuel pos s = Re.exec_loop r fuel' pos s.
Proof.
  intros Hr. induction fuel as [|fuel IH]; intros fuel' pos s H H'; [lia|].
  destruct fuel' as [|fuel']; [lia|]. cbn [Re.exec_loop].
  destruct (Re.search r pos s) as [m|] eqn:E; [|reflexivity].
  pose proof (search_consumes _ _ _ _ E). f_equal. apply IH; lia.
Qed.

Lemma exec_all_fuel r s extra :
  0 < min_len r ->
  Re.exec_loop r (S (String.length s) + extra) 0 s = Re.exec_all r s.
Proof. intros Hr. apply exec_loop_fuel; [exact Hr | lia | lia]. Qed.

(** Every pattern that the scripts run in a loop consumes a character. *)
Lemma global_patterns_consume :
  Forall (fun r => 0 < min_len r)
    [ Pat.joinRe; Pat.joinAliasRe; Pat.tableColumnRe; Pat.joinOnRe;
      Pat.joinCondRe; Sample.joinOnRe ].
Proof. repeat constructor. Qed.

(** ** Texts without a dot *)

Lemma includes_suffix t s n :
  suffix t s -> String.prefix n t = true -> Js.includes s n = true.
Proof.
  intros [pre ->] Hp. induction pre as [|a pre IH].
  - cbn [String.append]. destruct t; cbn [Js.includes]; rewrite Hp; reflexivity.
  - cbn [String.append Js.includes]. rewrite IH. apply orb_true_r.
Qed.

(** A text without a dot holds no [table.column] reference. *)
Lemma tableColumn_needs_dot pos s :
  Js.includes s "." = false -> Re.at_pos Pat.tableColumnRe pos s = None.
Proof.
  intros Hd. destruct (Re.at_pos Pat.tableColumnRe pos s) as [m|] eqn:E;
    [|reflexivity].
  exfalso. unfold Re.at_pos, Pat.tableColumnRe, Re.seq in E.
  cbn [fold_right] in E. cbn [Re.rmatch] in E.
  apply rmatch_sound in E. destruct E as [w1 [s1 [cs1 [E1 [_ [_ E]]]]]].
  apply star_greedy_sound in E. destruct E as [w2 [s2 [E2 [_ E]]]].
  unfold Pat.dot in E. cbn [Re.rmatch] in E.
  destruct s2 as [|a s2]; [discriminate|].
  destruct (Re.cmatch (Re.Lit ".") a) eqn:Ea; [|discriminate].
  simpl in Ea. apply Ascii.eqb_eq in Ea. subst a.
  assert (H : Js.includes s "." = true).
  { apply (includes_suffix (String "." s2)).
    - exists (w1 +++ w2). rewrite E1, E2. symmetry. apply append_assoc_str.
    - cbn [String.prefix]. destruct (ascii_dec "." "."); [|congruence].
      destruct s2; reflexivity. }
  rewrite H in Hd. discriminate.
Qed.

Lemma includes_tail a s n :
  Js.includes (String a s) n = false -> Js.includes s n = false.
Proof.
  simpl. intros H. apply orb_false_iff in H. apply H.
Qed.

Lemma search_tableColumn_none s : forall pos,
  Js.includes s "." = false -> Re.search Pat.tableColumnRe pos s = None.
Proof.
  induction s as [|a s IH]; intros pos Hd.
  - cbn [Re.search]. rewrite tableColumn_needs_dot by exact Hd. reflexivity.
  - cbn [Re.search]. rewrite tableColumn_needs_dot by exact Hd.
    apply IH. eapply includes_tail, Hd.
Qed.

Lemma exec_all_tableColumn_none s :
  Js.includes s "." = false -> Re.exec_all Pat.tableColumnRe s = [].
Proof.
  intros Hd. unfold Re.exec_all. cbn [Re.exec_loop].
  rewrite search_tableColumn_none by exact Hd. reflexivity.
Qed.

(** ** Identifiers *)

Lemma star_greedy_to_end {A} c (K : Re.cont A) :
  (forall p a t cs, K p (String a t) cs = None) ->
  forall s pos cs,
    Re.star_greedy c K pos s cs =
    if all_in c s then K (pos + String.length s) EmptyString cs else None.
Proof.
  intros HK. induction s as [|a s IH]; intros pos cs; simpl.
  - rewrite Nat.add_0_r. reflexivity.
  - destruct (Re.cmatch c a); simpl; [|apply HK].
    rewrite IH. destruct (all_in c s).
    + rewrite Nat.add_succ_r. simpl.
      destruct (K (S (pos + String.length s)) EmptyString cs); [reflexivity|].
      apply HK.
    + apply HK.
Qed.

Lemma search_bol_later r s : forall p,
  Re.search (Re.Seq Re.Bol r) (S p) s = None.
Proof.
  induction s as [|a s IH]; intros p; cbn [Re.search]; unfold Re.at_pos;
    cbn [Re.rmatch Nat.eqb]; [reflexivity | apply IH].
Qed.

Lemma substring_all s : String.substring 0 (String.length s) s = s.
Proof. induction s as [|a s IH]; simpl; [reflexivity|]. rewrite IH. reflexivity. Qed.

Lemma test_identRe s : Re.test Pat.identRe s = is_ident s.
Proof.
  unfold Re.test, Re.exec, Pat.identRe, Re.seq. cbn [fold_right].
  destruct s as [|a s].
  - reflexivity.
  - cbn [Re.search]. rewrite search_bol_later.
    unfold Re.at_pos, Re.ident. cbn [Re.rmatch Nat.eqb is_ident].
    destruct (Re.cmatch Re.IdStart a); [|reflexivity].
    rewrite star_greedy_to_end by reflexivity.
    destruct (all_in Re.IdChar s); reflexivity.
Qed.

Lemma exec_simpleColumnRe s :
  is_ident s = true ->
  exists m, Re.exec Sample.simpleColumnRe s = Some m /\ Pat.cap m 1 = s.
Proof.
  unfold Re.exec, Sample.simpleColumnRe, Re.seq. cbn [fold_right].
  destruct s as [|a s]; [discriminate|].
  cbn [is_ident Re.search]. intros H. apply andb_true_iff in H.
  destruct H as [Ha Hs].
  unfold Re.at_pos, Re.ident. cbn [Re.rmatch Nat.eqb]. rewrite Ha.
  rewrite star_greedy_to_end by reflexivity. rewrite Hs.
  eexists. split; [reflexivity|].
  unfold Pat.cap. cbn [Re.groups Re.group Nat.eqb].
  rewrite Nat.sub_0_r. apply (substring_all (String a s)).
Qed.

Lemma idchar_not_space a : Re.cmatch Re.IdChar a = true -> Ascii.eqb a " " = false.
Proof.
  destruct a as [[] [] [] [] [] [] [] []]; vm_compute; congruence.
Qed.

Lemma idstart_not_space a : Re.cmatch Re.IdStart a = true -> Ascii.eqb a " " = false.
Proof.
  destruct a as [[] [] [] [] [] [] [] []]; vm_compute; congruence.
Qed.

Lemma all_idchar_no_space s : all_in Re.IdChar s = true -> has_space s = false.
Proof.
  induction s as [|a s IH]; simpl; [reflexivity|].
  intros H. apply andb_true_iff in H. destruct H as [Ha Hs].
  rewrite (idchar_not_space _ Ha), (IH Hs). reflexivity.
Qed.

Lemma ident_no_space s : is_ident s = true -> has_space s = false.
Proof.
  destruct s as [|a s]; simpl; [reflexivity|].
  intros H. apply andb_true_iff in H. destruct H as [Ha Hs].
  rewrite (idstart_not_space _ Ha), (all_idchar_no_space _ Hs). reflexivity.
Qed.

Lemma no_space_no_includes s x :
  has_space s = false -> Js.includes s (String " " x) = false.
Proof.
  induction s as [|a s IH]; cbn [has_space Js.includes String.prefix];
    [reflexivity|].
  intros H. apply orb_false_iff in H. destruct H as [Ha Hs].
  rewrite (IH Hs). destruct (ascii_dec " " a) as [<-|_]; [|reflexivity].
  discriminate Ha.
Qed.

Lemma trimStart_id s :
  match s with
  | EmptyString => True
  | String a _ => Js.is_space a = false
  end -> Js.trimStart s = s.
Proof. destruct s as [|a s]; simpl; [reflexivity|]. intros ->. reflexivity. Qed.

Lemma trim_idem s : Js.trim (Js.trim s) = Js.trim s.
Proof.
  unfold Js.trim at 1. rewrite (trimStart_id _ (trim_head s)).
  unfold Js.trim. apply trimEnd_idem.
Qed.

(** ** Reserved words and the nodes of the graph *)

Lemma extractOriginal_named e x :
  Parser.extractOriginalColumnFromExpression e = Some x -> named_after e x.
Proof.
  unfold Parser.extractOriginalColumnFromExpression, named_after.
  destruct (Js.includes (Parser.unwrapExpression e) ".") eqn:D.
  - intros [= <-]. left. auto.
  - destruct (Parser.isValidColumnName _) eqn:V; [|discriminate].
    intros [= <-]. right. split; [reflexivity|]. split; [reflexivity|].
    split; [|apply valid_not_keyword, V].
    unfold Parser.isValidColumnName in V. apply andb_true_iff in V.
    rewrite <- test_identRe. apply V.
Qed.

Lemma truthy_not_empty o : Js.truthy o = true -> Js.or_else o "" <> EmptyString.
Proof.
  destruct o as [s|]; simpl; [|discriminate].
  destruct s; [discriminate|]. intros _. discriminate.
Qed.

Lemma extends_addSimpleColumn_with (P : node -> Prop) b x :
  (forall i, P (mkNode i x column (Some x) false)) ->
  extends P b (Viz.addSimpleColumn b x).
Proof.
  intros Hx. unfold Viz.addSimpleColumn.
  destruct (Dict.has _ _); [apply extends_refl|].
  apply extends_setColumnNodeId, extends_push, Hx.
Qed.

Lemma extends_addStarColumn_with (P : node -> Prop) b b' :
  (forall i, P (mkNode i "*" column (Some "*") false)) ->
  extends P b b' -> extends P b (Viz.addStarColumn b').
Proof.
  intros Hx H. unfold Viz.addStarColumn.
  destruct (Dict.has _ _); [assumption|].
  apply extends_setColumnNodeId.
  eapply extends_trans; [exact H|]. apply extends_push, Hx.
Qed.

(** The SELECT phase, with the select item that each new node comes
    from. *)
Lemma processSelectPart_from_select sql b part :
  In part (Viz.selectClauseParts sql) ->
  extends (column_of_select sql) b
          (Viz.processSelectPart (Viz.extractTableAliases sql) b part).
Proof.
  intros Hp. unfold Viz.processSelectPart.
  assert (S : select_expression sql
                match Re.exec Pat.asAliasRe (Js.trim part) with
                | Some asMatch => Js.trim (Pat.cap asMatch 1)
                | None => Js.trim part
                end) by (exists part; auto).
  destruct (Re.exec Pat.asAliasRe _) as [m|].
  - apply extends_addOutputColumn.
    destruct (Viz.refsOf _ _) eqn:R.
    + destruct (Js.truthy _) eqn:T; [|apply extends_refl].
      apply extends_addSelected, extends_addSimpleColumn_with.
      intros i. repeat split. eexists. split; [exact S|]. split; [exact R|].
      right. cbn [name]. split; [apply truthy_not_empty, T|].
      apply extractOriginal_named, truthy_some, T.
    + apply extends_addSelected, extends_setResolvedAlias, extends_refl.
  - destruct (Viz.refsOf _ _) eqn:R.
    + destruct (Js.truthy _) eqn:T.
      * apply extends_addOutputColumn, extends_addSelected,
          extends_addSimpleColumn_with.
        intros i. repeat split. eexists. split; [exact S|]. split; [exact R|].
        right. cbn [name]. split; [apply truthy_not_empty, T|].
        apply extractOriginal_named, truthy_some, T.
      * destruct (String.eqb _ _) eqn:E; [|apply extends_refl].
        apply String.eqb_eq in E.
        apply extends_addStarColumn_with; [|apply extends_addOutputColumn, extends_refl].
        intros i. repeat split. eexists. split; [exact S|]. split; [exact R|].
        left. auto.
    + apply extends_addOutputColumn, extends_addSelected, extends_refl.
Qed.

Lemma fold_extends_in {B} P (f : Viz.builder -> B -> Viz.builder) l :
  (forall b x, In x l -> extends P b (f b x)) ->
  forall b, extends P b (fold_left f l b).
Proof.
  induction l as [|x l IH]; intros Hf b; simpl.
  - apply extends_refl.
  - eapply extends_trans; [apply Hf; left; reflexivity|].
    apply IH. intros b' y Hy. apply Hf. right. exact Hy.
Qed.

(** The node list of every graph, with the origin of the unqualified
    column nodes. *)
Lemma nodes_shape_select sql pr :
  exists ts qs us als,
    nodes (Viz.generateVisualizationData sql pr)
      = Viz.mainQueryNode :: ts ++ qs ++ us ++ als /\
    map name ts = Parser.tables pr /\ Forall is_table ts /\
    map originalQualifiedName qs
      = map Some (firstSeen [] (allQualifiedColumnNames sql)) /\
    Forall is_qualified_column qs /\
    Forall (column_of_select sql) us /\
    Forall is_alias_node als.
Proof.
  unfold Viz.generateVisualizationData, allQualifiedColumnNames.
  destruct (Viz.extractTableColumnReferences sql _ _ _) as [tcr qsl].
  cbn [snd nodes].
  rewrite !nodes_emitModifies, nodes_emitWhere.
  rewrite (fold_same_nodes Viz.emitJoin) by apply nodes_emitJoin.
  rewrite (fold_same_nodes Viz.emitSelectedFlow) by apply nodes_emitSelectedFlow.
  rewrite (fold_same_nodes Viz.emitProvides) by apply nodes_emitProvides.
  destruct (tables_phase (Parser.tables pr) Viz.initial) as [ts [E1 [N1 [F1 C1]]]].
  set (b1 := fold_left Viz.addTable (Parser.tables pr) Viz.initial) in *.
  destruct (qualified_phase qsl b1 []) as [qs [E2 [O2 F2]]].
  { intros k. rewrite C1. reflexivity. }
  set (b2 := fold_left Viz.addQualifiedColumn qsl b1) in *.
  destruct (fold_extends_in (column_of_select sql)
              (Viz.processSelectPart (Viz.extractTableAliases sql))
              (Viz.selectClauseParts sql)
              (fun b x Hx => processSelectPart_from_select sql b x Hx) b2)
    as [us [E3 F3]].
  set (b3 := fold_left _ (Viz.selectClauseParts sql) b2) in *.
  destruct (fold_extends is_alias_node Viz.emitOutputColumn
              (Viz.outputColumns b3) extends_emitOutputColumn b3)
    as [als [E4 F4]].
  exists ts, qs, us, als.
  rewrite E4, E3, E2, E1. cbn [Viz.b_nodes Viz.initial].
  rewrite <- !app_assoc. cbn [app]. repeat split; assumption.
Qed.

(** C8, amended. Only unqualified select items are checked against the
    reserved words.  For every input, every node of the graph is the
    query node; or a table node, named as the parser reported it,
    unchecked; or a qualified column node, whose name [table > column] is
    no reserved word; or an alias node, unchecked; or the node of an
    unqualified column, which is the star or is named from a select
    expression of the statement without qualified reference: either
    after what follows the last dot of a dotted expression, unchecked,
    or after the whole expression, which is then an identifier and no
    reserved word.  So a node whose name is a reserved word (in any
    letter case) is a table node, an alias node, or an unqualified column
    node named after the last dot-segment of a dotted select expression;
    a column node made from a bare identifier never carries one. *)
Theorem keyword_names_only_on_unfiltered_nodes :
  forall (sql : string) (pr : Parser.parse_result),
    Forall (fun n =>
              (n = Viz.mainQueryNode /\ isSQLKeyword (name n) = false)
              \/ (is_table n /\ In (name n) (Parser.tables pr))
              \/ (is_qualified_column n /\ isSQLKeyword (name n) = false)
              \/ is_alias_node n
              \/ column_of_select sql n)
           (nodes (Viz.generateVisualizationData sql pr))
    /\ Forall (fun n =>
                 isSQLKeyword (name n) = false
                 \/ (type n = table /\ In (name n) (Parser.tables pr))
                 \/ (type n = column /\ isAlias n = true)
                 \/ (type n = column /\ isAlias n = false /\
                     exists expr,
                       select_expression sql expr /\
                       Viz.refsOf expr (Viz.extractTableAliases sql) = [] /\
                       Js.includes (Parser.unwrapExpression expr) "." = true /\
                       name n = Js.trim (Js.pop (Js.split "."
                                           (Parser.unwrapExpression expr)))))
              (nodes (Viz.generateVisualizationData sql pr))
    /\ (forall x, isSQLKeyword x = false
                  \/ Parser.isValidColumnName x = false).
Proof.
  intros sql pr.
  destruct (nodes_shape_select sql pr)
    as [ts [qs [us [als [E [Nt [Ft [_ [Fq [Fu Fa]]]]]]]]]].
  assert (A : Forall (fun n =>
              (n = Viz.mainQueryNode /\ isSQLKeyword (name n) = false)
              \/ (is_table n /\ In (name n) (Parser.tables pr))
              \/ (is_qualified_column n /\ isSQLKeyword (name n) = false)
              \/ is_alias_node n
              \/ column_of_select sql n)
           (nodes (Viz.generateVisualizationData sql pr))).
  { rewrite E. constructor; [left; split; reflexivity|].
    apply Forall_app4.
    - apply Forall_forall. intros n Hn. right. left.
      rewrite Forall_forall in Ft. split; [apply Ft, Hn|].
      rewrite <- Nt. apply in_map, Hn.
    - apply Forall_forall. intros n Hn. right. right. left.
      rewrite Forall_forall in Fq. split; [apply Fq, Hn|].
      apply qualified_not_keyword, Fq, Hn.
    - eapply Forall_impl; [|exact Fu]. intros n Hn. do 4 right. exact Hn.
    - eapply Forall_impl; [|exact Fa]. intros n Hn. do 3 right. left. exact Hn. }
  split; [exact A|]. split.
  - eapply Forall_impl; [|exact A]. intros n H.
    destruct H as [[_ K]|[[[T _] I]|[[_ K]|[[T [Al _]]|C]]]]; auto.
    destruct C as [T [Al [_ [expr [S [R N]]]]]].
    destruct N as [[_ N]|[_ [[D N]|[_ [_ [_ K]]]]]].
    + left. rewrite N. reflexivity.
    + do 3 right. split; [exact T|]. split; [exact Al|].
      exists expr. auto.
    + left. exact K.
  - intros x. destruct (Parser.isValidColumnName x) eqn:V; [|auto].
    left. apply valid_not_keyword, V.
Qed.

(** ** Arrays and dictionaries of the sample-data path *)

Lemma arr_includes_in l x : Js.arr_includes l x = true <-> In x l.
Proof.
  unfold Js.arr_includes. rewrite existsb_exists. split.
  - intros [y [Hy E]]. apply String.eqb_eq in E. subst. exact Hy.
  - intros H. exists x. split; [exact H | apply String.eqb_refl].
Qed.

Lemma pushUnique_keeps l x y : In y l -> In y (Parser.pushUnique l x).
Proof.
  unfold Parser.pushUnique. destruct (Js.arr_includes l x); [auto|].
  intros H. apply in_or_app. auto.
Qed.

Lemma pushUnique_has l x : In x (Parser.pushUnique l x).
Proof.
  unfold Parser.pushUnique. destruct (Js.arr_includes l x) eqn:E.
  - apply arr_includes_in, E.
  - apply in_or_app. right. simpl. auto.
Qed.

Lemma fold_pushUnique_keeps l : forall acc y,
  In y acc -> In y (fold_left Parser.pushUnique l acc).
Proof.
  induction l as [|x l IH]; intros acc y H; simpl; [exact H|].
  apply IH, pushUnique_keeps, H.
Qed.

Lemma fold_pushUnique_has l : forall acc y,
  In y l -> In y (fold_left Parser.pushUnique l acc).
Proof.
  induction l as [|x l IH]; intros acc y H; simpl; [destruct H|].
  destruct H as [<-|H]; [|apply IH, H].
  apply fold_pushUnique_keeps, pushUnique_has.
Qed.

Lemma fold_pushUnique_head l : forall x acc,
  exists tl, fold_left Parser.pushUnique l (x :: acc) = x :: tl.
Proof.
  induction l as [|y l IH]; intros x acc; simpl; [eauto|].
  unfold Parser.pushUnique at 2.
  destruct (Js.arr_includes (x :: acc) y); [apply IH|].
  apply (IH x (acc ++ [y])).
Qed.

Lemma unique_head x l : exists tl, Sample.unique (x :: l) = x :: tl.
Proof. unfold Sample.unique. simpl. apply fold_pushUnique_head. Qed.

(** Reaching a property through a [forEach] loop: some element
    establishes it and every step keeps it. *)
Lemma fold_left_reach {A B} (Q : A -> Prop) (f : A -> B -> A) x :
  (forall a, Q (f a x)) -> (forall a y, Q a -> Q (f a y)) ->
  forall l a, In x l -> Q (fold_left f l a).
Proof.
  intros Hx Hk. induction l as [|y l IH]; intros a H; [destruct H|].
  simpl. destruct H as [->|H]; [|apply IH, H].
  apply fold_left_inv; [exact Hk | apply Hx].
Qed.

(** ** The sample-data path: unqualified columns *)

Lemma valid_column_is_ident p :
  Sample.isValidColumnName (Js.trim p) = true -> is_ident (Js.trim p) = true.
Proof.
  unfold Sample.isValidColumnName.
  destruct (Js.is_empty (Js.trim p)); [discriminate|].
  rewrite trim_idem, test_identRe. intros H.
  apply andb_true_iff in H. apply H.
Qed.

Lemma names_of_ident c :
  is_ident c = true -> Js.includes c "." = false ->
  Sample.extractColumnNamesFromExpression c = [c].
Proof.
  intros Hi Hd. unfold Sample.extractColumnNamesFromExpression.
  rewrite exec_all_tableColumn_none by exact Hd. cbn [map].
  destruct (exec_simpleColumnRe c Hi) as [m [-> Hm]]. rewrite Hm. reflexivity.
Qed.

Lemma collectColumn_keeps columns part x :
  In x columns -> In x (Sample.collectColumn columns part).
Proof.
  intros H. unfold Sample.collectColumn.
  destruct (String.eqb _ "*"); [exact H|].
  destruct (Js.includes _ " AS ").
  - destruct (Re.exec Sample.asPrefixRe _).
    + apply fold_pushUnique_keeps, in_or_app. auto.
    + apply fold_pushUnique_keeps, H.
  - apply fold_pushUnique_keeps, H.
Qed.

Lemma collectColumn_ident columns part :
  is_ident (Js.trim part) = true -> Js.includes (Js.trim part) "." = false ->
  In (Js.trim part) (Sample.collectColumn columns part).
Proof.
  intros Hi Hd. unfold Sample.collectColumn.
  destruct (String.eqb (Js.trim part) "*") eqn:Es.
  - apply String.eqb_eq in Es. rewrite Es in Hi. discriminate Hi.
  - rewrite no_space_no_includes
      by (rewrite has_space_upper; apply ident_no_space, Hi).
    rewrite (names_of_ident _ Hi Hd). simpl. apply pushUnique_has.
Qed.

Lemma columns_hold_ident sql m part :
  Re.exec Pat.selectRe sql = Some m ->
  In part (Parser.splitSelectClause (Pat.cap m 1)) ->
  is_ident (Js.trim part) = true -> Js.includes (Js.trim part) "." = false ->
  In (Js.trim part) (Sample.extractColumnsWithAliases sql).
Proof.
  intros Hm Hp Hi Hd. unfold Sample.extractColumnsWithAliases. rewrite Hm.
  unfold Sample.unique. apply fold_pushUnique_has.
  apply (fold_left_reach (fun cols => In (Js.trim part) cols)
           Sample.collectColumn part).
  - intros a. apply collectColumn_ident; assumption.
  - intros a y. apply collectColumn_keeps.
  - exact Hp.
Qed.

Lemma findIndexFrom_some l c : forall i,
  In c l ->
  exists j y, Sample.findIndexFrom i l c = Some (i + j) /\
              nth_error l j = Some y /\
              Js.toLowerCase y = Js.toLowerCase c.
Proof.
  induction l as [|x l IH]; intros i H; [destruct H|].
  cbn [Sample.findIndexFrom].
  destruct (String.eqb (Js.toLowerCase x) (Js.toLowerCase c)) eqn:E.
  - exists 0, x. rewrite Nat.add_0_r. apply String.eqb_eq in E. auto.
  - destruct H as [->|H]; [rewrite String.eqb_refl in E; discriminate|].
    destruct (IH (S i) H) as [j [y [F [N L]]]].
    exists (S j), y. rewrite Nat.add_succ_r. auto.
Qed.

Lemma indexed_from l : forall i j (y : string),
  nth_error l j = Some y ->
  In (i + j, y) (combine (List.seq i (List.length l)) l).
Proof.
  induction l as [|x l IH]; intros i j y H; [destruct j; discriminate|].
  destruct j as [|j]; simpl in *.
  - injection H as ->. rewrite Nat.add_0_r. auto.
  - right. rewrite Nat.add_succ_r. apply (IH (S i) j y H).
Qed.

Lemma indexed_in l j y : nth_error l j = Some y -> In (j, y) (Sample.indexed l).
Proof. apply (indexed_from l 0 j y). Qed.

Lemma get_in {V} (m : Dict.t V) k v : Dict.get m k = Some v -> In (k, v) m.
Proof.
  induction m as [|[k0 v0] m IH]; simpl; [discriminate|].
  destruct (String.eqb k0 k) eqn:E.
  - apply String.eqb_eq in E. intros [= ->]. subst. auto.
  - auto.
Qed.

Lemma addColumn_has tcm k c : has_column (Sample.addColumn tcm k c) k c.
Proof.
  unfold Sample.addColumn, has_column.
  destruct (Dict.get tcm k) as [cols|] eqn:E.
  - rewrite E. destruct (Js.arr_includes cols c) eqn:I.
    + exists cols. split; [exact E | apply arr_includes_in, I].
    + exists (cols ++ [c]). rewrite get_set, String.eqb_refl.
      split; [reflexivity | apply in_or_app; simpl; auto].
  - rewrite get_set, String.eqb_refl. cbn [Js.arr_includes existsb].
    exists [c]. rewrite get_set, String.eqb_refl. simpl. auto.
Qed.

Lemma addColumn_keeps tcm k c k' c' :
  has_column tcm k' c' -> has_column (Sample.addColumn tcm k c) k' c'.
Proof.
  intros [cols' [G I]]. unfold Sample.addColumn, has_column.
  destruct (Dict.get tcm k) as [cols|] eqn:E.
  - rewrite E. destruct (Js.arr_includes cols c); [eauto|].
    rewrite get_set. destruct (String.eqb k k') eqn:K; [|eauto].
    apply String.eqb_eq in K. subst k'. rewrite E in G. injection G as ->.
    exists (cols' ++ [c]). split; [reflexivity | apply in_or_app; auto].
  - assert (K : String.eqb k k' = false).
    { destruct (String.eqb k k') eqn:K; [|reflexivity].
      apply String.eqb_eq in K. subst k'. rewrite E in G. discriminate. }
    rewrite get_set, String.eqb_refl. cbn [Js.arr_includes existsb].
    rewrite !get_set, K. eauto.
Qed.

Lemma addStar_keeps tcm t k' c' :
  has_column tcm k' c' -> has_column (Sample.addStar tcm t) k' c'.
Proof.
  intros [cols' [G I]]. unfold Sample.addStar, has_column.
  destruct (Dict.get tcm (Sample.tableName t)) as [cols|] eqn:E.
  - rewrite E, get_set.
    destruct (String.eqb (Sample.tableName t) k') eqn:K; [|eauto].
    apply String.eqb_eq in K. subst k'. rewrite E in G. injection G as ->.
    exists (cols' ++ ["*"]). split; [reflexivity | apply in_or_app; auto].
  - assert (K : String.eqb (Sample.tableName t) k' = false).
    { destruct (String.eqb (Sample.tableName t) k') eqn:K; [|reflexivity].
      apply String.eqb_eq in K. subst k'. rewrite E in G. discriminate. }
    rewrite !get_set, String.eqb_refl, K. eauto.
Qed.

Lemma references_keep expr al tcm k c :
  has_column tcm k c ->
  has_column (Sample.extractTableColumnReferencesWithAliases expr al tcm) k c.
Proof.
  unfold Sample.extractTableColumnReferencesWithAliases.
  apply (fold_left_inv (fun a => has_column a k c)).
  intros a m. apply addColumn_keeps.
Qed.

Lemma fromClause_keeps re sql al tcm k c :
  has_column tcm k c -> has_column (Sample.fromClause re sql al tcm) k c.
Proof.
  intros H. unfold Sample.fromClause.
  destruct (Re.exec re sql); [apply references_keep|]; exact H.
Qed.

Lemma clauses_keep sql al tcm k c :
  has_column tcm k c ->
  has_column (Sample.extractColumnsFromClausesWithAliases sql al tcm) k c.
Proof.
  intros H. unfold Sample.extractColumnsFromClausesWithAliases.
  apply (fold_left_inv (fun a => has_column a k c));
    [intros a m; apply references_keep|].
  repeat apply fromClause_keeps. exact H.
Qed.

Lemma attributeColumn_keeps ti al tcm column k c :
  has_column tcm k c ->
  has_column (Sample.attributeColumn ti al tcm column) k c.
Proof.
  intros H. unfold Sample.attributeColumn.
  destruct (String.eqb _ "*").
  - apply (fold_left_inv (fun a => has_column a k c));
      [intros a t; apply addStar_keeps | exact H].
  - destruct (_ && _); [|apply references_keep, H].
    destruct ti as [|t0 ti]; [apply references_keep, H|].
    destruct (Js.is_empty _); [apply references_keep, H|].
    apply addColumn_keeps, references_keep, H.
Qed.

Lemma attributeColumn_first t0 ti al tcm part :
  Js.includes (Js.trim part) "." = false ->
  Sample.isValidColumnName (Js.trim part) = true ->
  Js.is_empty (Sample.tableName t0) = false ->
  has_column (Sample.attributeColumn (t0 :: ti) al tcm part)
             (Sample.tableName t0) (Js.trim part).
Proof.
  intros Hd Hv Ht. unfold Sample.attributeColumn.
  destruct (String.eqb (Js.trim part) "*") eqn:Es.
  - apply String.eqb_eq in Es. rewrite Es in Hv. discriminate Hv.
  - rewrite Hd, Hv, Ht. cbn [negb andb]. apply addColumn_has.
Qed.

(** The map of [parseTableColumnRelationshipsWithAliases] lists the
    unqualified column under the first table. *)
Lemma first_table_lists_column sql m part t0 ti :
  Re.exec Pat.selectRe sql = Some m ->
  In part (Parser.splitSelectClause (Pat.cap m 1)) ->
  Js.includes (Js.trim part) "." = false ->
  Sample.isValidColumnName (Js.trim part) = true ->
  Js.is_empty (Sample.tableName t0) = false ->
  has_column (Sample.parseTableColumnRelationshipsWithAliases sql (t0 :: ti))
             (Sample.tableName t0) (Js.trim part).
Proof.
  intros Hm Hp Hd Hv Ht.
  unfold Sample.parseTableColumnRelationshipsWithAliases. rewrite Hm.
  apply clauses_keep.
  apply (fold_left_reach
           (fun tcm => has_column tcm (Sample.tableName t0) (Js.trim part))
           (Sample.attributeColumn (t0 :: ti) (Sample.aliasMapOf (t0 :: ti)))
           part).
  - intros a. apply attributeColumn_first; assumption.
  - intros a y. apply attributeColumn_keeps.
  - exact Hp.
Qed.

Lemma edge_type_eqb_eq a b : edge_type_eqb a b = true -> a = b.
Proof. destruct a, b; simpl; congruence. Qed.

Lemma provides_app es l s t : provides_edge es s t -> provides_edge (es ++ l) s t.
Proof.
  intros [e [He H]]. exists e. split; [apply in_or_app; auto | exact H].
Qed.

Lemma pushProvides_has es s t : provides_edge (Sample.pushProvides es s t) s t.
Proof.
  unfold Sample.pushProvides. destruct (Viz.linked es s t provides) eqn:L.
  - unfold Viz.linked in L. apply existsb_exists in L.
    destruct L as [e [He L]]. apply andb_true_iff in L. destruct L as [L Lt].
    apply andb_true_iff in L. destruct L as [Ls Ld].
    apply String.eqb_eq in Ls, Ld. apply edge_type_eqb_eq in Lt.
    exists e. auto.
  - exists (mkEdge s t provides None). split; [|auto].
    apply in_or_app. simpl. auto.
Qed.

Lemma pushProvides_keeps es s t a b :
  provides_edge es a b -> provides_edge (Sample.pushProvides es s t) a b.
Proof.
  intros H. unfold Sample.pushProvides.
  destruct (Viz.linked es s t provides); [exact H | apply provides_app, H].
Qed.

Lemma providesOfEntry_keeps tables columns es entry a b :
  provides_edge es a b ->
  provides_edge (Sample.providesOfEntry tables columns es entry) a b.
Proof.
  intros H. destruct entry as [tn cols]. unfold Sample.providesOfEntry.
  destruct (Sample.findIndex tables tn) as [ti|]; [|exact H].
  apply (fold_left_inv (fun es => provides_edge es a b)); [|exact H].
  intros es' c H'. destruct (Sample.findIndex columns c); [|exact H'].
  apply pushProvides_keeps, H'.
Qed.

Lemma providesOfEntry_has tables columns es tn cols c ti j :
  Sample.findIndex tables tn = Some ti -> In c cols ->
  Sample.findIndex columns c = Some j ->
  provides_edge (Sample.providesOfEntry tables columns es (tn, cols))
                (Sample.tableId ti) (Sample.columnId j).
Proof.
  intros Ht Hc Hj. unfold Sample.providesOfEntry. rewrite Ht.
  apply (fold_left_reach
           (fun es => provides_edge es (Sample.tableId ti) (Sample.columnId j))
           _ c); [| |exact Hc].
  - intros es'. rewrite Hj. apply pushProvides_has.
  - intros es' y H'. destruct (Sample.findIndex columns y); [|exact H'].
    apply pushProvides_keeps, H'.
Qed.

(** Steps 2 and 3 of [createRelationshipsFromSQL] and the default rule
    only add edges. *)
Lemma relationships_keep normalized sql tables columns tn cols c ti j :
  Dict.get (Sample.parseTableColumnRelationshipsWithAliases sql
              (Sample.extractTableInfoWithAliases sql)) tn = Some cols ->
  In c cols ->
  Sample.findIndex tables tn = Some ti ->
  Sample.findIndex columns c = Some j ->
  provides_edge
    (edges (Sample.createRelationshipsFromSQL normalized sql tables columns))
    (Sample.tableId ti) (Sample.columnId j).
Proof.
  intros G Hc Ht Hj. unfold Sample.createRelationshipsFromSQL.
  set (tcm := Sample.parseTableColumnRelationshipsWithAliases sql _) in *.
  assert (P : provides_edge
                (fold_left (Sample.providesOfEntry tables columns) tcm
                           (edges normalized))
                (Sample.tableId ti) (Sample.columnId j)).
  { apply (fold_left_reach
             (fun es => provides_edge es (Sample.tableId ti) (Sample.columnId j))
             _ (tn, cols)).
    - intros es. eapply providesOfEntry_has; eassumption.
    - intros es y. apply providesOfEntry_keeps.
    - apply get_in, G. }
  set (es1 := fold_left _ tcm (edges normalized)) in *.
  assert (E2 : match es1, tables, columns with
               | [], _ :: _, _ :: _ =>
                   fold_left
                     (fun es ic =>
                        if String.eqb (snd ic) "*" then es
                        else es ++ [mkEdge (Sample.tableId 0)
                                      (Sample.columnId (fst ic)) provides None])
                     (Sample.indexed columns) es1
               | _, _, _ => es1
               end = es1).
  { destruct es1 as [|e es1']; [|reflexivity].
    destruct P as [e [[] _]]. }
  cbn [edges]. rewrite E2.
  destruct (has_id (nodes normalized) "main_query");
    repeat apply provides_app; exact P.
Qed.

Lemma sample_nodes normalized sql :
  exists tl,
    nodes (Sample.createSampleDataFromSQL normalized sql) =
    nodes normalized
    ++ map (fun it => mkNode (Sample.tableId (fst it)) (snd it) table None false)
         (Sample.indexed
            (Sample.unique (map Sample.tableName
                              (Sample.extractTableInfoWithAliases sql))))
    ++ map (fun ic => mkNode (Sample.columnId (fst ic)) (snd ic) column None false)
         (Sample.indexed (Sample.extractColumnsWithAliases sql))
    ++ tl.
Proof.
  unfold Sample.createSampleDataFromSQL, Sample.createRelationshipsFromSQL.
  cbn [nodes].
  destruct (Sample.unique _) as [|u us];
    destruct (Sample.extractColumnsWithAliases sql) as [|c cs];
    eexists; rewrite <- ?app_assoc; reflexivity.
Qed.

(** ** Table names are identifiers *)

Lemma idchar_not_dot a : Re.cmatch Re.IdChar a = true -> Ascii.eqb a "." = false.
Proof.
  destruct a as [[] [] [] [] [] [] [] []]; vm_compute; congruence.
Qed.

Lemma idstart_idchar a : Re.cmatch Re.IdStart a = true -> Re.cmatch Re.IdChar a = true.
Proof.
  destruct a as [[] [] [] [] [] [] [] []]; vm_compute; congruence.
Qed.

Lemma all_idchar_no_dot s : all_in Re.IdChar s = true -> no_dot s = true.
Proof.
  induction s as [|a s IH]; simpl; [reflexivity|].
  intros H. apply andb_true_iff in H. destruct H as [Ha Hs].
  rewrite (idchar_not_dot _ Ha), (IH Hs). reflexivity.
Qed.

Lemma ident_no_dot s : is_ident s = true -> no_dot s = true.
Proof.
  destruct s as [|a s]; simpl; [reflexivity|].
  intros H. apply andb_true_iff in H. destruct H as [Ha Hs].
  rewrite (idchar_not_dot _ (idstart_idchar _ Ha)), (all_idchar_no_dot _ Hs).
  reflexivity.
Qed.

Lemma lang_ident w : lang Re.ident w -> is_ident w = true.
Proof.
  unfold Re.ident. cbn [lang].
  intros [w1 [w2 [-> [[a [-> Ha]] Hw2]]]]. cbn [String.append is_ident].
  rewrite Ha, Hw2. reflexivity.
Qed.

Lemma split_no_dot s : no_dot s = true -> Js.split "." s = [s].
Proof.
  induction s as [|a s IH]; simpl; [reflexivity|].
  intros H. apply andb_true_iff in H. destruct H as [Ha Hs].
  destruct (Ascii.eqb a "."); [discriminate|]. rewrite (IH Hs). reflexivity.
Qed.

Lemma split_at_dot w t :
  no_dot w = true -> Js.split "." (w +++ String "." t) = w :: Js.split "." t.
Proof.
  induction w as [|a w IH]; simpl; [reflexivity|].
  intros H. apply andb_true_iff in H. destruct H as [Ha Hs].
  destruct (Ascii.eqb a "."); [discriminate|]. rewrite (IH Hs). reflexivity.
Qed.

(** The last dot-segment of [ident] or [ident.ident] is an identifier. *)
Lemma dropSchema_ident w :
  lang Pat.tableRef w -> is_ident (Parser.dropSchema w) = true.
Proof.
  unfold Pat.tableRef, Parser.dropSchema, Js.pop. cbn [lang].
  intros [w1 [w2 [-> [L1 [->|[d [w3 [-> [[a [-> Hd]] L3]]]]]]]]].
  - apply lang_ident in L1. rewrite append_nil_r.
    rewrite (split_no_dot _ (ident_no_dot _ L1)). exact L1.
  - apply lang_ident in L1. apply lang_ident in L3.
    simpl in Hd. apply Ascii.eqb_eq in Hd. subst a. cbn [String.append].
    rewrite (split_at_dot _ _ (ident_no_dot _ L1)).
    rewrite (split_no_dot _ (ident_no_dot _ L3)). exact L3.
Qed.

Lemma ident_not_empty s : is_ident s = true -> Js.is_empty s = false.
Proof. destruct s; [discriminate | reflexivity]. Qed.

Lemma infoOf_fromAlias pos s m :
  Re.at_pos Pat.fromAliasRe pos s = Some m ->
  Js.is_empty (Sample.tableName (Sample.infoOf m)) = false.
Proof.
  intros H. apply ident_not_empty, dropSchema_ident.
  eapply capture_is_text; [|exact H]. reflexivity.
Qed.

Lemma infoOf_joinAlias pos s m :
  Re.at_pos Pat.joinAliasRe pos s = Some m ->
  Js.is_empty (Sample.tableName (Sample.infoOf m)) = false.
Proof.
  intros H. apply ident_not_empty, dropSchema_ident.
  eapply capture_is_text; [|exact H]. reflexivity.
Qed.

(** Every table the sample-data path finds has a non-empty name. *)
Lemma tableInfo_named sql :
  Forall (fun t => Js.is_empty (Sample.tableName t) = false)
         (Sample.extractTableInfoWithAliases sql).
Proof.
  unfold Sample.extractTableInfoWithAliases.
  assert (J : Forall (fun m => Js.is_empty (Sample.tableName (Sample.infoOf m)) = false)
                (Re.exec_all Pat.joinAliasRe sql)).
  { eapply Forall_impl; [|apply exec_loop_at].
    intros m [pos' [s' H]]. eapply infoOf_joinAlias, H. }
  assert (F : Forall (fun t => Js.is_empty (Sample.tableName t) = false)
                match Re.exec Pat.fromAliasRe sql with
                | Some fromMatch => [Sample.infoOf fromMatch]
                | None => []
                end).
  { destruct (Re.exec Pat.fromAliasRe sql) as [m|] eqn:E; [|constructor].
    constructor; [|constructor].
    apply search_at in E. destruct E as [pos' [s' E]].
    eapply infoOf_fromAlias, E. }
  revert F. generalize (match Re.exec Pat.fromAliasRe sql with
                        | Some fromMatch => [Sample.infoOf fromMatch]
                        | None => []
                        end).
  induction J as [|m ms Hm Hms IH]; intros acc F; cbn [fold_left]; [exact F|].
  apply IH. destruct (existsb _ acc); [exact F|].
  apply Forall_app. split; [exact F|]. constructor; [exact Hm|constructor].
Qed.

(** The FROM table, when there is one, is the first table. *)
Lemma tableInfo_fold_head (ms : list Re.result) : forall h tl,
  exists tl',
    fold_left
      (fun tableInfo joinMatch =>
         let t := Sample.infoOf joinMatch in
         if existsb (fun t' => String.eqb (Sample.tableName t') (Sample.tableName t))
                    tableInfo
         then tableInfo else tableInfo ++ [t])
      ms (h :: tl) = h :: tl'.
Proof.
  induction ms as [|m ms IH]; intros h tl; cbn [fold_left]; [eauto|].
  destruct (existsb _ (h :: tl)); [apply IH|].
  apply (IH h (tl ++ [Sample.infoOf m])).
Qed.

Lemma tableInfo_head sql fm :
  Re.exec Pat.fromAliasRe sql = Some fm ->
  exists tl, Sample.extractTableInfoWithAliases sql = Sample.infoOf fm :: tl.
Proof.
  intros E. unfold Sample.extractTableInfoWithAliases. rewrite E.
  apply tableInfo_fold_head.
Qed.

(** The sample-data path: a SELECT item that holds no dot and is a single
    bare identifier that is no reserved word is listed under the first
    table of the statement, and the graph has a provides edge from the
    node of that table to the node of the column. *)
Lemma sample_path_attributes_first_table :
  forall (sql : string) (normalized : graph) (m : Re.result) (part : string)
         (t0 : Sample.table_info) (rest : list Sample.table_info),
    Re.exec Pat.selectRe sql = Some m ->
    In part (Parser.splitSelectClause (Pat.cap m 1)) ->
    Js.includes (Js.trim part) "." = false ->
    Sample.isValidColumnName (Js.trim part) = true ->
    Sample.extractTableInfoWithAliases sql = t0 :: rest ->
    let g := Sample.createSampleDataFromSQL normalized sql in
    (forall fromMatch,
       Re.exec Pat.fromAliasRe sql = Some fromMatch ->
       t0 = Sample.infoOf fromMatch)
    /\ has_column (Sample.parseTableColumnRelationshipsWithAliases sql (t0 :: rest))
                  (Sample.tableName t0) (Js.trim part)
    /\ exists j y,
         nth_error (Sample.extractColumnsWithAliases sql) j = Some y /\
         Js.toLowerCase y = Js.toLowerCase (Js.trim part) /\
         In (mkNode (Sample.tableId 0) (Sample.tableName t0) table None false)
            (nodes g) /\
         In (mkNode (Sample.columnId j) y column None false) (nodes g) /\
         provides_edge (edges g) (Sample.tableId 0) (Sample.columnId j).
Proof.
  intros sql normalized m part t0 rest Hm Hp Hd Hv Hti g.
  assert (Ht : Js.is_empty (Sample.tableName t0) = false).
  { pose proof (tableInfo_named sql) as F. rewrite Hti in F.
    inversion F; assumption. }
  pose proof (first_table_lists_column sql m part t0 rest Hm Hp Hd Hv Ht) as Hc.
  split; [|split; [exact Hc|]].
  { intros fm Hfm. destruct (tableInfo_head sql fm Hfm) as [tl E].
    rewrite Hti in E. injection E as -> _. reflexivity. }
  destruct Hc as [cols [G I]].
  pose proof (columns_hold_ident sql m part Hm Hp
                (valid_column_is_ident _ Hv) Hd) as Hin.
  destruct (findIndexFrom_some _ _ 0 Hin) as [j [y [F [N L]]]].
  simpl in F. exists j, y. split; [exact N|]. split; [exact L|].
  destruct (unique_head (Sample.tableName t0) (map Sample.tableName rest))
    as [tl U].
  destruct (sample_nodes normalized sql) as [tail En].
  fold g in En. rewrite Hti in En. cbn [map] in En. rewrite U in En.
  split; [|split].
  - rewrite En. apply in_or_app. right. apply in_or_app. left.
    apply (in_map (fun it => mkNode (Sample.tableId (fst it)) (snd it)
                               table None false)
             _ (0, Sample.tableName t0)).
    apply indexed_in. reflexivity.
  - rewrite En. apply in_or_app. right. apply in_or_app. right.
    apply in_or_app. left.
    apply (in_map (fun ic => mkNode (Sample.columnId (fst ic)) (snd ic)
                               column None false)
             _ (j, y)).
    apply indexed_in, N.
  - subst g. unfold Sample.createSampleDataFromSQL.
    rewrite Hti. cbn [map]. rewrite U.
    eapply relationships_keep.
    + rewrite Hti. exact G.
    + exact I.
    + unfold Sample.findIndex. cbn [Sample.findIndexFrom].
      rewrite String.eqb_refl. reflexivity.
    + exact F.
Qed.

(** C7, as stated, fails: [generateVisualizationData] gives the
    unqualified column of [SELECT id FROM orders] a node and a flow into
    the query, and no provides edge from the table [orders]. *)
Lemma builder_leaves_unqualified_column_unattributed :
  Viz.extract "SELECT id FROM orders" =
  mkGraph
    [ mkNode "query_main" "Main Query" query None false;
      mkNode "table_0" "orders" table None false;
      mkNode "col_1" "id" column (Some "id") false ]
    [ mkEdge "col_1" "query_main" flows_to None ].
Proof. vm_compute. reflexivity. Qed.

(** * Further properties of the scripts *)

(** ** Capture groups hold texts of their sub-patterns *)

Lemma rmatch_groups r : forall A (k : Re.cont A) pos s cs x,
  Re.rmatch r k pos s cs = Some x ->
  exists w s' cs',
    s = w +++ s' /\ lang r w /\
    (forall n v, Re.group cs' n = Some v ->
                 Re.group cs n = Some v \/ grp_lang r n v) /\
    (forall n, Re.group cs n <> None \/ must_bind r n = true ->
               Re.group cs' n <> None) /\
    k (pos + String.length w) s' cs' = Some x.
Proof.
  induction r as [|c|r1 IH1 r2 IH2|r1 IH1 r2 IH2|c|c|r1 IH1|g r1 IH1|r1 IH1| |];
    intros A k pos s cs x; cbn [Re.rmatch lang grp_lang must_bind].
  - intros H. exists EmptyString, s, cs. rewrite Nat.add_0_r.
    repeat split; auto. intros n [N|N]; [exact N|discriminate].
  - destruct s as [|a s]; [discriminate|].
    destruct (Re.cmatch c a) eqn:Ea; [|discriminate].
    intros H. exists (String a EmptyString), s, cs. simpl.
    rewrite Nat.add_1_r. split; [reflexivity|]. split; [eauto|].
    split; [auto|]. split; [|exact H].
    intros n [N|N]; [exact N|discriminate].
  - intros H. destruct (IH1 _ _ _ _ _ _ H) as [w1 [s1 [cs1 [E1 [L1 [F1 [M1 H1]]]]]]].
    destruct (IH2 _ _ _ _ _ _ H1) as [w2 [s2 [cs2 [E2 [L2 [F2 [M2 H2]]]]]]].
    exists (w1 +++ w2), s2, cs2. split; [|split; [|split; [|split]]].
    + rewrite append_assoc_str, <- E2. exact E1.
    + eauto.
    + intros n v Hv. destruct (F2 n v Hv) as [Hc|Hg]; [|auto].
      destruct (F1 n v Hc); auto.
    + intros n Hn. apply M2.
      destruct Hn as [Hn|Hn].
      * left. apply M1. auto.
      * apply orb_true_iff in Hn. destruct Hn as [Hn|Hn]; [|auto].
        left. apply M1. auto.
    + rewrite append_length_str, Nat.add_assoc. exact H2.
  - destruct (Re.rmatch r1 k pos s cs) as [r|] eqn:E.
    + intros [= <-].
      destruct (IH1 _ _ _ _ _ _ E) as [w [s' [cs' [E1 [L1 [F1 [M1 H1]]]]]]].
      exists w, s', cs'. split; [|split; [|split; [|split]]]; auto.
      * intros n v Hv. destruct (F1 n v Hv); auto.
      * intros n [Hn|Hn]; apply M1; [auto|].
        apply andb_true_iff in Hn. right. apply Hn.
    + intros H.
      destruct (IH2 _ _ _ _ _ _ H) as [w [s' [cs' [E1 [L1 [F1 [M1 H1]]]]]]].
      exists w, s', cs'. split; [|split; [|split; [|split]]]; auto.
      * intros n v Hv. destruct (F1 n v Hv); auto.
      * intros n [Hn|Hn]; apply M1; [auto|].
        apply andb_true_iff in Hn. right. apply Hn.
  - intros H. destruct (star_greedy_sound _ _ _ _ _ _ H) as [w [s' [E [L K]]]].
    exists w, s', cs. repeat split; auto.
    intros n [N|N]; [exact N|discriminate].
  - intros H. destruct (star_lazy_sound _ _ _ _ _ _ H) as [w [s' [E [L K]]]].
    exists w, s', cs. repeat split; auto.
    intros n [N|N]; [exact N|discriminate].
  - destruct (Re.rmatch r1 k pos s cs) as [r|] eqn:E.
    + intros [= <-].
      destruct (IH1 _ _ _ _ _ _ E) as [w [s' [cs' [E1 [L1 [F1 [M1 H1]]]]]]].
      exists w, s', cs'. split; [|split; [|split; [|split]]]; auto.
      intros n [Hn|Hn]; [apply M1; auto | discriminate].
    + intros H. exists EmptyString, s, cs. rewrite Nat.add_0_r.
      repeat split; auto. intros n [N|N]; [exact N|discriminate].
  - intros H.
    destruct (IH1 _ _ _ _ _ _ H) as [w [s' [cs' [E1 [L1 [F1 [M1 H1]]]]]]].
    eexists w, s', _. split; [exact E1|]. split; [exact L1|].
    split; [|split; [|exact H1]].
    + intros n v. cbn [Re.group]. destruct (Nat.eqb g n) eqn:G.
      * intros [= <-]. right. left. apply Nat.eqb_eq in G. split; [exact G|].
        rewrite E1. replace (pos + String.length w - pos) with (String.length w) by lia.
        rewrite substring_prefix. exact L1.
      * intros Hv. destruct (F1 n v Hv); auto.
    + intros n Hn. cbn [Re.group]. destruct (Nat.eqb g n) eqn:G; [discriminate|].
      apply M1. destruct Hn as [Hn|Hn]; [auto|]. simpl in Hn. auto.
  - destruct (Re.rmatch r1 _ pos s cs) as [cs1|] eqn:E; [|discriminate].
    intros H.
    destruct (IH1 _ _ _ _ _ _ E) as [w [s' [cs' [E1 [L1 [F1 [M1 H1]]]]]]].
    injection H1 as <-.
    exists EmptyString, s, cs'. rewrite Nat.add_0_r. repeat split; auto.
  - destruct (Nat.eqb pos 0); [|discriminate].
    intros H. exists EmptyString, s, cs. rewrite Nat.add_0_r.
    repeat split; auto. intros n [N|N]; [exact N|discriminate].
  - destruct s; [|discriminate].
    intros H. exists EmptyString, EmptyString, cs. rewrite Nat.add_0_r.
    repeat split; auto. intros n [N|N]; [exact N|discriminate].
Qed.

(** The match object of a pattern: its text and its groups. *)
Lemma at_pos_groups r pos s m :
  Re.at_pos r pos s = Some m ->
  lang r (Re.text m) /\
  (forall n v, Re.group (Re.groups m) n = Some v -> grp_lang r n v) /\
  (forall n, must_bind r n = true -> Re.group (Re.groups m) n <> None).
Proof.
  unfold Re.at_pos. intros H. apply rmatch_groups in H.
  destruct H as [w [s' [cs' [E [L [F [M H]]]]]]]. injection H as <-.
  cbn [Re.text Re.groups]. split; [|split].
  - rewrite E. replace (pos + String.length w - pos) with (String.length w) by lia.
    rewrite substring_prefix. exact L.
  - intros n v Hv. destruct (F n v Hv) as [C|G]; [discriminate C | exact G].
  - intros n Hn. apply M. auto.
Qed.

(** A group that always takes part holds a text of its sub-pattern. *)
Lemma cap_lang r pos s m n :
  Re.at_pos r pos s = Some m -> must_bind r n = true ->
  grp_lang r n (Pat.cap m n).
Proof.
  intros H Hn. destruct (at_pos_groups _ _ _ _ H) as [_ [F M]].
  unfold Pat.cap. destruct (Re.group (Re.groups m) n) as [v|] eqn:E.
  - apply F, E.
  - exfalso. apply (M n Hn E).
Qed.

Lemma exec_at r s m :
  Re.exec r s = Some m -> exists pos' s', Re.at_pos r pos' s' = Some m.
Proof. apply search_at. Qed.

Lemma exec_all_at r s :
  Forall (fun m => exists pos' s', Re.at_pos r pos' s' = Some m)
         (Re.exec_all r s).
Proof. apply exec_loop_at. Qed.

(** ** Node ids are fresh *)

Lemma of_nat_inj n m : Js.of_nat n = Js.of_nat m -> n = m.
Proof.
  unfold Js.of_nat. intros H.
  assert (E : Nat.to_uint n = Nat.to_uint m).
  { pose proof (NilEmpty.usu (Nat.to_uint n)) as Hn.
    pose proof (NilEmpty.usu (Nat.to_uint m)) as Hm.
    rewrite H in Hn. rewrite Hn in Hm. injection Hm as ->. reflexivity. }
  rewrite <- (DecimalNat.Unsigned.of_to n), <- (DecimalNat.Unsigned.of_to m), E.
  reflexivity.
Qed.

Lemma append_inj_l p a b : p +++ a = p +++ b -> a = b.
Proof.
  induction p as [|c p IH]; cbn [String.append]; [auto|].
  intros [= H]. apply IH, H.
Qed.

Lemma node_id_inj n m x : node_id n x -> node_id m x -> n = m.
Proof.
  unfold node_id.
  intros [ -> | [ -> | -> ] ] [H|[H|H]];
    first [ apply append_inj_l in H; apply of_nat_inj; exact H
          | cbn [String.append] in H; discriminate H ].
Qed.

Lemma node_id_not_query n : ~ node_id n Viz.mainQueryNodeId.
Proof.
  unfold node_id, Viz.mainQueryNodeId.
  intros [H|[H|H]]; cbn [String.append] in H; discriminate H.
Qed.

Lemma NoDup_snoc {A} (l : list A) x : NoDup l -> ~ In x l -> NoDup (l ++ [x]).
Proof.
  induction 1 as [|y l Hy Hl IH]; intros Hx; simpl.
  - constructor; [intros []|constructor].
  - constructor.
    + intros H. apply in_app_or in H. destruct H as [H|[H|[]]]; [auto|].
      subst. apply Hx. left. reflexivity.
    + apply IH. intros H. apply Hx. right. exact H.
Qed.

Lemma tidy_fresh b x :
  tidy b -> node_id (Viz.nodeIdCounter b) x -> ~ In x (ids (Viz.b_nodes b)).
Proof.
  intros T Hx Hin. destruct (td_ids b T x Hin) as [ -> | [n [Hn Hid]]].
  - exact (node_id_not_query _ Hx).
  - pose proof (node_id_inj _ _ _ Hid Hx). lia.
Qed.

Lemma tidy_ids_push b n :
  tidy b -> node_id (Viz.nodeIdCounter b) (id n) ->
  NoDup (ids (Viz.b_nodes b ++ [n])) /\
  forall x, In x (ids (Viz.b_nodes b ++ [n])) ->
            x = Viz.mainQueryNodeId \/
            exists m, m < S (Viz.nodeIdCounter b) /\ node_id m x.
Proof.
  intros T Hn. rewrite ids_app. cbn [ids map]. split.
  - apply NoDup_snoc; [apply T | apply tidy_fresh; assumption].
  - intros x Hx. apply in_app_or in Hx. destruct Hx as [Hx|[<-|[]]].
    + destruct (td_ids b T x Hx) as [ -> | [m [Hm Hid]]]; [auto|].
      right. exists m. split; [lia | exact Hid].
    + right. exists (Viz.nodeIdCounter b). split; [lia | exact Hn].
Qed.

Lemma tidy_pushNode b n :
  tidy b -> node_id (Viz.nodeIdCounter b) (id n) -> isAlias n = false ->
  tidy (Viz.pushNode b n).
Proof.
  intros T Hn Ha. destruct (tidy_ids_push b n T Hn) as [N I].
  constructor; cbn [Viz.pushNode Viz.b_nodes Viz.b_edges Viz.nodeIdCounter].
  - exact N.
  - exact I.
  - intros n' Hn' Ha'. apply in_app_or in Hn'. destruct Hn' as [Hn'|[<-|[]]].
    + apply (td_alias b T); assumption.
    + rewrite Ha in Ha'. discriminate.
  - apply T.
  - apply T.
Qed.

Lemma tidy_pushEdge b e :
  tidy b -> etype e <> sources -> etype e <> uses -> label e = None ->
  tidy (Viz.pushEdge b e).
Proof.
  intros T Hs Hu Hl.
  constructor; cbn [Viz.pushEdge Viz.b_nodes Viz.b_edges Viz.nodeIdCounter].
  - apply T.
  - apply T.
  - intros n Hn Ha. apply in_or_app. left. apply (td_alias b T); assumption.
  - intros e' He'. apply in_app_or in He'. destruct He' as [He'|[<-|[]]].
    + apply (td_kinds b T), He'.
    + split; [exact Hs|]. rewrite Hl.
      destruct (etype e); try reflexivity. contradiction Hu. reflexivity.
  - intros e' He' Hu'. apply in_app_or in He'. destruct He' as [He'|[<-|[]]].
    + apply in_or_app. left. apply (td_pairs b T); assumption.
    + contradiction.
Qed.

Lemma tidy_pushJoin b l r :
  tidy b ->
  tidy (Viz.pushEdge (Viz.pushEdge b (join_edge l r)) (join_edge r l)).
Proof.
  intros T.
  constructor; cbn [Viz.pushEdge Viz.b_nodes Viz.b_edges Viz.nodeIdCounter].
  - apply T.
  - apply T.
  - intros n Hn Ha. apply in_or_app. left. apply in_or_app. left.
    apply (td_alias b T); assumption.
  - intros e He. apply in_app_or in He. destruct He as [He|[<-|[]]].
    + apply in_app_or in He. destruct He as [He|[<-|[]]].
      * apply (td_kinds b T), He.
      * split; [discriminate | reflexivity].
    + split; [discriminate | reflexivity].
  - intros e He Hu. apply in_app_or in He. destruct He as [He|[<-|[]]].
    + apply in_app_or in He. destruct He as [He|[<-|[]]].
      * apply in_or_app. left. apply in_or_app. left.
        apply (td_pairs b T); assumption.
      * apply in_or_app. right. left. reflexivity.
    + apply in_or_app. left. apply in_or_app. right. left. reflexivity.
Qed.

Lemma tidy_aliasNode b x o k :
  tidy b -> node_id (Viz.nodeIdCounter b) x ->
  tidy (Viz.pushEdge
          (Viz.setAliasNodeId (Viz.pushNode b (mkNode x o column None true)) k x)
          (mkEdge x Viz.mainQueryNodeId flows_to None)).
Proof.
  intros T Hx.
  destruct (tidy_ids_push b (mkNode x o column None true) T Hx) as [N I].
  constructor;
    cbn [Viz.pushEdge Viz.setAliasNodeId Viz.pushNode Viz.b_nodes Viz.b_edges
         Viz.nodeIdCounter].
  - exact N.
  - exact I.
  - intros n Hn Ha. apply in_app_or in Hn. destruct Hn as [Hn|[<-|[]]].
    + apply in_or_app. left. apply (td_alias b T); assumption.
    + apply in_or_app. right. left. reflexivity.
  - intros e He. apply in_app_or in He. destruct He as [He|[<-|[]]].
    + apply (td_kinds b T), He.
    + split; [discriminate | reflexivity].
  - intros e He Hu. apply in_app_or in He. destruct He as [He|[<-|[]]].
    + apply in_or_app. left. apply (td_pairs b T); assumption.
    + discriminate Hu.
Qed.

Lemma tidy_same b b' :
  Viz.b_nodes b' = Viz.b_nodes b -> Viz.b_edges b' = Viz.b_edges b ->
  Viz.nodeIdCounter b' = Viz.nodeIdCounter b -> tidy b -> tidy b'.
Proof.
  intros En Ee Ec [N I A K P]. constructor; rewrite ?En, ?Ee, ?Ec; assumption.
Qed.

Lemma tidy_initial : tidy Viz.initial.
Proof.
  constructor; cbn [Viz.initial Viz.b_nodes Viz.b_edges Viz.nodeIdCounter].
  - constructor; [intros []|constructor].
  - intros x [<-|[]]. left. reflexivity.
  - intros n [<-|[]]. discriminate.
  - intros e [].
  - intros e [].
Qed.

Lemma node_id_table n : node_id n ("table_" +++ Js.of_nat n).
Proof. left. reflexivity. Qed.

Lemma node_id_col n : node_id n ("col_" +++ Js.of_nat n).
Proof. right. left. reflexivity. Qed.

Lemma node_id_alias n : node_id n ("alias_" +++ Js.of_nat n).
Proof. right. right. reflexivity. Qed.

Lemma tidy_setNodeMap b k v : tidy b -> tidy (Viz.setNodeMap b k v).
Proof. apply tidy_same; reflexivity. Qed.

Lemma tidy_setColumnNodeId b k v : tidy b -> tidy (Viz.setColumnNodeId b k v).
Proof. apply tidy_same; reflexivity. Qed.

Lemma tidy_addTable b t : tidy b -> tidy (Viz.addTable b t).
Proof.
  intros T. unfold Viz.addTable.
  apply tidy_setNodeMap.
  apply tidy_pushNode; [exact T | apply node_id_table | reflexivity].
Qed.

Lemma tidy_addQualifiedColumn b q : tidy b -> tidy (Viz.addQualifiedColumn b q).
Proof.
  intros T. unfold Viz.addQualifiedColumn.
  destruct (Dict.has _ _); [exact T|].
  apply tidy_setColumnNodeId.
  apply tidy_pushNode; [exact T | apply node_id_col | reflexivity].
Qed.

Lemma tidy_addSimpleColumn b c : tidy b -> tidy (Viz.addSimpleColumn b c).
Proof.
  intros T. unfold Viz.addSimpleColumn.
  destruct (Dict.has _ _); [exact T|].
  apply tidy_setColumnNodeId.
  apply tidy_pushNode; [exact T | apply node_id_col | reflexivity].
Qed.

Lemma tidy_addStarColumn b : tidy b -> tidy (Viz.addStarColumn b).
Proof.
  intros T. unfold Viz.addStarColumn.
  destruct (Dict.has _ _); [exact T|].
  apply tidy_setColumnNodeId.
  apply tidy_pushNode; [exact T | apply node_id_col | reflexivity].
Qed.

Lemma tidy_addOutputColumn b k : tidy b -> tidy (Viz.addOutputColumn b k).
Proof. apply tidy_same; reflexivity. Qed.

Lemma tidy_addSelected b k : tidy b -> tidy (Viz.addSelected b k).
Proof. apply tidy_same; reflexivity. Qed.

Lemma tidy_setResolvedAlias b k v : tidy b -> tidy (Viz.setResolvedAlias b k v).
Proof. apply tidy_same; reflexivity. Qed.

Lemma tidy_processSelectPart al b part :
  tidy b -> tidy (Viz.processSelectPart al b part).
Proof.
  intros T. unfold Viz.processSelectPart.
  destruct (Re.exec Pat.asAliasRe _) as [m|].
  - apply tidy_addOutputColumn.
    destruct (Viz.refsOf _ al).
    + destruct (Js.truthy _); [|exact T].
      apply tidy_addSelected, tidy_addSimpleColumn, T.
    + apply tidy_addSelected, tidy_setResolvedAlias, T.
  - destruct (Viz.refsOf _ al).
    + destruct (Js.truthy _).
      * apply tidy_addOutputColumn, tidy_addSelected, tidy_addSimpleColumn, T.
      * destruct (String.eqb _ _); [|exact T].
        apply tidy_addStarColumn, tidy_addOutputColumn, T.
    + apply tidy_addOutputColumn, tidy_addSelected, T.
Qed.

Lemma tidy_emitOutputColumn b o : tidy b -> tidy (Viz.emitOutputColumn b o).
Proof.
  intros T. unfold Viz.emitOutputColumn.
  destruct (_ && negb (Dict.has (Viz.aliasNodeIdMap b) o)).
  - apply tidy_aliasNode; [exact T | apply node_id_alias].
  - destruct (_ && negb (Js.arr_includes _ o)).
    + destruct (Viz.getId _ o); [|exact T].
      apply tidy_pushEdge; [exact T|discriminate|discriminate|reflexivity].
    + destruct (_ && Dict.has _ "*"); [|exact T].
      destruct (Dict.get _ "*"); [|exact T].
      apply tidy_pushEdge; [exact T|discriminate|discriminate|reflexivity].
Qed.

Lemma tidy_emitProvides b entry : tidy b -> tidy (Viz.emitProvides b entry).
Proof.
  intros T. destruct entry as [tn cols]. unfold Viz.emitProvides.
  destruct (Viz.getId _ _) as [tid|]; [|exact T].
  apply fold_left_inv; [|exact T]. intros b' c T'.
  destruct (Viz.getId _ _); [|exact T'].
  apply tidy_pushEdge; [exact T'|discriminate|discriminate|reflexivity].
Qed.

Lemma tidy_emitSelectedFlow b q : tidy b -> tidy (Viz.emitSelectedFlow b q).
Proof.
  intros T. unfold Viz.emitSelectedFlow.
  destruct (Viz.getId (Viz.columnNodeIdMap b) q); [|exact T].
  destruct (Js.truthy _).
  - destruct (Viz.getId _ _); [|exact T].
    apply tidy_pushEdge; [exact T|discriminate|discriminate|reflexivity].
  - destruct (_ || _); [|exact T].
    destruct (Viz.linked _ _ _ _); [exact T|].
    apply tidy_pushEdge; [exact T|discriminate|discriminate|reflexivity].
Qed.

Lemma tidy_emitJoin b cond : tidy b -> tidy (Viz.emitJoin b cond).
Proof.
  intros T. destruct cond as [l r]. unfold Viz.emitJoin.
  destruct (_ && _); [|exact T].
  destruct (Viz.getId _ (Js.toLowerCase l)) as [lid|]; [|exact T].
  destruct (Viz.getId _ (Js.toLowerCase r)) as [rid|]; [|exact T].
  apply (tidy_pushJoin b lid rid T).
Qed.

Lemma tidy_emitWhere sql al b : tidy b -> tidy (Viz.emitWhere sql al b).
Proof.
  intros T. unfold Viz.emitWhere.
  destruct (Re.exec _ _); [|exact T].
  destruct (Js.truthy _); [|exact T].
  apply fold_left_inv; [|exact T]. intros b' q T'. unfold Viz.emitConstraint.
  destruct (Viz.getId _ _); [|exact T'].
  apply tidy_pushEdge; [exact T'|discriminate|discriminate|reflexivity].
Qed.

Lemma tidy_emitModifies kw re sql b :
  tidy b -> tidy (Viz.emitModifies kw re sql b).
Proof.
  intros T. unfold Viz.emitModifies.
  destruct (Js.includes _ _); [|exact T].
  destruct (Re.exec _ _); [|exact T].
  destruct (Viz.getId _ _); [|exact T].
  apply tidy_pushEdge; [exact T|discriminate|discriminate|reflexivity].
Qed.

(** The builder state behind every graph is tidy. *)
Lemma generate_tidy sql pr :
  exists b, tidy b /\
            Viz.generateVisualizationData sql pr
            = mkGraph (Viz.b_nodes b) (Viz.b_edges b).
Proof.
  unfold Viz.generateVisualizationData.
  destruct (Viz.extractTableColumnReferences sql _ _ _) as [tcr qs].
  eexists. split; [|reflexivity].
  repeat first
    [ apply tidy_emitModifies
    | apply tidy_emitWhere
    | apply fold_left_inv;
      [ intros;
        first [ apply tidy_emitJoin | apply tidy_emitSelectedFlow
              | apply tidy_emitProvides | apply tidy_emitOutputColumn
              | apply tidy_processSelectPart | apply tidy_addQualifiedColumn
              | apply tidy_addTable ]; assumption
      | ] ].
  apply tidy_initial.
Qed.

(** X1. In every graph of [generateVisualizationData] the node ids are
    pairwise distinct. *)
Theorem node_ids_are_unique :
  forall (sql : string) (pr : Parser.parse_result),
    NoDup (ids (nodes (Viz.generateVisualizationData sql pr))).
Proof.
  intros sql pr. destruct (generate_tidy sql pr) as [b [T ->]]. apply T.
Qed.

(** X2. Every alias node of a generated graph has a flows_to edge into the
    query node. *)
Theorem alias_nodes_flow_to_query :
  forall (sql : string) (pr : Parser.parse_result),
    let g := Viz.generateVisualizationData sql pr in
    Forall (fun n => isAlias n = false \/
                     In (mkEdge (id n) "query_main" flows_to None) (edges g))
           (nodes g).
Proof.
  intros sql pr g. subst g. destruct (generate_tidy sql pr) as [b [T ->]].
  apply Forall_forall. intros n Hn. cbn [nodes edges] in *.
  destruct (isAlias n) eqn:A; [right|left; reflexivity].
  apply (td_alias b T n Hn A).
Qed.

(** X3. A generated graph has no sources edge; an edge is labelled exactly
    when it is a uses edge, and then with [on_join]; and every uses edge
    has its mirror image among the edges. *)
Theorem edge_kinds_and_join_pairs :
  forall (sql : string) (pr : Parser.parse_result),
    let g := Viz.generateVisualizationData sql pr in
    Forall (fun e =>
              etype e <> sources /\
              label e = (if edge_type_eqb (etype e) uses
                         then Some "on_join" else None) /\
              (etype e <> uses \/
               In (mkEdge (target e) (source e) uses (Some "on_join")) (edges g)))
           (edges g).
Proof.
  intros sql pr g. subst g. destruct (generate_tidy sql pr) as [b [T ->]].
  apply Forall_forall. intros e He. cbn [edges] in *.
  destruct (td_kinds b T e He) as [Hs Hl]. split; [exact Hs|]. split; [exact Hl|].
  destruct (etype e) eqn:E; try (left; discriminate).
  right. apply (td_pairs b T e He E).
Qed.

(** ** Tables and aliases *)

Lemma fold_left_matches {A} (Q : A -> Prop) (f : A -> Re.result -> A) r s :
  (forall pos' s' m a, Re.at_pos r pos' s' = Some m -> Q a -> Q (f a m)) ->
  forall a, Q a -> Q (fold_left f (Re.exec_all r s) a).
Proof.
  intros Hf. pose proof (exec_all_at r s) as J. revert J.
  generalize (Re.exec_all r s) as l.
  induction l as [|m l IH]; intros J a Ha; simpl; [exact Ha|].
  inversion J as [|? ? [pos' [s' Hm]] Hl]; subst.
  apply IH; [exact Hl|]. eapply Hf; eassumption.
Qed.

Lemma lower_char_idem a : Js.lower_char (Js.lower_char a) = Js.lower_char a.
Proof. destruct a as [[] [] [] [] [] [] [] []]; reflexivity. Qed.

Lemma toLowerCase_idem s : Js.toLowerCase (Js.toLowerCase s) = Js.toLowerCase s.
Proof.
  unfold Js.toLowerCase. induction s as [|a s IH]; simpl; [reflexivity|].
  rewrite lower_char_idem, IH. reflexivity.
Qed.

Lemma Forall_set {V} (P : string * V -> Prop) m k v :
  Forall P m -> P (k, v) -> Forall P (Dict.set m k v).
Proof.
  intros Hm Hk. induction m as [|[k0 v0] m IH]; simpl.
  - constructor; [exact Hk|constructor].
  - inversion Hm as [|? ? H0 Hm']; subst.
    destruct (String.eqb k0 k) eqn:E.
    + apply String.eqb_eq in E. subst k0. constructor; assumption.
    + constructor; [assumption|]. apply IH, Hm'.
Qed.

Lemma set_keys {V} (m : Dict.t V) k v x :
  In x (map fst (Dict.set m k v)) -> x = k \/ In x (map fst m).
Proof.
  induction m as [|[k0 v0] m IH]; simpl.
  - intros [<-|[]]. auto.
  - destruct (String.eqb k0 k); simpl; intros [<-|H]; auto.
    destruct (IH H); auto.
Qed.

Lemma NoDup_set {V} (m : Dict.t V) k v :
  NoDup (map fst m) -> NoDup (map fst (Dict.set m k v)).
Proof.
  induction m as [|[k0 v0] m IH]; simpl; intros H.
  - constructor; [intros []|constructor].
  - inversion H as [|? ? Hk Hm]; subst.
    destruct (String.eqb k0 k) eqn:E; simpl.
    + constructor; assumption.
    + constructor; [|apply IH, Hm].
      intros Hin. apply set_keys in Hin. destruct Hin as [->|Hin]; [|auto].
      rewrite String.eqb_refl in E. discriminate.
Qed.

Lemma tableRef_capture P R pos s m :
  binds R 1 = false ->
  Re.at_pos (Re.Seq P (Re.Seq Re.ws1 (Re.Seq (Re.Grp 1 Pat.tableRef) R))) pos s
    = Some m ->
  is_ident (Parser.dropSchema (Pat.cap m 1)) = true.
Proof.
  intros HR H. apply dropSchema_ident. eapply capture_is_text; eassumption.
Qed.

Lemma aliasEntry_keeps (P : string * string -> Prop) acc m :
  Forall P acc ->
  P (Js.toLowerCase (Js.or_else (Pat.cap_opt m 2) (Parser.dropSchema (Pat.cap m 1))),
     Parser.dropSchema (Pat.cap m 1)) ->
  Forall P (Viz.aliasEntry acc m).
Proof. intros Ha Hp. unfold Viz.aliasEntry. apply Forall_set; assumption. Qed.

(** X4. Every entry of the alias map of [extractTableAliases] has a
    lower-case key and an identifier as table name (not empty, no dot, the
    schema dropped), and no key occurs twice. *)
Theorem alias_map_is_lower_case :
  forall sql : string,
    Forall (fun kv => Js.toLowerCase (fst kv) = fst kv /\
                      is_ident (snd kv) = true)
           (Viz.extractTableAliases sql)
    /\ NoDup (map fst (Viz.extractTableAliases sql)).
Proof.
  intros sql. unfold Viz.extractTableAliases.
  set (P := fun kv : string * string =>
              Js.toLowerCase (fst kv) = fst kv /\ is_ident (snd kv) = true).
  assert (Hfrom : forall pos s m, Re.at_pos Pat.fromAliasRe pos s = Some m ->
            forall acc, Forall P acc -> Forall P (Viz.aliasEntry acc m)).
  { intros pos s m H acc Ha. apply aliasEntry_keeps; [exact Ha|].
    split; [apply toLowerCase_idem|].
    eapply tableRef_capture; [|exact H]. reflexivity. }
  assert (Hjoin : forall pos s m, Re.at_pos Pat.joinAliasRe pos s = Some m ->
            forall acc, Forall P acc -> Forall P (Viz.aliasEntry acc m)).
  { intros pos s m H acc Ha. apply aliasEntry_keeps; [exact Ha|].
    split; [apply toLowerCase_idem|].
    eapply tableRef_capture; [|exact H]. reflexivity. }
  set (Q := fun m : Dict.t string => Forall P m /\ NoDup (map fst m)).
  change (Q (fold_left Viz.aliasEntry (Re.exec_all Pat.joinAliasRe sql)
               match Re.exec Pat.fromAliasRe sql with
               | Some fromMatch => Viz.aliasEntry [] fromMatch
               | None => []
               end)).
  apply fold_left_matches.
  - intros pos s m acc Hm [Ha Hn]. split.
    + eapply Hjoin; eauto.
    + apply NoDup_set, Hn.
  - destruct (Re.exec Pat.fromAliasRe sql) as [m|] eqn:E.
    + split.
      * destruct (exec_at _ _ _ E) as [pos [s H]]. eapply Hfrom; eauto.
      * apply NoDup_set. constructor.
    + split; constructor.
Qed.

Lemma NoDup_pushUnique l x : NoDup l -> NoDup (Parser.pushUnique l x).
Proof.
  intros H. unfold Parser.pushUnique.
  destruct (Js.arr_includes l x) eqn:E; [exact H|].
  apply NoDup_snoc; [exact H|]. intros Hin.
  apply arr_includes_in in Hin. rewrite Hin in E. discriminate.
Qed.

Lemma Forall_pushUnique (P : string -> Prop) l x :
  Forall P l -> P x -> Forall P (Parser.pushUnique l x).
Proof.
  intros Hl Hx. unfold Parser.pushUnique.
  destruct (Js.arr_includes l x); [exact Hl|].
  apply Forall_app. split; [exact Hl|]. constructor; [exact Hx|constructor].
Qed.

Lemma NoDup_fold_pushUnique l : forall acc,
  NoDup acc -> NoDup (fold_left Parser.pushUnique l acc).
Proof.
  induction l as [|x l IH]; intros acc H; simpl; [exact H|].
  apply IH, NoDup_pushUnique, H.
Qed.

Lemma NoDup_unique l : NoDup (Sample.unique l).
Proof. apply NoDup_fold_pushUnique. constructor. Qed.

(** X5. The tables that [parseSQL] reports are pairwise distinct, and each
    is an identifier: not empty and without a dot, the schema being
    dropped. *)
Theorem parsed_tables_are_distinct_identifiers :
  forall sqlQuery : string,
    NoDup (Parser.tables (Parser.parseSQL sqlQuery)) /\
    Forall (fun t => is_ident t = true)
           (Parser.tables (Parser.parseSQL sqlQuery)).
Proof.
  intros sqlQuery. cbn [Parser.parseSQL Parser.tables].
  generalize (Parser.normalize sqlQuery) as sql. intros sql.
  unfold Parser.extractTables.
  set (Q := fun l : list string =>
              NoDup l /\ Forall (fun t => is_ident t = true) l).
  match goal with |- NoDup ?l /\ _ => change (Q l) end.
  apply (fold_left_matches Q).
  - intros pos s m acc Hm [Hn Hf]. split.
    + apply NoDup_pushUnique, Hn.
    + apply Forall_pushUnique; [exact Hf|].
      eapply (tableRef_capture _ Re.Eps); [|exact Hm]. reflexivity.
  - destruct (Re.exec Pat.fromRe sql) as [m|] eqn:E.
    + destruct (exec_at _ _ _ E) as [pos [s H]]. split.
      * apply NoDup_pushUnique. constructor.
      * apply Forall_pushUnique; [constructor|].
        eapply (tableRef_capture _ Re.Eps); [|exact H]. reflexivity.
    + split; constructor.
Qed.

(** ** Normalisation, reserved words, blank input *)

Lemma single_spaced_collapse t : forall r,
  single_spaced r t = true -> Parser.collapse_ws r t = t.
Proof.
  induction t as [|a t IH]; intros r; simpl; [reflexivity|].
  destruct (Js.is_space a) eqn:Ea.
  - intros H. apply andb_true_iff in H. destruct H as [H Ht].
    apply andb_true_iff in H. destruct H as [Hsp Hr].
    destruct r; [discriminate|]. apply Ascii.eqb_eq in Hsp. subst a.
    rewrite (IH true Ht). reflexivity.
  - intros H. rewrite (IH false H). reflexivity.
Qed.

Lemma single_spaced_trimEnd t : forall r,
  single_spaced r t = true -> Js.trimEnd t = t.
Proof.
  induction t as [|a t IH]; intros r; simpl; [reflexivity|].
  destruct (Js.is_space a) eqn:Ea.
  - intros H. apply andb_true_iff in H. destruct H as [_ Ht].
    rewrite (IH true Ht). destruct t; [discriminate Ht|reflexivity].
  - intros H. rewrite (IH false H). reflexivity.
Qed.

Lemma normal_form_fixed t : normal_form t = true -> Parser.normalize t = t.
Proof.
  unfold normal_form, Parser.normalize, Js.trim.
  destruct t as [|a t]; [reflexivity|]. cbn [Js.is_empty orb].
  intros H. assert (Ha : Js.is_space a = false).
  { simpl in H. destruct (Js.is_space a); [|reflexivity].
    rewrite andb_false_r in H. discriminate. }
  cbn [Js.trimStart]. rewrite Ha.
  rewrite (single_spaced_trimEnd _ _ H).
  cbn [Parser.collapse_ws]. rewrite Ha. f_equal.
  apply single_spaced_collapse. simpl in H. rewrite Ha in H. exact H.
Qed.

(** X6. Normalising twice is normalising once: the text that [parseSQL]
    works on is a fixed point of its normalisation. *)
Theorem normalization_is_idempotent :
  forall sqlQuery : string,
    Parser.cleanQuery (Parser.parseSQL (Parser.cleanQuery (Parser.parseSQL sqlQuery)))
    = Parser.cleanQuery (Parser.parseSQL sqlQuery).
Proof.
  intros sqlQuery. cbn [Parser.parseSQL Parser.cleanQuery].
  apply normal_form_fixed, normalize_normal_form.
Qed.

Lemma upper_lower_char a : Js.upper_char (Js.lower_char a) = Js.upper_char a.
Proof. destruct a as [[] [] [] [] [] [] [] []]; reflexivity. Qed.

Lemma upper_char_idem a : Js.upper_char (Js.upper_char a) = Js.upper_char a.
Proof. destruct a as [[] [] [] [] [] [] [] []]; reflexivity. Qed.

Lemma upper_lower s : Js.toUpperCase (Js.toLowerCase s) = Js.toUpperCase s.
Proof.
  unfold Js.toUpperCase, Js.toLowerCase.
  induction s as [|a s IH]; simpl; [reflexivity|].
  rewrite upper_lower_char, IH. reflexivity.
Qed.

Lemma toUpperCase_idem s : Js.toUpperCase (Js.toUpperCase s) = Js.toUpperCase s.
Proof.
  unfold Js.toUpperCase. induction s as [|a s IH]; simpl; [reflexivity|].
  rewrite upper_char_idem, IH. reflexivity.
Qed.

(** X7. [isSQLKeyword] does not look at letter case: a word, its
    lower-case form and its upper-case form get the same answer. *)
Theorem keyword_test_ignores_case :
  forall word : string,
    isSQLKeyword (Js.toLowerCase word) = isSQLKeyword word /\
    isSQLKeyword (Js.toUpperCase word) = isSQLKeyword word.
Proof.
  intros word. unfold isSQLKeyword.
  rewrite upper_lower, toUpperCase_idem. auto.
Qed.

Lemma strip_empty_trim s : strip_ws s = EmptyString -> Js.trim s = EmptyString.
Proof.
  intros H. pose proof (trim_head s) as Hh.
  assert (E : strip_ws (Js.trim s) = EmptyString).
  { unfold Js.trim. rewrite strip_trimEnd, strip_trimStart. exact H. }
  destruct (Js.trim s) as [|a t]; [reflexivity|].
  simpl in E. rewrite Hh in E. discriminate.
Qed.

(** The no-break space counts as white space, as it does for [trim] and
    [\s] of JavaScript: a text of such spaces is blank. *)
Example no_break_space_is_blank :
  Js.trim (String (ascii_of_nat 160) (String (ascii_of_nat 160) "")) = ""
  /\ Viz.parseSQLAndVisualize (String (ascii_of_nat 160) " ") = None.
Proof. split; reflexivity. Qed.

(** X8. For a text that names no member inherited from
    [Object.prototype], [parseSQLAndVisualize] builds no graph, and
    reports an error, exactly when the text holds nothing but white
    space. *)
Theorem blank_input_is_rejected :
  forall value : string,
    ordinary value = true ->
    (Viz.parseSQLAndVisualize value = None <-> strip_ws value = EmptyString).
Proof.
  intros value _. unfold Viz.parseSQLAndVisualize. split.
  - destruct (Js.is_empty (Js.trim value)) eqn:E; [|discriminate].
    intros _. destruct (Js.trim value) as [|a t] eqn:T; [|discriminate].
    rewrite <- (strip_trimStart value), <- (strip_trimEnd (Js.trimStart value)).
    fold (Js.trim value). rewrite T. reflexivity.
  - intros H. rewrite (strip_empty_trim _ H). reflexivity.
Qed.

Lemma blank_input_is_rejected_witness :
  ordinary "   " = true /\
  (Viz.parseSQLAndVisualize "   " = None <-> strip_ws "   " = EmptyString).
Proof.
  split; [reflexivity|]. apply blank_input_is_rejected. reflexivity.
Defined.

(** ** Splitting the select list *)

Lemma splitLoop_trimmed chars : forall current parenCount parts,
  Forall (fun p => Js.trim p = p) parts ->
  Forall (fun p => Js.trim p = p)
         (Parser.splitLoop chars current parenCount parts).
Proof.
  induction chars as [|char rest IH]; intros current parenCount parts H;
    cbn [Parser.splitLoop].
  - destruct (Js.is_empty (Js.trim current)); [exact H|].
    apply Forall_app. split; [exact H|].
    constructor; [apply trim_idem|constructor].
  - destruct (Ascii.eqb char "("); [apply IH, H|].
    destruct (Ascii.eqb char ")"); [apply IH, H|].
    destruct (Ascii.eqb char "," && Z.eqb parenCount 0); [|apply IH, H].
    apply IH. apply Forall_app. split; [exact H|].
    constructor; [apply trim_idem|constructor].
Qed.

Lemma splitLoop_parts chars : forall current parenCount p q,
  Parser.splitLoop chars current parenCount (p ++ q)
  = p ++ Parser.splitLoop chars current parenCount q.
Proof.
  induction chars as [|char rest IH]; intros current parenCount p q;
    cbn [Parser.splitLoop].
  - destruct (Js.is_empty (Js.trim current)); [reflexivity|].
    rewrite app_assoc. reflexivity.
  - destruct (Ascii.eqb char "("); [apply IH|].
    destruct (Ascii.eqb char ")"); [apply IH|].
    destruct (Ascii.eqb char "," && Z.eqb parenCount 0); [|apply IH].
    rewrite <- app_assoc. apply IH.
Qed.

Lemma splitLoop_reads x : forall rest current d d' parts,
  depthAfter x d = Some d' ->
  Parser.splitLoop (x +++ rest) current d parts
  = Parser.splitLoop rest (current +++ x) d' parts.
Proof.
  induction x as [|a x IH]; intros rest current d d' parts H.
  - simpl in H. injection H as <-. rewrite append_nil_r. reflexivity.
  - cbn [String.append Parser.splitLoop]. cbn [depthAfter] in H.
    replace (current +++ String a x)
      with ((current +++ String a EmptyString) +++ x)
      by (rewrite append_assoc_str; reflexivity).
    destruct (Ascii.eqb a "("); [apply IH, H|].
    destruct (Ascii.eqb a ")"); [apply IH, H|].
    destruct (Ascii.eqb a "," && Z.eqb d 0); [discriminate|].
    apply IH, H.
Qed.

(** X9. Every part that [splitSelectClause] returns is trimmed: it neither
    starts nor ends with white space. *)
Theorem split_parts_are_trimmed :
  forall selectClause : string,
    Forall (fun part => Js.trim part = part)
           (Parser.splitSelectClause selectClause).
Proof.
  intros selectClause. apply splitLoop_trimmed. constructor.
Qed.

(** X10. [splitSelectClause] splits at a comma that stands outside
    parentheses: when the text [x] before the comma has no comma at
    parenthesis count zero and brings the count back to zero, the first
    part is [x] trimmed and the rest is split on its own. *)
Theorem split_at_top_level_comma :
  forall x rest : string,
    depthAfter x 0 = Some 0%Z ->
    Parser.splitSelectClause (x +++ "," +++ rest)
    = Js.trim x :: Parser.splitSelectClause rest.
Proof.
  intros x rest H. unfold Parser.splitSelectClause.
  rewrite (splitLoop_reads x _ _ _ _ _ H).
  cbn [String.append Parser.splitLoop Ascii.eqb Bool.eqb andb Z.eqb].
  apply (splitLoop_parts rest EmptyString 0%Z [Js.trim x] []).
Qed.

Lemma split_at_top_level_comma_witness :
  depthAfter "COUNT(a, b) AS n " 0 = Some 0%Z /\
  Parser.splitSelectClause ("COUNT(a, b) AS n " +++ "," +++ " c")
  = Js.trim "COUNT(a, b) AS n " :: Parser.splitSelectClause " c".
Proof.
  split; [reflexivity|]. apply split_at_top_level_comma. reflexivity.
Defined.

(** X11. Text without a comma at parenthesis count zero is not split:
    [splitSelectClause] returns it trimmed as the only part, or no part
    when it is blank; an unbalanced parenthesis does not change this. *)
Theorem split_without_top_level_comma :
  forall (x : string) (d : Z),
    depthAfter x 0 = Some d ->
    Parser.splitSelectClause x
    = if Js.is_empty (Js.trim x) then [] else [Js.trim x].
Proof.
  intros x d H. unfold Parser.splitSelectClause.
  rewrite <- (append_nil_r x) at 1.
  rewrite (splitLoop_reads x _ _ _ _ _ H). reflexivity.
Qed.

Lemma split_without_top_level_comma_witness :
  depthAfter "COALESCE(a, b))" 0 = Some (-1)%Z /\
  Parser.splitSelectClause "COALESCE(a, b))"
  = if Js.is_empty (Js.trim "COALESCE(a, b))") then []
    else [Js.trim "COALESCE(a, b))"].
Proof.
  split; [reflexivity|].
  apply (split_without_top_level_comma _ (-1)%Z). reflexivity.
Defined.

(** ** The references map and the array of qualified names *)

Lemma in_set_inv {V} (m : Dict.t V) k v t c :
  In (t, c) (Dict.set m k v) -> (t = k /\ c = v) \/ In (t, c) m.
Proof.
  induction m as [|[k0 v0] m IH]; simpl.
  - intros [[= <- <-]|[]]. auto.
  - destruct (String.eqb k0 k) eqn:E; simpl.
    + apply String.eqb_eq in E. subst k0.
      intros [[= <- <-]|H]; auto.
    + intros [H|H]; [auto|]. destruct (IH H); auto.
Qed.

Lemma in_set_new {V} (m : Dict.t V) k v : In (k, v) (Dict.set m k v).
Proof.
  induction m as [|[k0 v0] m IH]; simpl; [auto|].
  destruct (String.eqb k0 k) eqn:E; simpl; [|auto].
  apply String.eqb_eq in E. subst k0. auto.
Qed.

Lemma in_set_old {V} (m : Dict.t V) k v t c :
  In (t, c) m -> t <> k -> In (t, c) (Dict.set m k v).
Proof.
  intros H Hk. induction m as [|[k0 v0] m IH]; simpl; [destruct H|].
  destruct H as [[= -> ->]|H].
  - destruct (String.eqb t k) eqn:E; simpl; [|auto].
    apply String.eqb_eq in E. contradiction.
  - destruct (String.eqb k0 k); simpl; auto.
Qed.

Lemma in_get {V} (m : Dict.t V) k v :
  NoDup (map fst m) -> In (k, v) m -> Dict.get m k = Some v.
Proof.
  induction m as [|[k0 v0] m IH]; simpl; intros Hn H; [destruct H|].
  inversion Hn as [|? ? Hk Hm]; subst.
  destruct H as [[= -> ->]|H].
  - rewrite String.eqb_refl. reflexivity.
  - destruct (String.eqb k0 k) eqn:E; [|apply IH; assumption].
    apply String.eqb_eq in E. subst k0. exfalso. apply Hk.
    apply (in_map fst) in H. exact H.
Qed.

(** One reference [t.c] added to a consistent pair. *)
Lemma consistent_add tcm names t c :
  consistent tcm names ->
  consistent
    (match Dict.get tcm t with
     | Some cols =>
         if Js.arr_includes cols c then tcm else Dict.set tcm t (cols ++ [c])
     | None => Dict.set (Dict.set tcm t []) t [c]
     end)
    (Parser.pushUnique names (t +++ "." +++ c)).
Proof.
  intros [Hn Hk Hc Hl Hm].
  destruct (Dict.get tcm t) as [cols|] eqn:G.
  - pose proof (get_in _ _ _ G) as Hin.
    destruct (Js.arr_includes cols c) eqn:I.
    + apply arr_includes_in in I. constructor; auto.
      * apply NoDup_pushUnique, Hn.
      * intros t0 cols0 c0 H1 H2. apply pushUnique_keeps. eauto.
      * intros q Hq. unfold Parser.pushUnique in Hq.
        destruct (Js.arr_includes names (t +++ "." +++ c)); [auto|].
        apply in_app_or in Hq. destruct Hq as [Hq|[<-|[]]]; [auto|].
        exists t, cols, c. auto.
    + assert (Hnot : ~ In c cols).
      { intros H. apply arr_includes_in in H. rewrite H in I. discriminate. }
      constructor.
      * apply NoDup_pushUnique, Hn.
      * apply NoDup_set, Hk.
      * apply Forall_set; [exact Hc|]. simpl. apply NoDup_snoc; [|exact Hnot].
        rewrite Forall_forall in Hc. apply (Hc _ Hin).
      * intros t0 cols0 c0 H1 H2. apply in_set_inv in H1.
        destruct H1 as [[-> ->]|H1].
        -- apply in_app_or in H2. destruct H2 as [H2|[<-|[]]].
           ++ apply pushUnique_keeps. eauto.
           ++ apply pushUnique_has.
        -- apply pushUnique_keeps. eauto.
      * intros q Hq.
        assert (Hq' : In q names \/ q = t +++ "." +++ c).
        { unfold Parser.pushUnique in Hq.
          destruct (Js.arr_includes names (t +++ "." +++ c)); [auto|].
          apply in_app_or in Hq. destruct Hq as [Hq|[<-|[]]]; auto. }
        destruct Hq' as [Hq'| ->].
        -- destruct (Hm q Hq') as [t0 [cols0 [c0 [H1 [H2 ->]]]]].
           destruct (string_dec t0 t) as [->|Ht].
           ++ rewrite (in_get _ _ _ Hk H1) in G. injection G as ->.
              exists t, (cols ++ [c]), c0. split; [apply in_set_new|].
              split; [apply in_or_app; auto|reflexivity].
           ++ exists t0, cols0, c0. split; [apply in_set_old; assumption|].
              auto.
        -- exists t, (cols ++ [c]), c. split; [apply in_set_new|].
           split; [apply in_or_app; simpl; auto|reflexivity].
  - assert (Hfree : forall cols, ~ In (t, cols) tcm).
    { intros cols H. rewrite (in_get _ _ _ Hk H) in G. discriminate. }
    constructor.
    + apply NoDup_pushUnique, Hn.
    + apply NoDup_set, NoDup_set, Hk.
    + apply Forall_set; [apply Forall_set; [exact Hc|]|]; simpl.
      * constructor.
      * constructor; [intros []|constructor].
    + intros t0 cols0 c0 H1 H2. apply in_set_inv in H1.
      destruct H1 as [[-> ->]|H1].
      * destruct H2 as [<-|[]]. apply pushUnique_has.
      * apply in_set_inv in H1. destruct H1 as [[-> ->]|H1]; [destruct H2|].
        apply pushUnique_keeps. eauto.
    + intros q Hq.
      assert (Hq' : In q names \/ q = t +++ "." +++ c).
      { unfold Parser.pushUnique in Hq.
        destruct (Js.arr_includes names (t +++ "." +++ c)); [auto|].
        apply in_app_or in Hq. destruct Hq as [Hq|[<-|[]]]; auto. }
      destruct Hq' as [Hq'| ->].
      * destruct (Hm q Hq') as [t0 [cols0 [c0 [H1 [H2 ->]]]]].
        exists t0, cols0, c0. split; [|auto].
        assert (Ht : t0 <> t) by (intros ->; exact (Hfree _ H1)).
        apply in_set_old; [|exact Ht]. apply in_set_old; assumption.
      * exists t, [c], c. split; [apply in_set_new|]. simpl. auto.
Qed.

Lemma recordReference_consistent tableAliases tcm names m :
  consistent tcm names ->
  exists tcm' names',
    Viz.recordReference tableAliases (Some tcm, names) m = (Some tcm', names')
    /\ consistent tcm' names'.
Proof.
  intros H. unfold Viz.recordReference. cbn [fst snd].
  set (t := Js.or_else
              (Dict.get tableAliases (Js.toLowerCase (Js.trim (Pat.cap m 1))))
              (Js.trim (Pat.cap m 1))).
  set (c := Js.trim (Pat.cap m 2)).
  eexists _, _. split; [reflexivity|].
  pose proof (consistent_add tcm names t c H) as A.
  destruct (Dict.get tcm t) as [cols|] eqn:G.
  - rewrite G. exact A.
  - rewrite get_set, String.eqb_refl. cbn [Js.arr_includes existsb].
    exact A.
Qed.

(** X12. [extractTableColumnReferences] keeps its two results in step: when
    the map from tables to columns and the array of qualified names hold
    the same references, each once, they still do after the references of
    an expression are added, and the map is still present. *)
Theorem references_map_matches_names :
  forall expression tableAliases tableColumnMap qualifiedNamesArray,
    consistent tableColumnMap qualifiedNamesArray ->
    exists tcm' names',
      Viz.extractTableColumnReferences expression tableAliases
        (Some tableColumnMap) qualifiedNamesArray = (Some tcm', names')
      /\ consistent tcm' names'.
Proof.
  intros expression tableAliases tcm names H.
  unfold Viz.extractTableColumnReferences.
  revert tcm names H.
  induction (Re.exec_all Pat.tableColumnRe expression) as [|m ms IH];
    intros tcm names H; simpl.
  - exists tcm, names. auto.
  - destruct (recordReference_consistent tableAliases tcm names m H)
      as [tcm' [names' [E H']]].
    rewrite E. apply IH, H'.
Qed.

Lemma consistent_empty : consistent [] [].
Proof.
  constructor; try constructor.
  - intros t cols c [].
  - intros q [].
Qed.

Lemma references_map_matches_names_witness :
  consistent [] [] /\
  exists tcm' names',
    Viz.extractTableColumnReferences "SELECT u.id, o.total, U.id FROM users u"
      [("u", "users")] (Some []) [] = (Some tcm', names')
    /\ consistent tcm' names'.
Proof.
  split; [exact consistent_empty|].
  apply references_map_matches_names. exact consistent_empty.
Defined.

(** ** Labels and the details panel *)

Lemma substring0_length s : forall n, String.length (String.substring 0 n s) <= n.
Proof.
  induction s as [|a s IH]; intros [|n]; simpl; try lia.
  specialize (IH n). lia.
Qed.

(** X13. A label made by [truncateText] is never empty and never longer
    than the limit plus the three dots, the word [Unnamed] for a missing
    or empty text apart. *)
Theorem truncated_label_is_short :
  forall (text : option string) (maxLength : nat),
    Panel.truncateText text maxLength <> EmptyString /\
    String.length (Panel.truncateText text maxLength)
      <= Nat.max 7 (maxLength + 3).
Proof.
  intros text maxLength. unfold Panel.truncateText.
  destruct text as [[|a t]|]; cbn [Js.truthy Js.is_empty negb Js.or_else].
  - split; [discriminate|]. cbn [String.length]. lia.
  - destruct (Nat.ltb maxLength (String.length (String a t))) eqn:E.
    + split.
      * intros H. apply (f_equal String.length) in H.
        rewrite append_length_str in H. cbn [String.length] in H. lia.
      * rewrite append_length_str.
        pose proof (substring0_length (String a t) maxLength).
        change (String.length "...") with 3. lia.
    + apply Nat.ltb_ge in E. split; [discriminate|]. lia.
  - split; [discriminate|]. cbn [String.length]. lia.
Qed.

Lemma nodeMapOf_snoc ns n :
  Panel.nodeMapOf (ns ++ [n]) = Dict.set (Panel.nodeMapOf ns) (id n) n.
Proof. unfold Panel.nodeMapOf. rewrite fold_left_app. reflexivity. Qed.

Lemma nodeMapOf_get ns : forall x,
  In x (ids ns) ->
  exists n, In n ns /\ id n = x /\ Dict.get (Panel.nodeMapOf ns) x = Some n.
Proof.
  induction ns as [|n ns IH] using rev_ind; intros x Hx; [destruct Hx|].
  rewrite nodeMapOf_snoc, get_set.
  destruct (String.eqb (id n) x) eqn:E.
  - apply String.eqb_eq in E. exists n. split; [|auto].
    apply in_or_app. simpl. auto.
  - unfold ids in Hx. rewrite map_app in Hx. apply in_app_or in Hx.
    destruct Hx as [Hx|[Hx|[]]].
    + destruct (IH x Hx) as [n' [H1 [H2 H3]]]. exists n'.
      split; [apply in_or_app; auto|auto].
    + rewrite Hx, String.eqb_refl in E. discriminate.
Qed.

(** X14. In the Relationships list of the details panel every end of
    every edge of a generated graph is shown by the name of a node of the
    graph, with the mark of an alias where it is one: [getNodeName] never
    falls back to the bare id. *)
Theorem edge_ends_are_shown_by_name :
  forall (sql : string) (pr : Parser.parse_result),
    let data := Viz.generateVisualizationData sql pr in
    Forall (fun e =>
              exists s t,
                In s (nodes data) /\ id s = source e /\
                Panel.getNodeName data (source e)
                  = name s +++ (if isAlias s then " (Alias)" else "") /\
                In t (nodes data) /\ id t = target e /\
                Panel.getNodeName data (target e)
                  = name t +++ (if isAlias t then " (Alias)" else ""))
           (edges data).
Proof.
  intros sql pr data. subst data. apply Forall_forall. intros e He.
  destruct (generate_closed sql pr e He) as [Hs Ht].
  destruct (nodeMapOf_get _ _ Hs) as [s [S1 [S2 S3]]].
  destruct (nodeMapOf_get _ _ Ht) as [t [T1 [T2 T3]]].
  exists s, t. unfold Panel.getNodeName. rewrite S3, T3. auto 10.
Qed.

Lemma count_app p a b : Panel.count p (a ++ b) = Panel.count p a + Panel.count p b.
Proof. unfold Panel.count. rewrite filter_app, length_app. reflexivity. Qed.

Lemma count_all p l :
  Forall (fun n => p n = true) l -> Panel.count p l = List.length l.
Proof.
  unfold Panel.count. induction 1 as [|n l Hn Hl IH]; simpl; [reflexivity|].
  rewrite Hn. simpl. rewrite IH. reflexivity.
Qed.

Lemma count_none p l :
  Forall (fun n => p n = false) l -> Panel.count p l = 0.
Proof.
  unfold Panel.count. induction 1 as [|n l Hn Hl IH]; simpl; [reflexivity|].
  rewrite Hn. exact IH.
Qed.

(** X15. The Summary of the details panel for a generated graph: it is
    always shown, it counts one query and as many tables as the parser
    reported, and its four node counts add up to the number of nodes. *)
Theorem summary_counts_every_node :
  forall (sql : string) (pr : Parser.parse_result),
    let data := Viz.generateVisualizationData sql pr in
    exists s,
      Panel.summarize data = Some s /\
      Panel.totalQueries s = 1 /\
      Panel.totalTables s = List.length (Parser.tables pr) /\
      Panel.totalTables s + Panel.totalColumns s
        + Panel.totalAliasedColumns s + Panel.totalQueries s
      = List.length (nodes data).
Proof.
  intros sql pr data.
  destruct (nodes_shape sql pr) as [ts [qs [us [als [E [Hn [Ft [_ [Fq [Fu Fa]]]]]]]]]].
  fold data in E. unfold Panel.summarize. rewrite E.
  eexists. split; [reflexivity|].
  cbn [Panel.totalQueries Panel.totalTables Panel.totalColumns
       Panel.totalAliasedColumns].
  change (Viz.mainQueryNode :: ts ++ qs ++ us ++ als)
    with ([Viz.mainQueryNode] ++ ts ++ qs ++ us ++ als).
  rewrite !count_app, !length_app.
  assert (Tt : forall p, (forall n, is_table n -> p n = true) ->
                         Panel.count p ts = List.length ts).
  { intros p Hp. apply count_all. eapply Forall_impl; [|exact Ft]. exact Hp. }
  assert (Tf : forall p, (forall n, is_table n -> p n = false) ->
                         Panel.count p ts = 0).
  { intros p Hp. apply count_none. eapply Forall_impl; [|exact Ft]. exact Hp. }
  assert (Qt : forall p, (forall n, is_qualified_column n -> p n = true) ->
                         Panel.count p qs = List.length qs).
  { intros p Hp. apply count_all. eapply Forall_impl; [|exact Fq]. exact Hp. }
  assert (Qf : forall p, (forall n, is_qualified_column n -> p n = false) ->
                         Panel.count p qs = 0).
  { intros p Hp. apply count_none. eapply Forall_impl; [|exact Fq]. exact Hp. }
  assert (Ut : forall p, (forall n, is_simple_column n -> p n = true) ->
                         Panel.count p us = List.length us).
  { intros p Hp. apply count_all. eapply Forall_impl; [|exact Fu]. exact Hp. }
  assert (Uf : forall p, (forall n, is_simple_column n -> p n = false) ->
                         Panel.count p us = 0).
  { intros p Hp. apply count_none. eapply Forall_impl; [|exact Fu]. exact Hp. }
  assert (At : forall p, (forall n, is_alias_node n -> p n = true) ->
                         Panel.count p als = List.length als).
  { intros p Hp. apply count_all. eapply Forall_impl; [|exact Fa]. exact Hp. }
  assert (Af : forall p, (forall n, is_alias_node n -> p n = false) ->
                         Panel.count p als = 0).
  { intros p Hp. apply count_none. eapply Forall_impl; [|exact Fa]. exact Hp. }
  rewrite (Tt (fun n => node_type_eqb (type n) table))
    by (intros n [-> _]; reflexivity).
  rewrite (Qf (fun n => node_type_eqb (type n) table))
    by (intros n [-> _]; reflexivity).
  rewrite (Uf (fun n => node_type_eqb (type n) table))
    by (intros n [-> _]; reflexivity).
  rewrite (Af (fun n => node_type_eqb (type n) table))
    by (intros n [-> _]; reflexivity).
  rewrite (Tf (fun n => node_type_eqb (type n) query))
    by (intros n [-> _]; reflexivity).
  rewrite (Qf (fun n => node_type_eqb (type n) query))
    by (intros n [-> _]; reflexivity).
  rewrite (Uf (fun n => node_type_eqb (type n) query))
    by (intros n [-> _]; reflexivity).
  rewrite (Af (fun n => node_type_eqb (type n) query))
    by (intros n [-> _]; reflexivity).
  rewrite (Tf (fun n => node_type_eqb (type n) column && negb (isAlias n)))
    by (intros n [-> _]; reflexivity).
  rewrite (Qt (fun n => node_type_eqb (type n) column && negb (isAlias n)))
    by (intros n [-> [-> _]]; reflexivity).
  rewrite (Ut (fun n => node_type_eqb (type n) column && negb (isAlias n)))
    by (intros n [-> [-> _]]; reflexivity).
  rewrite (Af (fun n => node_type_eqb (type n) column && negb (isAlias n)))
    by (intros n [-> [-> _]]; reflexivity).
  rewrite (Tf (fun n => node_type_eqb (type n) column && isAlias n))
    by (intros n [-> _]; reflexivity).
  rewrite (Qf (fun n => node_type_eqb (type n) column && isAlias n))
    by (intros n [-> [-> _]]; reflexivity).
  rewrite (Uf (fun n => node_type_eqb (type n) column && isAlias n))
    by (intros n [-> [-> _]]; reflexivity).
  rewrite (At (fun n => node_type_eqb (type n) column && isAlias n))
    by (intros n [-> [-> _]]; reflexivity).
  rewrite <- Hn, length_map.
  cbn [Panel.count filter Viz.mainQueryNode type isAlias node_type_eqb
       andb negb List.length].
  repeat split; lia.
Qed.

(** ** The column lists of the parser *)

Lemma pushUnique_inv l x y : In y (Parser.pushUnique l x) -> In y l \/ y = x.
Proof.
  unfold Parser.pushUnique. destruct (Js.arr_includes l x); [auto|].
  intros H. apply in_app_or in H. destruct H as [H|[<-|[]]]; auto.
Qed.

Lemma fold_pushUnique_inv l : forall acc y,
  In y (fold_left Parser.pushUnique l acc) -> In y acc \/ In y l.
Proof.
  induction l as [|x l IH]; intros acc y H; simpl in *; [auto|].
  destruct (IH _ _ H) as [H'|H']; [|auto].
  destruct (pushUnique_inv _ _ _ H'); auto.
Qed.

Lemma unique_inv l y : In y (Sample.unique l) -> In y l.
Proof.
  intros H. destruct (fold_pushUnique_inv _ _ _ H) as [[]|H']. exact H'.
Qed.

Lemma Forall_unique (P : string -> Prop) l :
  Forall P l -> Forall P (Sample.unique l).
Proof.
  intros H. apply Forall_forall. intros y Hy.
  rewrite Forall_forall in H. apply H, unique_inv, Hy.
Qed.

Lemma selectColumn_valid columns part :
  Forall (fun c => Parser.isValidColumnName c = true) columns ->
  Forall (fun c => Parser.isValidColumnName c = true)
         (ParserColumns.selectColumn columns part).
Proof.
  intros H. unfold ParserColumns.selectColumn.
  destruct (Js.is_empty (Js.trim part)); [exact H|].
  destruct (Js.truthy _ && Parser.isValidColumnName _) eqn:E; [|exact H].
  apply andb_true_iff in E. destruct E as [_ E].
  apply Forall_app. split; [exact H|]. constructor; [exact E|constructor].
Qed.

(** X16. The columns that [parseSelectClause] returns are pairwise
    distinct; they are the single star when the clause is a star, and
    otherwise each is an identifier that is no reserved word. *)
Theorem select_columns_are_valid_names :
  forall selectClause : string,
    let columns := ParserColumns.parseSelectClause selectClause in
    NoDup columns /\
    ((Js.trim selectClause = "*" /\ columns = ["*"]) \/
     Forall (fun c => is_ident c = true /\ isSQLKeyword c = false) columns).
Proof.
  intros selectClause columns. subst columns.
  unfold ParserColumns.parseSelectClause.
  destruct (String.eqb (Js.trim selectClause) "*") eqn:E.
  - apply String.eqb_eq in E. split; [|auto].
    constructor; [intros []|constructor].
  - split; [apply NoDup_unique|]. right.
    apply Forall_unique.
    eapply Forall_impl;
      [|apply (fold_left_inv
                 (Forall (fun c => Parser.isValidColumnName c = true))
                 ParserColumns.selectColumn);
        [intros a x; apply selectColumn_valid | constructor]].
    intros c Hc. split; [|apply valid_not_keyword, Hc].
    unfold Parser.isValidColumnName in Hc. apply andb_true_iff in Hc.
    rewrite <- test_identRe. apply Hc.
Qed.

Lemma last_segment_no_dot s : no_dot (Js.pop (Js.split "." s)) = true.
Proof.
  unfold Js.pop. induction s as [|a s IH]; [reflexivity|].
  cbn [Js.split]. destruct (Ascii.eqb a ".") eqn:E.
  - destruct (Js.split "." s) as [|x xs]; [reflexivity|exact IH].
  - destruct (Js.split "." s) as [|x [|y ys]].
    + cbn [last no_dot]. rewrite E. reflexivity.
    + cbn [last no_dot] in *. rewrite E, IH. reflexivity.
    + exact IH.
Qed.

Lemma clauseColumn_no_dot d columns part :
  Forall (fun c => no_dot c = true) columns ->
  Forall (fun c => no_dot c = true) (ParserColumns.clauseColumn d columns part).
Proof.
  intros H. unfold ParserColumns.clauseColumn.
  set (p := if d then _ else _).
  destruct (Js.includes p ".").
  - apply Forall_app. split; [exact H|].
    constructor; [apply last_segment_no_dot|constructor].
  - destruct (Parser.isValidColumnName p) eqn:V; [|exact H].
    apply Forall_app. split; [exact H|]. constructor; [|constructor].
    apply ident_no_dot. rewrite <- test_identRe.
    unfold Parser.isValidColumnName in V. apply andb_true_iff in V. apply V.
Qed.

(** X17. No column returned by [extractOrderByColumns] or by
    [extractGroupByColumns] holds a dot: of a qualified name only what
    follows the last dot is kept. *)
Theorem clause_columns_hold_no_dot :
  forall sql : string,
    Forall (fun c => no_dot c = true) (ParserColumns.extractOrderByColumns sql) /\
    Forall (fun c => no_dot c = true) (ParserColumns.extractGroupByColumns sql).
Proof.
  intros sql.
  unfold ParserColumns.extractOrderByColumns, ParserColumns.extractGroupByColumns.
  split.
  - destruct (Re.exec Sample.orderByRe sql); [|constructor].
    apply (fold_left_inv (Forall (fun c => no_dot c = true))).
    + intros a x. apply clauseColumn_no_dot.
    + constructor.
  - destruct (Re.exec Sample.groupByRe sql); [|constructor].
    apply (fold_left_inv (Forall (fun c => no_dot c = true))).
    + intros a x. apply clauseColumn_no_dot.
    + constructor.
Qed.

(** X18. [generateRelationships] relates exactly every table to every
    column that is not the star, and every relationship it makes is of
    kind provides: no other kind is produced, whatever the statement. *)
Theorem relationships_are_the_cross_product :
  forall (tables columns : list string) (r : Relations.relationship),
    In r (Relations.generateRelationships tables columns) <->
    (In (Relations.r_source r) tables /\ In (Relations.r_target r) columns /\
     Relations.r_target r <> "*" /\ Relations.r_type r = provides).
Proof.
  intros tables columns r. unfold Relations.generateRelationships.
  rewrite in_flat_map. split.
  - intros [t [Ht H]]. apply in_flat_map in H. destruct H as [c [Hc H]].
    destruct (String.eqb c "*") eqn:E; [destruct H|].
    destruct H as [<-|[]]. simpl. repeat split; try assumption.
    intros ->. rewrite String.eqb_refl in E. discriminate.
  - intros [Ht [Hc [Hs Hp]]]. exists (Relations.r_source r). split; [exact Ht|].
    apply in_flat_map. exists (Relations.r_target r). split; [exact Hc|].
    destruct (String.eqb (Relations.r_target r) "*") eqn:E.
    + apply String.eqb_eq in E. contradiction.
    + left. destruct r as [s t ty]. simpl in *. subst ty. reflexivity.
Qed.

(** ** The id scheme [table_i], [column_j], [main_query] *)

Lemma NoDup_app_intro {A} (a b : list A) :
  NoDup a -> NoDup b -> (forall x, In x a -> In x b -> False) -> NoDup (a ++ b).
Proof.
  induction 1 as [|x a Hx Ha IH]; intros Hb Hd; simpl; [exact Hb|].
  constructor.
  - intros H. apply in_app_or in H. destruct H as [H|H]; [auto|].
    apply (Hd x); simpl; auto.
  - apply IH; [exact Hb|]. intros y Hy. apply Hd. simpl. auto.
Qed.

Lemma NoDup_map_inj {A B} (f : A -> B) l :
  (forall x y, f x = f y -> x = y) -> NoDup l -> NoDup (map f l).
Proof.
  intros Hf. induction 1 as [|x l Hx Hl IH]; simpl; constructor; [|exact IH].
  intros H. apply in_map_iff in H. destruct H as [y [E Hy]].
  apply Hf in E. subst y. auto.
Qed.

Lemma map_fst_combine_seq {A} (l : list A) : forall i,
  map fst (combine (List.seq i (List.length l)) l) = List.seq i (List.length l).
Proof.
  induction l as [|x l IH]; intros i; simpl; [reflexivity|].
  rewrite IH. reflexivity.
Qed.

Lemma map_snd_combine_seq {A} (l : list A) : forall i,
  map snd (combine (List.seq i (List.length l)) l) = l.
Proof.
  induction l as [|x l IH]; intros i; simpl; [reflexivity|].
  rewrite IH. reflexivity.
Qed.

Lemma tableId_inj i j : Local.tableId i = Local.tableId j -> i = j.
Proof. unfold Local.tableId. intros H. apply append_inj_l in H. apply of_nat_inj, H. Qed.

Lemma columnId_inj i j : Local.columnId i = Local.columnId j -> i = j.
Proof. unfold Local.columnId. intros H. apply append_inj_l in H. apply of_nat_inj, H. Qed.

Lemma scheme_nodup T C (q : bool) :
  NoDup (map Local.tableId (List.seq 0 T) ++ map Local.columnId (List.seq 0 C)
         ++ (if q then ["main_query"] else [])).
Proof.
  apply NoDup_app_intro; [|apply NoDup_app_intro|].
  - apply NoDup_map_inj; [exact tableId_inj | apply seq_NoDup].
  - apply NoDup_map_inj; [exact columnId_inj | apply seq_NoDup].
  - destruct q; constructor; [intros []|constructor].
  - intros x Hx Hq. apply in_map_iff in Hx. destruct Hx as [i [<- _]].
    destruct q; [|destruct Hq]. destruct Hq as [Hq|[]]. discriminate Hq.
  - intros x Hx Hq. apply in_map_iff in Hx. destruct Hx as [i [<- _]].
    apply in_app_or in Hq. destruct Hq as [Hq|Hq].
    + apply in_map_iff in Hq. destruct Hq as [j [Hq _]]. discriminate Hq.
    + destruct q; [|destruct Hq]. destruct Hq as [Hq|[]]. discriminate Hq.
Qed.

Lemma flat_map_length_const {A B} (f : A -> list B) k l :
  (forall x, List.length (f x) = k) ->
  List.length (flat_map f l) = List.length l * k.
Proof.
  intros Hf. induction l as [|x l IH]; simpl; [reflexivity|].
  rewrite length_app, Hf, IH. reflexivity.
Qed.

(** ** The graph of the local parser *)

Lemma local_ids sql :
  ids (nodes (Local.parseLocalSQL sql))
  = map Local.tableId (List.seq 0 (List.length (Local.extractTables sql)))
    ++ map Local.columnId (List.seq 0 (List.length (Local.extractColumns sql)))
    ++ (if List.length (Local.extractTables sql)
           + List.length (Local.extractColumns sql) =? 0
        then [] else ["main_query"]).
Proof.
  unfold Local.parseLocalSQL. cbn [nodes].
  set (tables := Local.extractTables sql).
  set (columns := Local.extractColumns sql).
  set (ns := _ ++ _).
  assert (Hns : ids ns = map Local.tableId (List.seq 0 (List.length tables))
                         ++ map Local.columnId (List.seq 0 (List.length columns))).
  { unfold ns, ids, Local.indices. rewrite map_app, !map_map. cbn [id].
    rewrite <- (map_map fst Local.tableId), <- (map_map fst Local.columnId).
    rewrite !map_fst_combine_seq. reflexivity. }
  assert (Hlen : List.length ns = List.length tables + List.length columns).
  { rewrite <- (length_map id ns). fold (ids ns). rewrite Hns.
    rewrite length_app, !length_map, !length_seq. reflexivity. }
  clearbody ns. destruct ns as [|n ns'].
  - simpl in Hlen. rewrite <- Hlen. cbn [Nat.eqb].
    rewrite app_nil_r. exact Hns.
  - rewrite ids_app, Hns. simpl in Hlen. rewrite <- Hlen. cbn [Nat.eqb].
    rewrite <- app_assoc. reflexivity.
Qed.

(** X19. The graph that [parseLocalSQL] builds has pairwise distinct node
    ids and no dangling edge: both ends of every edge are ids of nodes of
    the graph. *)
Theorem local_graph_is_closed :
  forall sql : string,
    let g := Local.parseLocalSQL sql in
    NoDup (ids (nodes g)) /\ closed (nodes g) (edges g).
Proof.
  intros sql g. subst g. split.
  - rewrite local_ids. destruct (_ =? 0).
    + apply (scheme_nodup _ _ false).
    + apply (scheme_nodup _ _ true).
  - intros e He. rewrite local_ids. revert e He.
    unfold Local.parseLocalSQL. cbn [edges].
    set (T := List.length (Local.extractTables sql)).
    set (C := List.length (Local.extractColumns sql)).
    assert (HT : forall i, In i (List.seq 0 T) ->
              In (Local.tableId i)
                 (map Local.tableId (List.seq 0 T) ++ map Local.columnId (List.seq 0 C)
                  ++ (if T + C =? 0 then [] else ["main_query"]))).
    { intros i Hi. apply in_or_app. left. apply in_map, Hi. }
    assert (HC : forall i, In i (List.seq 0 C) ->
              In (Local.columnId i)
                 (map Local.tableId (List.seq 0 T) ++ map Local.columnId (List.seq 0 C)
                  ++ (if T + C =? 0 then [] else ["main_query"]))).
    { intros i Hi. apply in_or_app. right. apply in_or_app. left.
      apply in_map, Hi. }
    assert (HQ : T + C <> 0 ->
              In "main_query"
                 (map Local.tableId (List.seq 0 T) ++ map Local.columnId (List.seq 0 C)
                  ++ (if T + C =? 0 then [] else ["main_query"]))).
    { intros H. apply in_or_app. right. apply in_or_app. right.
      apply Nat.eqb_neq in H. rewrite H. simpl. auto. }
    intros e He. unfold Local.createRelationships, Local.indices in He.
    fold T C in He. cbn [app] in He.
    apply in_app_or in He. destruct He as [He|He].
    { apply in_flat_map in He. destruct He as [i [Hi He]].
      apply in_map_iff in He. destruct He as [j [<- Hj]]. cbn [source target].
      auto. }
    apply in_app_or in He. destruct He as [He|He].
    { apply in_map_iff in He. destruct He as [j [<- Hj]]. cbn [source target].
      split; [auto|]. apply HQ. apply in_seq in Hj. lia. }
    apply in_map_iff in He. destruct He as [i [<- Hi]]. cbn [source target].
    split; [auto|]. apply HQ. apply in_seq in Hi. lia.
Qed.

(** X20. The size of the graph of [parseLocalSQL] for [T] tables and [C]
    columns: [T + C] nodes and the query node when there is any, and
    [T * C + C + T] edges, every table being tied to every column. *)
Theorem local_graph_sizes :
  forall sql : string,
    let g := Local.parseLocalSQL sql in
    let T := List.length (Local.extractTables sql) in
    let C := List.length (Local.extractColumns sql) in
    List.length (nodes g) = T + C + (if T + C =? 0 then 0 else 1) /\
    List.length (edges g) = T * C + C + T.
Proof.
  intros sql g T C. split.
  - rewrite <- (length_map id (nodes g)). fold (ids (nodes g)).
    subst g. rewrite local_ids. fold T C.
    rewrite !length_app, !length_map, !length_seq.
    destruct (T + C =? 0); simpl; lia.
  - subst g. unfold Local.parseLocalSQL, Local.createRelationships, Local.indices.
    cbn [edges app]. fold T C.
    rewrite !length_app, !length_map, !length_seq.
    rewrite (flat_map_length_const _ C).
    + rewrite length_seq. lia.
    + intros i. rewrite length_map, length_seq. reflexivity.
Qed.

(** ** Tables and columns of the local parser and of the sample-data path *)

Lemma grp_lang_binds r n w : grp_lang r n w -> binds r n = true.
Proof.
  induction r; cbn [grp_lang binds]; try contradiction.
  - intros [H|H]; [rewrite IHr1|rewrite IHr2]; auto using orb_true_r.
  - intros [H|H]; [rewrite IHr1|rewrite IHr2]; auto using orb_true_r.
  - exact IHr.
  - intros [[-> _]|H]; [rewrite Nat.eqb_refl; reflexivity|].
    rewrite IHr; auto using orb_true_r.
  - exact IHr.
Qed.

(** From [grp_lang] of a concrete pattern to the text of the one group
    that has the number asked for. *)
Ltac pick_group H :=
  repeat match type of H with _ \/ _ => destruct H as [H|H] end;
  match type of H with
  | False => destruct H
  | _ = _ /\ _ =>
      let E := fresh "E" in
      destruct H as [E H]; first [discriminate E | exact H]
  | grp_lang _ _ _ => apply grp_lang_binds in H; vm_compute in H; discriminate H
  end.

Lemma cap1_localJoin pos s m :
  Re.at_pos Local.joinRe pos s = Some m -> lang Pat.tableRef (Pat.cap m 1).
Proof.
  intros H. apply cap_lang with (n := 1) in H; [|reflexivity].
  unfold Local.joinRe in H. cbn [grp_lang Re.seq fold_right] in H.
  pick_group H.
Qed.

Lemma cap1_fromAlias pos s m :
  Re.at_pos Pat.fromAliasRe pos s = Some m -> lang Pat.tableRef (Pat.cap m 1).
Proof. apply capture_is_text. reflexivity. Qed.

Lemma cap1_joinAlias pos s m :
  Re.at_pos Pat.joinAliasRe pos s = Some m -> lang Pat.tableRef (Pat.cap m 1).
Proof. apply capture_is_text. reflexivity. Qed.

Lemma cap2_tableColumn pos s m :
  Re.at_pos Pat.tableColumnRe pos s = Some m -> is_ident (Pat.cap m 2) = true.
Proof.
  intros H. apply cap_lang with (n := 2) in H; [|reflexivity].
  apply lang_ident.
  unfold Pat.tableColumnRe in H. cbn [grp_lang Re.seq fold_right] in H.
  pick_group H.
Qed.

Lemma cap2_asPrefix pos s m :
  Re.at_pos Sample.asPrefixRe pos s = Some m -> is_ident (Pat.cap m 2) = true.
Proof.
  intros H. apply cap_lang with (n := 2) in H; [|reflexivity].
  apply lang_ident.
  unfold Sample.asPrefixRe in H. cbn [grp_lang Re.seq fold_right] in H.
  pick_group H.
Qed.

Lemma cap1_simpleColumn pos s m :
  Re.at_pos Sample.simpleColumnRe pos s = Some m -> is_ident (Pat.cap m 1) = true.
Proof.
  intros H. apply cap_lang with (n := 1) in H; [|reflexivity].
  apply lang_ident.
  unfold Sample.simpleColumnRe in H. cbn [grp_lang Re.seq fold_right] in H.
  pick_group H.
Qed.

Lemma or_else_not_empty o d : Js.is_empty d = false -> Js.or_else o d <> EmptyString.
Proof.
  intros Hd. unfold Js.or_else. destruct o as [[|a t]|]; simpl;
    try discriminate; destruct d; discriminate.
Qed.

(** The loop that appends a record unless one of the same key is there. *)
Lemma fold_by_key {A} (key : A -> string) (P : A -> Prop)
    (f : Re.result -> A) (l : list Re.result) :
  Forall (fun m => P (f m)) l ->
  forall acc,
    NoDup (map key acc) /\ Forall P acc ->
    NoDup (map key
             (fold_left
                (fun acc m =>
                   if existsb (fun t => String.eqb (key t) (key (f m))) acc
                   then acc else acc ++ [f m])
                l acc))
    /\ Forall P
         (fold_left
            (fun acc m =>
               if existsb (fun t => String.eqb (key t) (key (f m))) acc
               then acc else acc ++ [f m])
            l acc).
Proof.
  induction 1 as [|m l Hm Hl IH]; intros acc [Hn Hp]; simpl; [auto|].
  apply IH. destruct (existsb _ acc) eqn:E; [auto|]. split.
  - rewrite map_app. apply NoDup_snoc; [exact Hn|]. simpl.
    intros Hin. apply in_map_iff in Hin. destruct Hin as [t [Ht Hin]].
    assert (X : existsb (fun t => String.eqb (key t) (key (f m))) acc = true).
    { apply existsb_exists. exists t. split; [exact Hin|].
      apply String.eqb_eq, Ht. }
    rewrite X in E. discriminate.
  - apply Forall_app. split; [exact Hp|]. constructor; [exact Hm|constructor].
Qed.

(** X21. The tables that the local parser finds have pairwise distinct
    names; each name is an identifier with the schema dropped, and no
    alias is empty. *)
Theorem local_tables_are_distinct :
  forall sql : string,
    NoDup (map Local.t_name (Local.extractTables sql)) /\
    Forall (fun t => is_ident (Local.t_name t) = true /\
                     Local.t_alias t <> EmptyString)
           (Local.extractTables sql).
Proof.
  intros sql. unfold Local.extractTables.
  assert (T : forall m, lang Pat.tableRef (Pat.cap m 1) ->
                is_ident (Local.t_name (Local.tableOf m)) = true /\
                Local.t_alias (Local.tableOf m) <> EmptyString).
  { intros m H. apply dropSchema_ident in H. cbn [Local.tableOf Local.t_name
      Local.t_alias]. split; [exact H|].
    apply or_else_not_empty, ident_not_empty, H. }
  apply (fold_by_key Local.t_name
           (fun t => is_ident (Local.t_name t) = true /\
                     Local.t_alias t <> EmptyString)
           Local.tableOf).
  - eapply Forall_impl; [|apply exec_all_at].
    intros m [pos [s H]]. apply T. eapply cap1_localJoin, H.
  - destruct (Re.exec Pat.fromAliasRe sql) as [m|] eqn:E.
    + destruct (exec_at _ _ _ E) as [pos [s H]]. split.
      * simpl. constructor; [intros []|constructor].
      * constructor; [|constructor]. apply T. eapply cap1_fromAlias, H.
    + split; constructor.
Qed.

(** X22. The table records of [extractTableInfoWithAliases] have pairwise
    distinct table names; each name is an identifier, the last segment of
    the full name, and each alias is in lower case. *)
Theorem table_info_is_distinct :
  forall sql : string,
    NoDup (map Sample.tableName (Sample.extractTableInfoWithAliases sql)) /\
    Forall (fun t => is_ident (Sample.tableName t) = true /\
                     Sample.tableName t = Parser.dropSchema (Sample.fullName t) /\
                     Js.toLowerCase (Sample.alias t) = Sample.alias t)
           (Sample.extractTableInfoWithAliases sql).
Proof.
  intros sql. unfold Sample.extractTableInfoWithAliases.
  assert (T : forall m, lang Pat.tableRef (Pat.cap m 1) ->
                is_ident (Sample.tableName (Sample.infoOf m)) = true /\
                Sample.tableName (Sample.infoOf m)
                  = Parser.dropSchema (Sample.fullName (Sample.infoOf m)) /\
                Js.toLowerCase (Sample.alias (Sample.infoOf m))
                  = Sample.alias (Sample.infoOf m)).
  { intros m H. apply dropSchema_ident in H.
    cbn [Sample.infoOf Sample.tableName Sample.alias Sample.fullName].
    split; [exact H|]. split; [reflexivity|apply toLowerCase_idem]. }
  apply (fold_by_key Sample.tableName
           (fun t => is_ident (Sample.tableName t) = true /\
                     Sample.tableName t = Parser.dropSchema (Sample.fullName t) /\
                     Js.toLowerCase (Sample.alias t) = Sample.alias t)
           Sample.infoOf).
  - eapply Forall_impl; [|apply exec_all_at].
    intros m [pos [s H]]. apply T. eapply cap1_joinAlias, H.
  - destruct (Re.exec Pat.fromAliasRe sql) as [m|] eqn:E.
    + destruct (exec_at _ _ _ E) as [pos [s H]]. split.
      * simpl. constructor; [intros []|constructor].
      * constructor; [|constructor]. apply T. eapply cap1_fromAlias, H.
    + split; constructor.
Qed.

Lemma idchar_not_ws a : Re.cmatch Re.IdChar a = true -> Js.is_space a = false.
Proof. destruct a as [[] [] [] [] [] [] [] []]; vm_compute; congruence. Qed.

Lemma all_idchar_trimEnd s : all_in Re.IdChar s = true -> Js.trimEnd s = s.
Proof.
  induction s as [|a s IH]; simpl; [reflexivity|].
  intros H. apply andb_true_iff in H. destruct H as [Ha Hs].
  rewrite (idchar_not_ws _ Ha), (IH Hs). reflexivity.
Qed.

Lemma trim_ident s : is_ident s = true -> Js.trim s = s.
Proof.
  destruct s as [|a s]; [discriminate|]. cbn [is_ident]. intros H.
  apply andb_true_iff in H. destruct H as [Ha Hs].
  unfold Js.trim. cbn [Js.trimStart].
  rewrite (idchar_not_ws _ (idstart_idchar _ Ha)).
  apply all_idchar_trimEnd. cbn [all_in].
  rewrite (idstart_idchar _ Ha), Hs. reflexivity.
Qed.

Lemma localColumnNames_ident expression :
  Forall (fun c => is_ident c = true) (Local.extractColumnNames expression).
Proof.
  unfold Local.extractColumnNames.
  assert (H : Forall (fun c => is_ident c = true)
                (map (fun m => Pat.cap m 2)
                     (Re.exec_all Pat.tableColumnRe expression))).
  { apply Forall_map. eapply Forall_impl; [|apply exec_all_at].
    intros m [pos [s Hm]]. eapply cap2_tableColumn, Hm. }
  destruct (map _ _) as [|c cs]; [|exact H].
  destruct (Re.test Pat.identRe (Js.trim expression)) eqn:E; [|constructor].
  destruct (Js.arr_includes _ _); constructor; [|constructor].
  rewrite <- test_identRe. exact E.
Qed.

Lemma sampleColumnNames_ident expression :
  Forall (fun c => is_ident c = true)
         (Sample.extractColumnNamesFromExpression expression).
Proof.
  unfold Sample.extractColumnNamesFromExpression.
  assert (H : Forall (fun c => is_ident c = true)
                (map (fun m => Pat.cap m 2)
                     (Re.exec_all Pat.tableColumnRe expression))).
  { apply Forall_map. eapply Forall_impl; [|apply exec_all_at].
    intros m [pos [s Hm]]. eapply cap2_tableColumn, Hm. }
  destruct (map _ _) as [|c cs]; [|exact H].
  destruct (Re.exec Sample.simpleColumnRe expression) as [m|] eqn:E;
    [|constructor].
  destruct (exec_at _ _ _ E) as [pos [s Hm]].
  constructor; [|constructor]. eapply cap1_simpleColumn, Hm.
Qed.

Lemma fold_pushUnique_Forall (P : string -> Prop) l : forall acc,
  Forall P acc -> Forall P l -> Forall P (fold_left Parser.pushUnique l acc).
Proof.
  induction l as [|x l IH]; intros acc Ha Hl; simpl; [exact Ha|].
  inversion Hl; subst. apply IH; [|assumption].
  apply Forall_pushUnique; assumption.
Qed.

(** X23. The columns that the local parser finds are pairwise distinct
    identifiers; the star is never among them. *)
Theorem local_columns_are_distinct_identifiers :
  forall sql : string,
    NoDup (Local.extractColumns sql) /\
    Forall (fun c => is_ident c = true) (Local.extractColumns sql).
Proof.
  intros sql. unfold Local.extractColumns.
  destruct (Re.exec Pat.selectRe sql) as [selectMatch|]; [|split; constructor].
  set (Q := fun l : list string =>
              NoDup l /\ Forall (fun c => is_ident c = true) l).
  change (Q (fold_left Local.addColumns
               (Parser.splitSelectClause (Pat.cap selectMatch 1)) [])).
  apply fold_left_inv; [|split; constructor].
  intros columns part [Hn Hf]. unfold Local.addColumns.
  destruct (String.eqb (Js.trim part) "*"); [split; assumption|].
  change Dict.add with Parser.pushUnique.
  destruct (Re.exec Sample.asPrefixRe (Js.trim part)) as [aliasMatch|] eqn:E.
  - destruct (exec_at _ _ _ E) as [pos [s Hm]]. split.
    + apply NoDup_fold_pushUnique, NoDup_pushUnique, Hn.
    + apply fold_pushUnique_Forall; [|apply localColumnNames_ident].
      apply Forall_pushUnique; [exact Hf|]. eapply cap2_asPrefix, Hm.
  - split.
    + apply NoDup_fold_pushUnique, Hn.
    + apply fold_pushUnique_Forall; [exact Hf|apply localColumnNames_ident].
Qed.

Lemma collectColumn_ident_all columns part :
  Forall (fun c => is_ident c = true) columns ->
  Forall (fun c => is_ident c = true) (Sample.collectColumn columns part).
Proof.
  intros Hf. unfold Sample.collectColumn.
  assert (Hp : Forall (fun c => is_ident c = true)
                 (fold_left Parser.pushUnique
                    (Sample.extractColumnNamesFromExpression (Js.trim part))
                    columns)).
  { apply fold_pushUnique_Forall; [exact Hf|apply sampleColumnNames_ident]. }
  destruct (String.eqb (Js.trim part) "*"); [exact Hf|].
  destruct (Js.includes _ " AS "); [|exact Hp].
  destruct (Re.exec Sample.asPrefixRe (Js.trim part)) as [asMatch|] eqn:E;
    [|exact Hp].
  destruct (exec_at _ _ _ E) as [pos [s Hm]].
  apply fold_pushUnique_Forall; [|apply sampleColumnNames_ident].
  apply Forall_app. split; [exact Hf|]. constructor; [|constructor].
  pose proof (cap2_asPrefix _ _ _ Hm) as Hi.
  rewrite (trim_ident _ Hi). exact Hi.
Qed.

(** X24. The columns of [extractColumnsWithAliases], aliases included, are
    pairwise distinct identifiers; the star is never among them. *)
Theorem sample_columns_are_distinct_identifiers :
  forall sql : string,
    NoDup (Sample.extractColumnsWithAliases sql) /\
    Forall (fun c => is_ident c = true) (Sample.extractColumnsWithAliases sql).
Proof.
  intros sql. unfold Sample.extractColumnsWithAliases.
  destruct (Re.exec Pat.selectRe sql) as [m|]; [|split; constructor].
  split; [apply NoDup_unique|]. apply Forall_unique.
  apply (fold_left_inv (Forall (fun c => is_ident c = true))).
  - intros a x. apply collectColumn_ident_all.
  - constructor.
Qed.

(** ** The sample data of [script.js] *)

Lemma wordChars_all s : all_in Re.IdChar (Fallback.wordChars s) = true.
Proof.
  induction s as [|a s IH]; cbn [Fallback.wordChars]; [reflexivity|].
  destruct (Re.cmatch Re.IdChar a) eqn:E; [|exact IH].
  cbn [all_in]. rewrite E, IH. reflexivity.
Qed.

Lemma substring0_all_in c s : forall n,
  all_in c s = true -> all_in c (String.substring 0 n s) = true.
Proof.
  induction s as [|a s IH]; intros [|n] H; try reflexivity.
  cbn [all_in] in H. apply andb_true_iff in H. destruct H as [Ha Hs].
  cbn [String.substring all_in]. rewrite Ha, (IH n Hs). reflexivity.
Qed.

(** X25. The columns that [extractColumnsFromSQL] of [script.js] returns
    are pairwise distinct, not empty, at most twenty characters long and
    made of letters, digits and the underscore only. *)
Theorem fallback_columns_are_short_words :
  forall sql : string,
    NoDup (Fallback.extractColumnsFromSQL sql) /\
    Forall (fun c => c <> EmptyString /\ String.length c <= 20 /\
                     all_in Re.IdChar c = true)
           (Fallback.extractColumnsFromSQL sql).
Proof.
  intros sql. unfold Fallback.extractColumnsFromSQL.
  destruct (Re.exec Pat.selectRe sql) as [m|]; [|split; constructor].
  split; [apply NoDup_unique|]. apply Forall_unique.
  apply Forall_forall. intros c Hc. apply filter_In in Hc.
  destruct Hc as [Hc Hf]. apply in_map_iff in Hc. destruct Hc as [col [<- _]].
  apply andb_true_iff in Hf. destruct Hf as [Hf _]. split.
  - intros E. rewrite E in Hf. discriminate.
  - unfold Fallback.cleanColumn. split; [apply substring0_length|].
    apply substring0_all_in, wordChars_all.
Qed.

Lemma ids_indexed (f : nat -> string) (l : list string) ty :
  ids (map (fun it => mkNode (f (fst it)) (snd it) ty None false)
           (Sample.indexed l))
  = map f (List.seq 0 (List.length l)).
Proof.
  unfold ids, Sample.indexed. rewrite map_map. cbn [id].
  rewrite <- (map_map fst f), map_fst_combine_seq. reflexivity.
Qed.

Lemma filter_none {A} (f : A -> bool) l :
  (forall x, In x l -> f x = false) -> filter f l = [].
Proof.
  induction l as [|x l IH]; intros H; simpl; [reflexivity|].
  rewrite (H x) by (left; reflexivity). apply IH. intros y Hy. apply H. right. exact Hy.
Qed.

(** X26. What [createSampleDataFromSQL] of [script.js] adds to the data:
    nodes with pairwise distinct ids, among them one table node for every
    table found, named after it, in order; and one edge for every table
    node, in the same order, each of kind feeds, from that table node to
    the query node.  The query node is added exactly when a table is
    found, so columns alone get neither a query node nor an edge. *)
Theorem fallback_graph_shape :
  forall (normalized : Fallback.sample_graph) (sqlInput : string),
    let g := Fallback.createSampleDataFromSQL normalized sqlInput in
    let tables := Fallback.extractTablesFromSQL sqlInput in
    exists ns es,
      Fallback.s_nodes g = Fallback.s_nodes normalized ++ ns /\
      Fallback.s_edges g = Fallback.s_edges normalized ++ es /\
      NoDup (ids ns) /\
      map name (filter (fun n => node_type_eqb (type n) table) ns) = tables /\
      map Fallback.f_source es
        = ids (filter (fun n => node_type_eqb (type n) table) ns) /\
      List.length es = List.length tables /\
      Forall (fun e => Fallback.f_type e = "feeds" /\
                       Fallback.f_target e = "main_query" /\
                       In (Fallback.f_source e) (ids ns) /\
                       In (mkNode "main_query" "Main Query" query None false) ns)
             es /\
      (In "main_query" (ids ns) <-> tables <> []).
Proof.
  intros normalized sqlInput g tables. subst g.
  unfold Fallback.createSampleDataFromSQL. fold tables.
  set (columns := Fallback.extractColumnsFromSQL sqlInput).
  set (tn := map (fun it => mkNode (Local.tableId (fst it)) (snd it) table None false)
                 (Sample.indexed tables)).
  set (cn := map (fun ic => mkNode (Local.columnId (fst ic)) (snd ic) column None false)
                 (Sample.indexed columns)).
  set (q := mkNode "main_query" "Main Query" query None false).
  assert (Ht : ids tn = map Local.tableId (List.seq 0 (List.length tables)))
    by apply ids_indexed.
  assert (Hc : ids cn = map Local.columnId (List.seq 0 (List.length columns)))
    by apply ids_indexed.
  assert (Ft : filter (fun n => node_type_eqb (type n) table) tn = tn).
  { apply filter_all. intros n Hn. apply in_map_iff in Hn.
    destruct Hn as [it [<- _]]. reflexivity. }
  assert (Fc : filter (fun n => node_type_eqb (type n) table) cn = []).
  { apply filter_none. intros n Hn. apply in_map_iff in Hn.
    destruct Hn as [it [<- _]]. reflexivity. }
  assert (Nt : map name tn = tables).
  { unfold tn, Sample.indexed. rewrite map_map. cbn [name].
    apply map_snd_combine_seq. }
  assert (Fq : forall tail,
             (forall n, In n tail -> type n = query) ->
             filter (fun n => node_type_eqb (type n) table) (tn ++ cn ++ tail) = tn).
  { intros tail Hq. rewrite !filter_app, Ft, Fc.
    rewrite filter_none; [apply app_nil_r|].
    intros n Hn. rewrite (Hq n Hn). reflexivity. }
  destruct tables as [|t ts] eqn:Et.
  - exists (tn ++ cn), []. cbn [Fallback.s_nodes Fallback.s_edges].
    rewrite app_nil_r. split; [reflexivity|]. split; [reflexivity|].
    rewrite ids_app, Ht, Hc. split.
    { pose proof (scheme_nodup 0 (List.length columns) false) as N.
      rewrite app_nil_r in N. exact N. }
    specialize (Fq [] (fun n (H : In n []) => match H with end)).
    rewrite app_nil_r in Fq. rewrite Fq.
    split; [exact Nt|]. split; [reflexivity|].
    split; [reflexivity|]. split; [constructor|].
    split; [|intros H; contradiction H; reflexivity].
    cbn [List.length List.seq map app]. intros H.
    apply in_map_iff in H. destruct H as [j [H _]]. discriminate H.
  - rewrite <- Et in *. clear Et.
    exists (tn ++ cn ++ [q]),
           (map (fun it => Fallback.mkFeed (Local.tableId (fst it)) "main_query" "feeds")
                (Sample.indexed tables)).
    cbn [Fallback.s_nodes Fallback.s_edges].
    split; [rewrite <- !app_assoc; reflexivity|]. split; [reflexivity|].
    rewrite (Fq [q]) by (intros n [<-|[]]; reflexivity).
    rewrite !ids_app, Ht, Hc. cbn [ids map id q].
    split; [apply (scheme_nodup _ _ true)|].
    split; [exact Nt|].
    split.
    { rewrite map_map. cbn [Fallback.f_source].
      rewrite <- (map_map fst Local.tableId). unfold Sample.indexed.
      rewrite map_fst_combine_seq. reflexivity. }
    split.
    { unfold Sample.indexed. rewrite length_map, length_combine, length_seq.
      apply Nat.min_id. }
    split.
    + apply Forall_forall. intros e He. apply in_map_iff in He.
      destruct He as [[i x] [<- Hi]].
      cbn [Fallback.f_type Fallback.f_target Fallback.f_source fst].
      split; [reflexivity|]. split; [reflexivity|]. split.
      * apply in_or_app. left. apply in_map.
        unfold Sample.indexed in Hi. apply in_combine_l in Hi. exact Hi.
      * apply in_or_app. right. apply in_or_app. right. simpl. auto.
    + split; [|intros _; apply in_or_app; right; apply in_or_app; right;
                simpl; auto].
      intros _. subst tables. intros E. rewrite E in *. discriminate.
Qed.

(** ** The sample-data path: no dangling edge *)

Lemma findIndexFrom_bound l key : forall i n,
  Sample.findIndexFrom i l key = Some n -> i <= n < i + List.length l.
Proof.
  induction l as [|x l IH]; intros i n H; [discriminate|].
  cbn [Sample.findIndexFrom] in H.
  destruct (String.eqb (Js.toLowerCase x) (Js.toLowerCase key)).
  - injection H as <-. simpl. lia.
  - apply IH in H. simpl. lia.
Qed.

Lemma findIndex_bound l key n :
  Sample.findIndex l key = Some n -> n < List.length l.
Proof. intros H. apply findIndexFrom_bound in H. lia. Qed.

Lemma indexed_bound l i x : In (i, x) (Sample.indexed l) -> i < List.length l.
Proof.
  unfold Sample.indexed. intros H. apply in_combine_l in H.
  apply in_seq in H. lia.
Qed.

Section SampleEdges.

Variable normalized : graph.
Variables tables columns : list string.

Hypothesis table_nodes :
  forall i, i < List.length tables ->
            In (Sample.tableId i) (ids (nodes normalized)).
Hypothesis column_nodes :
  forall j, j < List.length columns ->
            In (Sample.columnId j) (ids (nodes normalized)).

Lemma pushProvides_sound es i j :
  Forall (sound normalized) es -> i < List.length tables -> j < List.length columns ->
  Forall (sound normalized) (Sample.pushProvides es (Sample.tableId i) (Sample.columnId j)).
Proof.
  intros H Hi Hj. unfold Sample.pushProvides.
  destruct (Viz.linked _ _ _ _); [exact H|].
  apply Forall_app. split; [exact H|]. constructor; [|constructor].
  right. cbn [source target]. auto.
Qed.

Lemma providesOfEntry_sound es entry :
  Forall (sound normalized) es -> Forall (sound normalized) (Sample.providesOfEntry tables columns es entry).
Proof.
  intros H. destruct entry as [tableName tableColumns].
  cbn [Sample.providesOfEntry].
  destruct (Sample.findIndex tables tableName) as [ti|] eqn:Et; [|exact H].
  apply findIndex_bound in Et.
  apply (fold_left_inv (Forall (sound normalized))); [|exact H].
  intros a columnName Ha.
  destruct (Sample.findIndex columns columnName) as [ci|] eqn:Ec; [|exact Ha].
  apply findIndex_bound in Ec. apply pushProvides_sound; assumption.
Qed.

Lemma relationships_sound sql :
  Forall (sound normalized)
         (edges (Sample.createRelationshipsFromSQL normalized sql tables columns)).
Proof.
  unfold Sample.createRelationshipsFromSQL. cbn [edges].
  set (tcm := Sample.parseTableColumnRelationshipsWithAliases _ _).
  assert (H1 : Forall (sound normalized)
                 (fold_left (Sample.providesOfEntry tables columns) tcm
                            (edges normalized))).
  { apply (fold_left_inv (Forall (sound normalized))).
    - intros a x. apply providesOfEntry_sound.
    - apply Forall_forall. intros e He. left. exact He. }
  set (es1 := fold_left _ tcm _) in *.
  assert (H2 : Forall (sound normalized)
                 match es1, tables, columns with
                 | [], _ :: _, _ :: _ =>
                     fold_left
                       (fun es ic =>
                          if String.eqb (snd ic) "*" then es
                          else es ++ [mkEdge (Sample.tableId 0)
                                             (Sample.columnId (fst ic))
                                             provides None])
                       (Sample.indexed columns) es1
                 | _, _, _ => es1
                 end).
  { destruct es1 as [|e es]; [|exact H1].
    destruct tables as [|t ts] eqn:Et; [exact H1|].
    destruct columns as [|c cs] eqn:Ec; [exact H1|].
    rewrite <- Ec in *.
    assert (G : forall l, (forall ic, In ic l -> fst ic < List.length columns) ->
                  forall acc, Forall (sound normalized) acc ->
                  Forall (sound normalized)
                    (fold_left
                       (fun es ic =>
                          if String.eqb (snd ic) "*" then es
                          else es ++ [mkEdge (Sample.tableId 0)
                                             (Sample.columnId (fst ic))
                                             provides None])
                       l acc)).
    { induction l as [|ic l IH]; intros Hl acc Ha; simpl; [exact Ha|].
      apply IH; [intros x Hx; apply Hl; simpl; auto|].
      destruct (String.eqb (snd ic) "*"); [exact Ha|].
      apply Forall_app. split; [exact Ha|]. constructor; [|constructor].
      right. cbn [source target]. split.
      - apply table_nodes. simpl. lia.
      - apply column_nodes, Hl. simpl. auto. }
    apply G; [|constructor].
    intros [i x] Hi. apply indexed_bound in Hi. exact Hi. }
  set (es2 := match es1 with [] => _ | _ => _ end) in *.
  destruct (has_id (nodes normalized) "main_query") eqn:Q; [|exact H2].
  apply has_id_in in Q.
  apply Forall_app. split; [apply Forall_app; split; [exact H2|]|].
  - apply Forall_forall. intros e He. apply in_map_iff in He.
    destruct He as [[j x] [<- Hj]]. right. cbn [source target fst].
    split; [|exact Q]. apply column_nodes. eapply indexed_bound, Hj.
  - apply Forall_forall. intros e He. apply in_map_iff in He.
    destruct He as [[i x] [<- Hi]]. right. cbn [source target fst].
    split; [|exact Q]. apply table_nodes. eapply indexed_bound, Hi.
Qed.

End SampleEdges.

Lemma in_ids_with_query (a b : list string) (l : list node) q x :
  In x (ids l) ->
  In x (ids match a, b with
            | [], [] => l
            | _, _ => l ++ [q]
            end).
Proof.
  intros H. destruct a, b; try exact H; rewrite ids_app; apply in_or_app; auto.
Qed.

(** X27. On the sample-data path no new edge dangles: every edge of the
    data returned by [createSampleDataFromSQL] is an edge that the input
    already had, or joins two nodes of the returned data. *)
Theorem sample_edges_are_closed :
  forall (normalized : graph) (sqlInput : string),
    let g := Sample.createSampleDataFromSQL normalized sqlInput in
    Forall (fun e => In e (edges normalized) \/
                     (In (source e) (ids (nodes g)) /\
                      In (target e) (ids (nodes g))))
           (edges g).
Proof.
  intros normalized sqlInput g. subst g.
  unfold Sample.createSampleDataFromSQL.
  set (uniqueTables := Sample.unique _).
  set (columnsWithAliases := Sample.extractColumnsWithAliases sqlInput).
  set (ns := match uniqueTables, columnsWithAliases with
             | [], [] => _
             | _, _ => _
             end).
  assert (N : nodes (Sample.createRelationshipsFromSQL
                       (mkGraph ns (edges normalized)) sqlInput
                       uniqueTables columnsWithAliases) = ns) by reflexivity.
  rewrite N.
  apply (relationships_sound (mkGraph ns (edges normalized))
           uniqueTables columnsWithAliases).
  - intros i Hi. cbn [nodes]. unfold ns. apply in_ids_with_query.
    rewrite !ids_app. apply in_or_app. left. apply in_or_app. right.
    rewrite (ids_indexed Sample.tableId). apply in_map, in_seq. lia.
  - intros j Hj. cbn [nodes]. unfold ns. apply in_ids_with_query.
    rewrite !ids_app. apply in_or_app. right.
    rewrite (ids_indexed Sample.columnId). apply in_map, in_seq. lia.
Qed.

(** ** Where the edges of the graph builder lead *)

Lemma ends_ok_app ns l e : ends_ok ns e -> ends_ok (ns ++ l) e.
Proof.
  unfold ends_ok. destruct (etype e); auto.
  intros [H|[n [Hn H]]]; [auto|]. right. exists n.
  split; [apply in_or_app; auto | exact H].
Qed.

Lemma directed_pushNode b n : directed b -> directed (Viz.pushNode b n).
Proof.
  intros [A E]. constructor;
    cbn [Viz.pushNode Viz.b_nodes Viz.b_edges Viz.aliasNodeIdMap].
  - intros k v H. destruct (A k v H) as [n' [Hn' H']]. exists n'.
    split; [apply in_or_app; auto | exact H'].
  - intros e He. apply ends_ok_app, E, He.
Qed.

Lemma directed_pushEdge b e :
  directed b -> ends_ok (Viz.b_nodes b) e -> directed (Viz.pushEdge b e).
Proof.
  intros [A E] He. constructor;
    cbn [Viz.pushEdge Viz.b_nodes Viz.b_edges Viz.aliasNodeIdMap].
  - exact A.
  - intros e' He'. apply in_app_or in He'. destruct He' as [He'|[<-|[]]]; auto.
Qed.

Lemma directed_setAliasNodeId b k v :
  directed b ->
  (exists n, In n (Viz.b_nodes b) /\ id n = v /\ isAlias n = true) ->
  directed (Viz.setAliasNodeId b k v).
Proof.
  intros [A E] Hv. constructor;
    cbn [Viz.setAliasNodeId Viz.b_nodes Viz.b_edges Viz.aliasNodeIdMap].
  - intros k' v'. rewrite get_set. destruct (String.eqb k k').
    + intros [= <-]. exact Hv.
    + apply A.
  - exact E.
Qed.

Lemma directed_same b b' :
  Viz.b_nodes b' = Viz.b_nodes b -> Viz.b_edges b' = Viz.b_edges b ->
  Viz.aliasNodeIdMap b' = Viz.aliasNodeIdMap b -> directed b -> directed b'.
Proof.
  intros En Ee Ea [A E]. constructor; rewrite ?En, ?Ee, ?Ea; assumption.
Qed.

Lemma directed_initial : directed Viz.initial.
Proof.
  constructor; cbn [Viz.initial Viz.b_nodes Viz.b_edges Viz.aliasNodeIdMap].
  - intros k v H. discriminate H.
  - intros e [].
Qed.

Lemma directed_setNodeMap b k v : directed b -> directed (Viz.setNodeMap b k v).
Proof. apply directed_same; reflexivity. Qed.

Lemma directed_setColumnNodeId b k v :
  directed b -> directed (Viz.setColumnNodeId b k v).
Proof. apply directed_same; reflexivity. Qed.

Lemma directed_addOutputColumn b k : directed b -> directed (Viz.addOutputColumn b k).
Proof. apply directed_same; reflexivity. Qed.

Lemma directed_addSelected b k : directed b -> directed (Viz.addSelected b k).
Proof. apply directed_same; reflexivity. Qed.

Lemma directed_setResolvedAlias b k v :
  directed b -> directed (Viz.setResolvedAlias b k v).
Proof. apply directed_same; reflexivity. Qed.

Lemma directed_addTable b t : directed b -> directed (Viz.addTable b t).
Proof.
  intros D. unfold Viz.addTable. apply directed_setNodeMap, directed_pushNode, D.
Qed.

Lemma directed_addQualifiedColumn b q :
  directed b -> directed (Viz.addQualifiedColumn b q).
Proof.
  intros D. unfold Viz.addQualifiedColumn.
  destruct (Dict.has _ _); [exact D|].
  apply directed_setColumnNodeId, directed_pushNode, D.
Qed.

Lemma directed_addSimpleColumn b c :
  directed b -> directed (Viz.addSimpleColumn b c).
Proof.
  intros D. unfold Viz.addSimpleColumn.
  destruct (Dict.has _ _); [exact D|].
  apply directed_setColumnNodeId, directed_pushNode, D.
Qed.

Lemma directed_addStarColumn b : directed b -> directed (Viz.addStarColumn b).
Proof.
  intros D. unfold Viz.addStarColumn.
  destruct (Dict.has _ _); [exact D|].
  apply directed_setColumnNodeId, directed_pushNode, D.
Qed.

Lemma directed_processSelectPart al b part :
  directed b -> directed (Viz.processSelectPart al b part).
Proof.
  intros D. unfold Viz.processSelectPart.
  destruct (Re.exec Pat.asAliasRe _) as [m|].
  - apply directed_addOutputColumn.
    destruct (Viz.refsOf _ al).
    + destruct (Js.truthy _); [|exact D].
      apply directed_addSelected, directed_addSimpleColumn, D.
    + apply directed_addSelected, directed_setResolvedAlias, D.
  - destruct (Viz.refsOf _ al).
    + destruct (Js.truthy _).
      * apply directed_addOutputColumn, directed_addSelected,
          directed_addSimpleColumn, D.
      * destruct (String.eqb _ _); [|exact D].
        apply directed_addStarColumn, directed_addOutputColumn, D.
    + apply directed_addOutputColumn, directed_addSelected, D.
Qed.

Lemma to_query_ok ns s ty :
  ty <> modifies -> ends_ok ns (mkEdge s Viz.mainQueryNodeId ty None).
Proof.
  intros H. unfold ends_ok. cbn [etype target source].
  destruct ty; auto. contradiction H. reflexivity.
Qed.

Lemma directed_emitOutputColumn b o :
  directed b -> directed (Viz.emitOutputColumn b o).
Proof.
  intros D. unfold Viz.emitOutputColumn.
  destruct (_ && negb (Dict.has (Viz.aliasNodeIdMap b) o)).
  - apply directed_pushEdge; [|apply to_query_ok; discriminate].
    apply directed_setAliasNodeId; [apply directed_pushNode, D|].
    eexists. cbn [Viz.pushNode Viz.b_nodes].
    split; [apply in_or_app; right; left; reflexivity|]. split; reflexivity.
  - destruct (_ && negb (Js.arr_includes _ o)).
    + destruct (Viz.getId _ o); [|exact D].
      apply directed_pushEdge; [exact D|apply to_query_ok; discriminate].
    + destruct (_ && Dict.has _ "*"); [|exact D].
      destruct (Dict.get _ "*"); [|exact D].
      apply directed_pushEdge; [exact D|apply to_query_ok; discriminate].
Qed.

Lemma directed_emitProvides b entry :
  directed b -> directed (Viz.emitProvides b entry).
Proof.
  intros D. destruct entry as [tn cols]. unfold Viz.emitProvides.
  destruct (Viz.getId _ _) as [tid|]; [|exact D].
  apply fold_left_inv; [|exact D]. intros b' c D'.
  destruct (Viz.getId _ _); [|exact D'].
  apply directed_pushEdge; [exact D'|exact I].
Qed.

Lemma getId_get m k v : Viz.getId m k = Some v -> Dict.get m k = Some v.
Proof.
  unfold Viz.getId. destruct (Dict.get m k) as [x|]; [|discriminate].
  destruct (Js.is_empty x); [discriminate|exact (fun H => H)].
Qed.

Lemma directed_emitSelectedFlow b q :
  directed b -> directed (Viz.emitSelectedFlow b q).
Proof.
  intros D. unfold Viz.emitSelectedFlow.
  destruct (Viz.getId (Viz.columnNodeIdMap b) q); [|exact D].
  destruct (Js.truthy _).
  - destruct (Viz.getId _ _) as [aid|] eqn:G; [|exact D].
    apply directed_pushEdge; [exact D|].
    right. cbn [target]. apply (dr_aliases b D _ _ (getId_get _ _ _ G)).
  - destruct (_ || _); [|exact D].
    destruct (Viz.linked _ _ _ _); [exact D|].
    apply directed_pushEdge; [exact D|apply to_query_ok; discriminate].
Qed.

Lemma directed_emitJoin b cond : directed b -> directed (Viz.emitJoin b cond).
Proof.
  intros D. destruct cond as [l r]. unfold Viz.emitJoin.
  destruct (_ && _); [|exact D].
  destruct (Viz.getId _ (Js.toLowerCase l)) as [lid|]; [|exact D].
  destruct (Viz.getId _ (Js.toLowerCase r)) as [rid|]; [|exact D].
  apply directed_pushEdge; [apply directed_pushEdge; [exact D|exact I]|exact I].
Qed.

Lemma directed_emitWhere sql al b : directed b -> directed (Viz.emitWhere sql al b).
Proof.
  intros D. unfold Viz.emitWhere.
  destruct (Re.exec _ _); [|exact D].
  destruct (Js.truthy _); [|exact D].
  apply fold_left_inv; [|exact D]. intros b' q D'. unfold Viz.emitConstraint.
  destruct (Viz.getId _ _); [|exact D'].
  apply directed_pushEdge; [exact D'|apply to_query_ok; discriminate].
Qed.

Lemma directed_emitModifies kw re sql b :
  directed b -> directed (Viz.emitModifies kw re sql b).
Proof.
  intros D. unfold Viz.emitModifies.
  destruct (Js.includes _ _); [|exact D].
  destruct (Re.exec _ _); [|exact D].
  destruct (Viz.getId _ _); [|exact D].
  apply directed_pushEdge; [exact D|reflexivity].
Qed.

Lemma generate_directed sql pr :
  exists b, directed b /\
            Viz.generateVisualizationData sql pr
            = mkGraph (Viz.b_nodes b) (Viz.b_edges b).
Proof.
  unfold Viz.generateVisualizationData.
  destruct (Viz.extractTableColumnReferences sql _ _ _) as [tcr qs].
  eexists. split; [|reflexivity].
  repeat first
    [ apply directed_emitModifies
    | apply directed_emitWhere
    | apply fold_left_inv;
      [ intros;
        first [ apply directed_emitJoin | apply directed_emitSelectedFlow
              | apply directed_emitProvides | apply directed_emitOutputColumn
              | apply directed_processSelectPart
              | apply directed_addQualifiedColumn
              | apply directed_addTable ]; assumption
      | ] ].
  apply directed_initial.
Qed.

(** X28. Where the edges of a generated graph lead: a constrains edge
    ends at the query node, a modifies edge starts at the query node, and
    a flows_to edge ends at the query node or at an alias node of the
    graph. *)
Theorem edges_lead_where_their_kind_allows :
  forall (sql : string) (pr : Parser.parse_result),
    let g := Viz.generateVisualizationData sql pr in
    Forall (fun e =>
              match etype e with
              | constrains => target e = "query_main"
              | modifies => source e = "query_main"
              | flows_to =>
                  target e = "query_main" \/
                  exists n, In n (nodes g) /\ id n = target e /\ isAlias n = true
              | _ => True
              end)
           (edges g).
Proof.
  intros sql pr g. subst g. destruct (generate_directed sql pr) as [b [D ->]].
  apply Forall_forall. intros e He. cbn [edges nodes] in *.
  apply (dr_ends b D e He).
Qed.

(** ** The sample-data path: ids, and the way into the query *)

Lemma with_query_ids (a b : list string) (l : list node) q :
  ids match a, b with
      | [], [] => l
      | _, _ => l ++ [q]
      end
  = ids l ++ (if List.length a + List.length b =? 0 then [] else [id q]).
Proof.
  destruct a, b; cbn [List.length Nat.add Nat.eqb];
    rewrite ?ids_app, ?app_nil_r; reflexivity.
Qed.

Lemma sample_ids es0 sql :
  ids (nodes (Sample.createSampleDataFromSQL (mkGraph [] es0) sql))
  = map Local.tableId
        (List.seq 0 (List.length
                       (Sample.unique
                          (map Sample.tableName
                               (Sample.extractTableInfoWithAliases sql)))))
    ++ map Local.columnId
         (List.seq 0 (List.length (Sample.extractColumnsWithAliases sql)))
    ++ (if List.length
             (Sample.unique
                (map Sample.tableName (Sample.extractTableInfoWithAliases sql)))
           + List.length (Sample.extractColumnsWithAliases sql) =? 0
        then [] else ["main_query"]).
Proof.
  unfold Sample.createSampleDataFromSQL, Sample.createRelationshipsFromSQL.
  cbn [nodes app]. rewrite with_query_ids, ids_app, <- app_assoc.
  rewrite (ids_indexed Sample.tableId), (ids_indexed Sample.columnId).
  reflexivity.
Qed.

(** X29. When the data has no node yet, which is when
    [validateAndNormalizeData] calls it, [createSampleDataFromSQL] makes
    nodes with pairwise distinct ids, and the query node is among them
    exactly when a table or a column is found. *)
Theorem sample_ids_are_unique :
  forall (es0 : list edge) (sqlInput : string),
    let g := Sample.createSampleDataFromSQL (mkGraph [] es0) sqlInput in
    NoDup (ids (nodes g)) /\
    (In "main_query" (ids (nodes g)) <->
     (Sample.unique (map Sample.tableName
                         (Sample.extractTableInfoWithAliases sqlInput)) <> []
      \/ Sample.extractColumnsWithAliases sqlInput <> [])).
Proof.
  intros es0 sqlInput g. subst g. rewrite sample_ids.
  set (tables := Sample.unique _).
  set (columns := Sample.extractColumnsWithAliases sqlInput).
  split.
  - destruct (_ =? 0).
    + apply (scheme_nodup _ _ false).
    + apply (scheme_nodup _ _ true).
  - split.
    + intros H. destruct tables as [|t ts]; [|left; discriminate].
      destruct columns as [|c cs]; [|right; discriminate].
      destruct H.
    + intros H. apply in_or_app. right. apply in_or_app. right.
      destruct (_ + _ =? 0) eqn:E; [|simpl; auto].
      apply Nat.eqb_eq in E.
      destruct H as [H|H]; exfalso; apply H.
      * destruct tables; [reflexivity|simpl in E; lia].
      * destruct columns; [reflexivity|simpl in E; lia].
Qed.

Lemma in_with_query (a b : list string) (l : list node) q n :
  In n match a, b with
       | [], [] => l
       | _, _ => l ++ [q]
       end ->
  In n l \/ n = q.
Proof.
  destruct a, b; intros H; auto;
    apply in_app_or in H; destruct H as [H|[<-|[]]]; auto.
Qed.

Lemma query_is_there (a b : list string) (l : list node) q :
  a <> [] \/ b <> [] ->
  In (id q) (ids match a, b with
                 | [], [] => l
                 | _, _ => l ++ [q]
                 end).
Proof.
  intros H. rewrite with_query_ids. apply in_or_app. right.
  destruct (_ + _ =? 0) eqn:E; [|simpl; auto].
  apply Nat.eqb_eq in E. exfalso.
  destruct H as [H|H]; apply H.
  - destruct a; [reflexivity|simpl in E; lia].
  - destruct b; [reflexivity|simpl in E; lia].
Qed.

Lemma indexed_not_nil l (ix : nat * string) : In ix (Sample.indexed l) -> l <> [].
Proof. intros H E. subst l. destruct H. Qed.

(** X30. On the sample-data path every node made by
    [createSampleDataFromSQL] is tied to the query node: each column node
    by a flows_to edge, each table node by a sources edge. *)
Theorem sample_nodes_reach_the_query :
  forall (es0 : list edge) (sqlInput : string),
    let g := Sample.createSampleDataFromSQL (mkGraph [] es0) sqlInput in
    Forall (fun n =>
              match type n with
              | column => In (mkEdge (id n) "main_query" flows_to None) (edges g)
              | table => In (mkEdge (id n) "main_query" sources None) (edges g)
              | query => True
              end)
           (nodes g).
Proof.
  intros es0 sqlInput g. subst g.
  unfold Sample.createSampleDataFromSQL, Sample.createRelationshipsFromSQL.
  cbn [nodes edges app].
  set (tables := Sample.unique _).
  set (columns := Sample.extractColumnsWithAliases sqlInput).
  set (q := mkNode "main_query" "Main Query" query None false).
  set (tn := map (fun it => mkNode (Sample.tableId (fst it)) (snd it) table None false)
                 (Sample.indexed tables)).
  set (cn := map (fun ic => mkNode (Sample.columnId (fst ic)) (snd ic) column None false)
                 (Sample.indexed columns)).
  set (ns := match tables, columns with
             | [], [] => tn ++ cn
             | _, _ => (tn ++ cn) ++ [q]
             end).
  set (es2 := match fold_left _ _ es0 with [] => _ | _ => _ end).
  apply Forall_forall. intros n Hn.
  apply in_with_query in Hn. destruct Hn as [Hn| ->]; [|exact I].
  assert (Q : has_id ns "main_query" = true).
  { apply has_id_in. apply (query_is_there tables columns (tn ++ cn) q).
    apply in_app_or in Hn. destruct Hn as [Hn|Hn];
      apply in_map_iff in Hn; destruct Hn as [ix [_ Hix]];
      [left|right]; eapply indexed_not_nil, Hix. }
  rewrite Q.
  apply in_app_or in Hn. destruct Hn as [Hn|Hn];
    apply in_map_iff in Hn; destruct Hn as [ix [<- Hix]]; cbn [type id].
  - apply in_or_app. right.
    apply (in_map (fun it => mkEdge (Sample.tableId (fst it)) "main_query"
                               sources None) _ _ Hix).
  - apply in_or_app. left. apply in_or_app. right.
    apply (in_map (fun ic => mkEdge (Sample.columnId (fst ic)) "main_query"
                               flows_to None) _ _ Hix).
Qed.

(** * The order of the qualified columns *)

(** ** Completeness of the matcher on plain patterns *)

Lemma star_greedy_complete {A} c (k : Re.cont A) w : forall s' pos cs,
  all_in c w = true ->
  (forall cs', k (pos + String.length w) s' cs' <> None) ->
  Re.star_greedy c k pos (w +++ s') cs <> None.
Proof.
  induction w as [|a w IH]; intros s' pos cs Hw Hk.
  - cbn [String.append String.length] in *. rewrite Nat.add_0_r in Hk.
    destruct s' as [|b s0]; cbn [Re.star_greedy]; [apply Hk|].
    destruct (Re.cmatch c b); [|apply Hk].
    destruct (Re.star_greedy c k (S pos) s0 cs); [discriminate|apply Hk].
  - cbn [all_in] in Hw. apply andb_true_iff in Hw. destruct Hw as [Ha Hw].
    cbn [String.append Re.star_greedy]. rewrite Ha.
    assert (H : Re.star_greedy c k (S pos) (w +++ s') cs <> None).
    { apply IH; [exact Hw|]. intros cs'. specialize (Hk cs').
      cbn [String.length] in Hk. rewrite Nat.add_succ_r in Hk. exact Hk. }
    destruct (Re.star_greedy c k (S pos) (w +++ s') cs);
      [discriminate|contradiction H; reflexivity].
Qed.

Lemma star_lazy_complete {A} c (k : Re.cont A) w : forall s' pos cs,
  all_in c w = true ->
  (forall cs', k (pos + String.length w) s' cs' <> None) ->
  Re.star_lazy c k pos (w +++ s') cs <> None.
Proof.
  induction w as [|a w IH]; intros s' pos cs Hw Hk.
  - cbn [String.append String.length] in *. rewrite Nat.add_0_r in Hk.
    specialize (Hk cs).
    destruct s' as [|b s0]; cbn [Re.star_lazy];
      destruct (k pos _ cs); try discriminate; contradiction Hk; reflexivity.
  - cbn [all_in] in Hw. apply andb_true_iff in Hw. destruct Hw as [Ha Hw].
    cbn [String.append Re.star_lazy].
    destruct (k pos (String a (w +++ s')) cs); [discriminate|].
    rewrite Ha. apply IH; [exact Hw|]. intros cs'. specialize (Hk cs').
    cbn [String.length] in Hk. rewrite Nat.add_succ_r in Hk. exact Hk.
Qed.

(** If a text of a plain pattern stands at the head of the input, and
    the continuation accepts what follows it, the matcher finds a match
    (of this text or of another one that it tries first). *)
Lemma rmatch_complete r :
  plain r = true ->
  forall A (k : Re.cont A) pos w s' cs,
    lang r w ->
    (forall cs', k (pos + String.length w) s' cs' <> None) ->
    Re.rmatch r k pos (w +++ s') cs <> None.
Proof.
  induction r as [|c|r1 IH1 r2 IH2|r1 IH1 r2 IH2|c|c|r1 IH1|g r1 IH1|r1 IH1| |];
    cbn [plain]; intros Hp A k pos w s' cs Hl Hk;
    cbn [lang] in Hl; cbn [Re.rmatch]; try discriminate.
  - subst w. cbn [String.append String.length] in *.
    rewrite Nat.add_0_r in Hk. apply Hk.
  - destruct Hl as [a [-> Ha]]. cbn [String.append]. rewrite Ha.
    specialize (Hk cs). cbn [String.length] in Hk.
    rewrite Nat.add_1_r in Hk. exact Hk.
  - apply andb_true_iff in Hp. destruct Hp as [P1 P2].
    destruct Hl as [w1 [w2 [-> [L1 L2]]]]. rewrite append_assoc_str.
    apply (IH1 P1); [exact L1|]. intros cs1.
    apply (IH2 P2); [exact L2|]. intros cs2.
    specialize (Hk cs2). rewrite append_length_str, Nat.add_assoc in Hk.
    exact Hk.
  - apply andb_true_iff in Hp. destruct Hp as [P1 P2].
    destruct (Re.rmatch r1 k pos (w +++ s') cs) eqn:E; [discriminate|].
    destruct Hl as [L|L].
    + exfalso. exact (IH1 P1 _ k pos w s' cs L Hk E).
    + apply (IH2 P2); assumption.
  - apply star_greedy_complete; assumption.
  - apply star_lazy_complete; assumption.
  - destruct (Re.rmatch r1 k pos (w +++ s') cs) eqn:E; [discriminate|].
    destruct Hl as [->|L].
    + cbn [String.append String.length] in *. rewrite Nat.add_0_r in Hk.
      apply Hk.
    + exfalso. exact (IH1 Hp _ k pos w s' cs L Hk E).
  - apply (IH1 Hp); [exact Hl|]. intros cs'. apply Hk.
Qed.

Lemma at_pos_complete r pos w s' :
  plain r = true -> lang r w -> Re.at_pos r pos (w +++ s') <> None.
Proof.
  intros Hp Hl. unfold Re.at_pos. apply rmatch_complete; [exact Hp|exact Hl|].
  intros cs'. discriminate.
Qed.

(** ** What a match records *)

Lemma at_pos_shape r pos s m :
  Re.at_pos r pos s = Some m ->
  Re.index m = pos /\ s = Re.text m +++ Re.after m /\
  Re.stop m = pos + String.length (Re.text m) /\ lang r (Re.text m).
Proof.
  unfold Re.at_pos. intros H. apply rmatch_sound in H.
  destruct H as [w [s' [cs' [-> [L [_ H]]]]]]. injection H as <-.
  cbn [Re.index Re.text Re.after Re.stop].
  replace (pos + String.length w - pos) with (String.length w) by lia.
  rewrite substring_prefix. auto.
Qed.

(** ** The search is leftmost *)

Lemma search_none r pre : forall pos rest,
  Re.search r pos (pre +++ rest) = None ->
  Re.at_pos r (pos + String.length pre) rest = None.
Proof.
  induction pre as [|a pre IH]; intros pos rest H.
  - cbn [String.append String.length] in *. rewrite Nat.add_0_r.
    destruct rest; cbn [Re.search] in H;
      destruct (Re.at_pos r pos _); [discriminate|reflexivity|discriminate|reflexivity].
  - cbn [String.append Re.search] in H.
    destruct (Re.at_pos r pos _); [discriminate|].
    apply IH in H. cbn [String.length]. rewrite Nat.add_succ_r. exact H.
Qed.

Lemma search_some r s : forall pos m,
  Re.search r pos s = Some m ->
  exists pre rest,
    s = pre +++ rest /\
    Re.at_pos r (pos + String.length pre) rest = Some m /\
    (forall pre' rest',
       s = pre' +++ rest' -> String.length pre' < String.length pre ->
       Re.at_pos r (pos + String.length pre') rest' = None).
Proof.
  induction s as [|a s IH]; intros pos m H; cbn [Re.search] in H.
  - destruct (Re.at_pos r pos EmptyString) eqn:E; [|discriminate].
    injection H as ->. exists EmptyString, EmptyString.
    cbn [String.append String.length]. rewrite Nat.add_0_r.
    split; [reflexivity|]. split; [exact E|]. intros; lia.
  - destruct (Re.at_pos r pos (String a s)) eqn:E.
    + injection H as ->. exists EmptyString, (String a s).
      cbn [String.append String.length]. rewrite Nat.add_0_r.
      split; [reflexivity|]. split; [exact E|]. intros; lia.
    + destruct (IH _ _ H) as [pre [rest [-> [Hm Hl]]]].
      exists (String a pre), rest. cbn [String.append String.length].
      split; [reflexivity|]. split; [rewrite Nat.add_succ_r; exact Hm|].
      intros pre' rest' Hs Hlt. destruct pre' as [|b pre'].
      * cbn [String.append String.length] in *. subst rest'.
        rewrite Nat.add_0_r. exact E.
      * cbn [String.append String.length] in *. injection Hs as _ Hs.
        rewrite Nat.add_succ_r. apply Hl; [exact Hs|lia].
Qed.

Lemma append_split pre : forall s pre1 t,
  pre +++ s = pre1 +++ t -> String.length pre <= String.length pre1 ->
  exists skip, pre1 = pre +++ skip /\ s = skip +++ t.
Proof.
  induction pre as [|a pre IH]; intros s pre1 t H L.
  - exists pre1. auto.
  - destruct pre1 as [|b pre1]; [simpl in L; lia|].
    cbn [String.append] in H. injection H as -> H.
    destruct (IH _ _ _ H) as [skip [-> ->]]; [simpl in L; lia|].
    exists skip. auto.
Qed.

(** ** The loop over a global pattern scans the text from left to right *)

Lemma exec_loop_scanned r sql :
  plain r = true -> 0 < min_len r ->
  forall fuel pos s pre,
    sql = pre +++ s -> String.length pre = pos -> String.length s < fuel ->
    scanned r sql pos (Re.exec_loop r fuel pos s).
Proof.
  intros Hp Hr. induction fuel as [|fuel IH]; intros pos s pre Hs Hl Hf; [lia|].
  cbn [Re.exec_loop]. destruct (Re.search r pos s) as [m|] eqn:E.
  - destruct (search_some _ _ _ _ E) as [skip [rest [-> [Hm Hleft]]]].
    destruct (at_pos_shape _ _ _ _ Hm) as [Hi [Hrest [Hstop Hlang]]].
    cbn [scanned]. split; [lia|]. split; [|split].
    + exists (pre +++ skip), rest. rewrite append_assoc_str.
      split; [exact Hs|].
      split; [rewrite append_length_str, Hi, Hl; reflexivity|].
      rewrite Hi. exact Hm.
    + intros p Hpp [pre1 [w [post [Hs1 [Hl1 Hw]]]]].
      rewrite Hs in Hs1.
      destruct (append_split _ _ _ _ Hs1) as [skip' [-> Hs2]]; [lia|].
      rewrite append_length_str in Hl1.
      assert (N : Re.at_pos r (pos + String.length skip') (w +++ post) = None).
      { apply Hleft; [exact Hs2|lia]. }
      exact (at_pos_complete r _ w post Hp Hw N).
    + apply (IH _ _ (pre +++ skip +++ Re.text m)).
      * rewrite Hs, Hrest, !append_assoc_str. reflexivity.
      * rewrite !append_length_str. lia.
      * pose proof (search_consumes _ _ _ _ E). lia.
  - cbn [scanned]. intros p Hpp [pre1 [w [post [Hs1 [Hl1 Hw]]]]].
    rewrite Hs in Hs1.
    destruct (append_split _ _ _ _ Hs1) as [skip [-> Hs2]]; [lia|].
    subst s. apply search_none in E.
    exact (at_pos_complete r _ w post Hp Hw E).
Qed.

Lemma exec_all_scanned r sql :
  plain r = true -> 0 < min_len r -> scanned r sql 0 (Re.exec_all r sql).
Proof.
  intros Hp Hr. unfold Re.exec_all.
  apply (exec_loop_scanned r sql Hp Hr _ 0 sql EmptyString); [reflexivity..|lia].
Qed.

(** ** The shape of a reference *)

Lemma star_greedy_max {A} c (k : Re.cont A) :
  (forall p s cs, k p s cs <> None) ->
  forall s pos cs,
    exists w s',
      s = w +++ s' /\ all_in c w = true /\
      match s' with
      | String a _ => Re.cmatch c a = false
      | EmptyString => True
      end /\
      Re.star_greedy c k pos s cs = k (pos + String.length w) s' cs.
Proof.
  intros Hk. induction s as [|a s IH]; intros pos cs.
  - exists EmptyString, EmptyString. cbn [String.length]. rewrite Nat.add_0_r.
    repeat split.
  - cbn [Re.star_greedy]. destruct (Re.cmatch c a) eqn:Ea.
    + destruct (IH (S pos) cs) as [w [s' [-> [Hw [Hs E]]]]].
      exists (String a w), s'. cbn [String.append all_in String.length].
      rewrite Ea, Hw, Nat.add_succ_r. repeat split; [exact Hs|].
      rewrite E. cbn [Nat.add].
      destruct (k (S (pos + String.length w)) s' cs) eqn:K; [reflexivity|].
      exfalso. exact (Hk _ _ _ K).
    + exists EmptyString, (String a s). cbn [String.length].
      rewrite Nat.add_0_r. repeat split. exact Ea.
Qed.

Lemma ident_lang w : is_ident w = true -> lang Re.ident w.
Proof.
  destruct w as [|a w]; [discriminate|]. cbn [is_ident]. intros H.
  apply andb_true_iff in H. destruct H as [Ha Hw].
  unfold Re.ident. cbn [lang]. exists (String a EmptyString), w.
  split; [reflexivity|]. split; [exists a; auto | exact Hw].
Qed.

Lemma reference_is_match sql p :
  some_reference_at sql p -> matches_at Pat.tableColumnRe sql p.
Proof.
  intros [pre [q [w1 [w2 [c [post [E [L [Hq [H1 [H2 Hc]]]]]]]]]]].
  exists pre, (q +++ w1 +++ "." +++ w2 +++ c), post.
  split; [rewrite E, !append_assoc_str; reflexivity|]. split; [exact L|].
  unfold Pat.tableColumnRe, Re.seq. cbn [fold_right lang].
  exists q, (w1 +++ "." +++ w2 +++ c). split; [reflexivity|].
  split; [apply ident_lang, Hq|].
  exists w1, ("." +++ w2 +++ c). split; [reflexivity|]. split; [exact H1|].
  exists ".", (w2 +++ c). split; [reflexivity|].
  split; [exists "."%char; split; reflexivity|].
  exists w2, c. split; [reflexivity|]. split; [exact H2|].
  exists c, EmptyString. rewrite append_nil_r. split; [reflexivity|].
  split; [apply ident_lang, Hc | reflexivity].
Qed.

Lemma tableColumn_at pos s m :
  Re.at_pos Pat.tableColumnRe pos s = Some m ->
  exists w1 w2,
    s = Pat.cap m 1 +++ w1 +++ "." +++ w2 +++ Pat.cap m 2 +++ Re.after m /\
    Re.stop m = pos + String.length
                        (Pat.cap m 1 +++ w1 +++ "." +++ w2 +++ Pat.cap m 2) /\
    is_ident (Pat.cap m 1) = true /\ all_in Re.Space w1 = true /\
    all_in Re.Space w2 = true /\ is_ident (Pat.cap m 2) = true /\
    starts_with_idchar (Re.after m) = false.
Proof.
  unfold Re.at_pos, Pat.tableColumnRe, Re.seq. cbn [fold_right].
  cbn [Re.rmatch]. intros H.
  apply rmatch_sound in H. destruct H as [q [s1 [cs1 [E1 [Lq [F1 H]]]]]].
  cbn beta in H.
  apply star_greedy_sound in H. destruct H as [w1 [s2 [E2 [L1 H]]]].
  cbn beta in H. unfold Pat.dot in H. cbn [Re.rmatch] in H.
  destruct s2 as [|d s3]; [discriminate|].
  destruct (Re.cmatch (Re.Lit ".") d) eqn:Ed; [|discriminate].
  cbn [Re.cmatch] in Ed. apply Ascii.eqb_eq in Ed. subst d.
  apply star_greedy_sound in H. destruct H as [w2 [s4 [E4 [L2 H]]]].
  cbn beta in H. unfold Re.ident in H at 1. cbn [Re.rmatch] in H.
  destruct s4 as [|b s5]; [discriminate|].
  destruct (Re.cmatch Re.IdStart b) eqn:Eb; [|discriminate].
  match type of H with
  | Re.star_greedy ?c ?k ?p ?s ?cs = _ =>
      destruct (star_greedy_max c k (fun _ _ _ K => ltac:(discriminate K)) s p cs)
        as [c' [s' [E5 [Lc [Hmax E]]]]]
  end.
  rewrite E in H. clear E.
  match type of H with
  | Some ?x = Some _ => assert (Hm : m = x) by congruence
  end.
  clear H. subst m.
  unfold Pat.cap. cbn [Re.groups Re.group Nat.eqb Re.after Re.stop].
  match goal with
  | |- context [String.substring 0 ?n (String b s5)] =>
      replace n with (S (String.length c')) by lia
  end.
  replace (pos + String.length q - pos) with (String.length q) by lia.
  assert (C1 : String.substring 0 (String.length q) s = q)
    by (rewrite E1; apply substring_prefix).
  assert (C2 : String.substring 0 (S (String.length c')) (String b s5)
               = String b c').
  { rewrite E5. cbn [String.substring]. rewrite substring_prefix. reflexivity. }
  rewrite C1, C2. exists w1, w2.
  split; [rewrite E1, E2, E4, E5; reflexivity|].
  split; [repeat first [rewrite append_length_str | progress cbn [String.length append]]; lia|].
  split; [apply lang_ident, Lq|]. split; [exact L1|]. split; [exact L2|].
  split; [cbn [is_ident]; rewrite Eb, Lc; reflexivity|].
  destruct s'; [reflexivity|exact Hmax].
Qed.

(** ** The matches of [tableColumnRe] are the references of the text *)

Lemma scanned_in_text_order sql ms : forall from,
  scanned Pat.tableColumnRe sql from ms ->
  in_text_order sql from (map occurrenceOf ms).
Proof.
  induction ms as [|m ms IH]; intros from H; cbn [scanned map in_text_order] in *.
  - intros p Hp R. apply (H p Hp). apply reference_is_match, R.
  - destruct H as [Hle [Hf [Hno Hs]]].
    split; [exact Hle|]. split; [|split].
    + destruct Hf as [pre [rest [E [Hl Hm]]]].
      destruct (tableColumn_at _ _ _ Hm)
        as [w1 [w2 [Er [Hstop [I1 [S1 [S2 [I2 Hpost]]]]]]]].
      exists pre, w1, w2, (Re.after m).
      cbn [occurrenceOf o_start o_stop o_qualifier o_column].
      repeat split; try assumption.
      rewrite E, Er. reflexivity.
    + intros p Hp R. apply (Hno p Hp), reference_is_match, R.
    + apply IH, Hs.
Qed.








(** * Unqualified columns in the graph builder *)

(** ** A bare identifier as a select item *)

Lemma all_in_app c a b : all_in c (a +++ b) = all_in c a && all_in c b.
Proof.
  induction a as [|x a IH]; simpl; [reflexivity|].
  rewrite IH, andb_assoc. reflexivity.
Qed.

Lemma ident_all_idchar s : is_ident s = true -> all_in Re.IdChar s = true.
Proof.
  destruct s as [|a s]; [discriminate|]. cbn [is_ident all_in]. intros H.
  apply andb_true_iff in H. destruct H as [Ha Hs].
  rewrite (idstart_idchar _ Ha), Hs. reflexivity.
Qed.

Lemma idchar_not_white a :
  Re.cmatch Re.IdChar a = true -> Re.cmatch Re.Space a = false.
Proof.
  destruct a as [[] [] [] [] [] [] [] []]; vm_compute; congruence.
Qed.

Lemma idchar_not_paren a :
  Re.cmatch Re.IdChar a = true -> Re.cmatch (Re.Lit "(") a = false.
Proof.
  destruct a as [[] [] [] [] [] [] [] []]; vm_compute; congruence.
Qed.

(** What a pattern finds in a text is a piece of the text. *)
Lemma exec_in_text r s m :
  Re.exec r s = Some m ->
  exists pre w post, s = pre +++ w +++ post /\ lang r w.
Proof.
  unfold Re.exec. intros H. apply search_some in H.
  destruct H as [pre [rest [E [H _]]]]. apply at_pos_shape in H.
  destruct H as [_ [E' [_ L]]].
  exists pre, (Re.text m), (Re.after m). rewrite E, E'. auto.
Qed.

Lemma ident_inside p pre w post :
  is_ident p = true -> p = pre +++ w +++ post -> all_in Re.IdChar w = true.
Proof.
  intros Hi E. apply ident_all_idchar in Hi. rewrite E, !all_in_app in Hi.
  apply andb_true_iff in Hi. destruct Hi as [_ Hi].
  apply andb_true_iff in Hi. apply Hi.
Qed.

Ltac split_all H :=
  rewrite ?all_in_app in H; cbn [all_in] in H;
  repeat match goal with
         | X : _ && _ = true |- _ => apply andb_true_iff in X; destruct X
         end.

(** An identifier holds no white space and no parenthesis, so none of
    the patterns for [AS] and for function calls is found in it. *)
Lemma asAlias_none p : is_ident p = true -> Re.exec Pat.asAliasRe p = None.
Proof.
  intros Hi. destruct (Re.exec Pat.asAliasRe p) as [m|] eqn:E;
    [exfalso|reflexivity].
  apply exec_in_text in E. destruct E as [pre [w [post [E L]]]].
  pose proof (ident_inside _ _ _ _ Hi E) as Hw.
  unfold Pat.asAliasRe, Re.seq, Re.ws1, Re.plus in L.
  cbn [fold_right lang] in L.
  destruct L as [w1 [w2 [-> [_ [w3 [w4 [-> [_ [w5 [w6 [-> [L _]]]]]]]]]]]].
  destruct L as [w7 [w8 [-> [[a [-> Ha]] _]]]].
  split_all Hw.
  match goal with
  | X : Re.cmatch Re.IdChar a = true |- _ =>
      rewrite (idchar_not_white _ X) in Ha
  end.
  discriminate.
Qed.

Lemma asSuffix_none p : is_ident p = true -> Re.exec Pat.asSuffixRe p = None.
Proof.
  intros Hi. destruct (Re.exec Pat.asSuffixRe p) as [m|] eqn:E;
    [exfalso|reflexivity].
  apply exec_in_text in E. destruct E as [pre [w [post [E L]]]].
  pose proof (ident_inside _ _ _ _ Hi E) as Hw.
  unfold Pat.asSuffixRe, Re.seq, Re.ws1, Re.plus in L.
  cbn [fold_right lang] in L.
  destruct L as [w1 [w2 [-> [L _]]]].
  destruct L as [w7 [w8 [-> [[a [-> Ha]] _]]]].
  split_all Hw.
  match goal with
  | X : Re.cmatch Re.IdChar a = true |- _ =>
      rewrite (idchar_not_white _ X) in Ha
  end.
  discriminate.
Qed.

Lemma func_none p : is_ident p = true -> Re.exec Pat.funcRe p = None.
Proof.
  intros Hi. destruct (Re.exec Pat.funcRe p) as [m|] eqn:E;
    [exfalso|reflexivity].
  apply exec_in_text in E. destruct E as [pre [w [post [E L]]]].
  pose proof (ident_inside _ _ _ _ Hi E) as Hw.
  unfold Pat.funcRe, Re.seq in L.
  cbn [fold_right] in L.
  destruct L as [w1 [w2 [-> [_ [w3 [w4 [-> [_ [w5 [w6 [-> [L _]]]]]]]]]]]].
  destruct L as [a [-> Ha]].
  split_all Hw.
  match goal with
  | X : Re.cmatch Re.IdChar a = true |- _ =>
      rewrite (idchar_not_paren _ X) in Ha
  end.
  discriminate.
Qed.

Lemma unwrap_ident p : is_ident p = true -> Parser.unwrapExpression p = p.
Proof.
  intros Hi. unfold Parser.unwrapExpression, Re.remove_first.
  rewrite (asSuffix_none _ Hi), (func_none _ Hi). reflexivity.
Qed.

Lemma extractOriginal_ident p :
  is_ident p = true -> Js.includes p "." = false -> isSQLKeyword p = false ->
  Parser.extractOriginalColumnFromExpression p = Some p.
Proof.
  intros Hi Hd Hk. unfold Parser.extractOriginalColumnFromExpression.
  rewrite (unwrap_ident _ Hi), Hd.
  unfold Parser.isValidColumnName. rewrite test_identRe, Hi, Hk. reflexivity.
Qed.

(** The select item that is a bare identifier and no reserved word: its
    column node is made unless there is one, and the column is selected
    and is an output column. *)
Lemma processSelectPart_bare al b part :
  is_ident (Js.trim part) = true -> Js.includes (Js.trim part) "." = false ->
  isSQLKeyword (Js.trim part) = false ->
  Viz.processSelectPart al b part
  = Viz.addOutputColumn
      (Viz.addSelected (Viz.addSimpleColumn b (Js.trim part))
                       (Js.toLowerCase (Js.trim part)))
      (Js.toLowerCase (Js.trim part)).
Proof.
  intros Hi Hd Hk. unfold Viz.processSelectPart.
  rewrite (asAlias_none _ Hi).
  unfold Viz.refsOf, Viz.extractTableColumnReferences.
  rewrite (exec_all_tableColumn_none _ Hd). cbn [fold_left snd].
  rewrite (extractOriginal_ident _ Hi Hd Hk).
  cbn [Js.truthy Js.or_else]. rewrite (ident_not_empty _ Hi). reflexivity.
Qed.

(** ** Dotted names *)

Lemma lower_char_dot a :
  (if ascii_dec "." (Js.lower_char a) then true else false)
  = (if ascii_dec "." a then true else false).
Proof.
  destruct a as [[] [] [] [] [] [] [] []]; vm_compute; reflexivity.
Qed.

Lemma includes_lower_dot s :
  Js.includes (Js.toLowerCase s) "." = Js.includes s ".".
Proof.
  unfold Js.toLowerCase. induction s as [|a s IH]; [reflexivity|].
  assert (P : forall t, String.prefix "" t = true) by (intros [|]; reflexivity).
  cbn [Js.map_string Js.includes String.prefix]. rewrite IH, !P.
  f_equal. apply lower_char_dot.
Qed.

Lemma dotted_name t c : Js.includes (t +++ "." +++ c) "." = true.
Proof.
  apply (includes_suffix (String "." c)); [exists t; reflexivity|].
  cbn [String.prefix]. destruct (ascii_dec "." "."); [|congruence].
  destruct c; reflexivity.
Qed.

Lemma recordReference_dotted al acc m :
  Forall (fun q => Js.includes q "." = true) (snd acc) ->
  Forall (fun q => Js.includes q "." = true)
         (snd (Viz.recordReference al acc m)).
Proof.
  intros H. unfold Viz.recordReference. cbn [snd]. unfold Parser.pushUnique.
  destruct (Js.arr_includes _ _); [exact H|].
  apply Forall_app. split; [exact H|]. constructor; [|constructor].
  apply dotted_name.
Qed.

Lemma refsOf_dotted expr al :
  Forall (fun q => Js.includes q "." = true) (Viz.refsOf expr al).
Proof.
  unfold Viz.refsOf, Viz.extractTableColumnReferences.
  apply (fold_left_inv (fun acc => Forall (fun q => Js.includes q "." = true)
                                     (snd acc))).
  - intros acc m. apply recordReference_dotted.
  - constructor.
Qed.

(** ** The column map and the provides edges *)

Lemma registered_app ns l k v : registered ns k v -> registered (ns ++ l) k v.
Proof.
  intros [Hv [n [q [Hn H]]]]. split; [exact Hv|]. exists n, q.
  split; [apply in_or_app; left; exact Hn|exact H].
Qed.

Lemma attributed_pushNode b n : attributed b -> attributed (Viz.pushNode b n).
Proof.
  intros [C A P]. constructor;
    cbn [Viz.pushNode Viz.b_nodes Viz.b_edges Viz.columnNodeIdMap
         Viz.resolvedColumnAliases].
  - intros k v H. apply registered_app, C, H.
  - exact A.
  - intros e He Hp. destruct (P e He Hp) as [k [Hk R]].
    exists k. split; [exact Hk|apply registered_app, R].
Qed.

Lemma attributed_pushEdge b e :
  attributed b ->
  (etype e = provides ->
   exists k, Js.includes k "." = true /\
             registered (Viz.b_nodes b) k (target e)) ->
  attributed (Viz.pushEdge b e).
Proof.
  intros [C A P] He. constructor;
    cbn [Viz.pushEdge Viz.b_nodes Viz.b_edges Viz.columnNodeIdMap
         Viz.resolvedColumnAliases].
  - exact C.
  - exact A.
  - intros e' He'. apply in_app_or in He'. destruct He' as [He'|[<-|[]]]; auto.
Qed.

Lemma attributed_setColumnNodeId b k v :
  attributed b -> registered (Viz.b_nodes b) k v ->
  attributed (Viz.setColumnNodeId b k v).
Proof.
  intros [C A P] R. constructor;
    cbn [Viz.setColumnNodeId Viz.b_nodes Viz.b_edges Viz.columnNodeIdMap
         Viz.resolvedColumnAliases].
  - intros k' v'. rewrite get_set. destruct (String.eqb k k') eqn:E.
    + apply String.eqb_eq in E. subst k'. intros [= <-]. exact R.
    + apply C.
  - exact A.
  - exact P.
Qed.

Lemma attributed_setResolvedAlias b k v :
  attributed b -> Js.includes k "." = true ->
  attributed (Viz.setResolvedAlias b k v).
Proof.
  intros [C A P] Hk. constructor;
    cbn [Viz.setResolvedAlias Viz.b_nodes Viz.b_edges Viz.columnNodeIdMap
         Viz.resolvedColumnAliases].
  - exact C.
  - intros k' v'. rewrite get_set. destruct (String.eqb k k') eqn:E.
    + apply String.eqb_eq in E. subst k'. intros _. exact Hk.
    + apply A.
  - exact P.
Qed.

Lemma attributed_same b b' :
  Viz.b_nodes b' = Viz.b_nodes b -> Viz.b_edges b' = Viz.b_edges b ->
  Viz.columnNodeIdMap b' = Viz.columnNodeIdMap b ->
  Viz.resolvedColumnAliases b' = Viz.resolvedColumnAliases b ->
  attributed b -> attributed b'.
Proof.
  intros En Ee Ec Ea [C A P]. constructor; rewrite ?En, ?Ee, ?Ec, ?Ea; assumption.
Qed.

Lemma attributed_initial : attributed Viz.initial.
Proof.
  constructor;
    cbn [Viz.initial Viz.b_nodes Viz.b_edges Viz.columnNodeIdMap
         Viz.resolvedColumnAliases].
  - intros k v H. discriminate H.
  - intros k v H. discriminate H.
  - intros e [].
Qed.

Lemma attributed_setNodeMap b k v :
  attributed b -> attributed (Viz.setNodeMap b k v).
Proof. apply attributed_same; reflexivity. Qed.

Lemma attributed_setAliasNodeId b k v :
  attributed b -> attributed (Viz.setAliasNodeId b k v).
Proof. apply attributed_same; reflexivity. Qed.

Lemma attributed_addOutputColumn b k :
  attributed b -> attributed (Viz.addOutputColumn b k).
Proof. apply attributed_same; reflexivity. Qed.

Lemma attributed_addSelected b k :
  attributed b -> attributed (Viz.addSelected b k).
Proof. apply attributed_same; reflexivity. Qed.

Lemma attributed_addTable b t : attributed b -> attributed (Viz.addTable b t).
Proof.
  intros D. unfold Viz.addTable.
  apply attributed_setNodeMap, attributed_pushNode, D.
Qed.

(** A column node, as it is pushed, is registered under the lower-case
    form of the name given to it. *)
Lemma registered_new b i nm q :
  registered (Viz.b_nodes
                (Viz.pushNode b (mkNode ("col_" +++ i) nm column (Some q) false)))
             (Js.toLowerCase q) ("col_" +++ i).
Proof.
  split; [reflexivity|]. eexists. exists q.
  cbn [Viz.pushNode Viz.b_nodes].
  split; [apply in_or_app; right; left; reflexivity|].
  repeat split; reflexivity.
Qed.

Lemma attributed_addQualifiedColumn b q :
  attributed b -> attributed (Viz.addQualifiedColumn b q).
Proof.
  intros D. unfold Viz.addQualifiedColumn.
  destruct (Dict.has _ _); [exact D|].
  apply attributed_setColumnNodeId; [apply attributed_pushNode, D|].
  apply registered_new.
Qed.

Lemma attributed_addSimpleColumn b c :
  attributed b -> attributed (Viz.addSimpleColumn b c).
Proof.
  intros D. unfold Viz.addSimpleColumn.
  destruct (Dict.has _ _); [exact D|].
  apply attributed_setColumnNodeId; [apply attributed_pushNode, D|].
  apply registered_new.
Qed.

Lemma attributed_addStarColumn b :
  attributed b -> attributed (Viz.addStarColumn b).
Proof.
  intros D. unfold Viz.addStarColumn.
  destruct (Dict.has _ _); [exact D|].
  apply attributed_setColumnNodeId; [apply attributed_pushNode, D|].
  apply (registered_new b _ "*" "*").
Qed.

Lemma first_ref_dotted expr al ref0 rest :
  Viz.refsOf expr al = ref0 :: rest ->
  Js.includes (Js.toLowerCase ref0) "." = true.
Proof.
  intros E. pose proof (refsOf_dotted expr al) as F. rewrite E in F.
  inversion F as [|? ? H _]. rewrite includes_lower_dot. exact H.
Qed.

Lemma attributed_processSelectPart al b part :
  attributed b -> attributed (Viz.processSelectPart al b part).
Proof.
  intros D. unfold Viz.processSelectPart.
  destruct (Re.exec Pat.asAliasRe _) as [m|].
  - apply attributed_addOutputColumn.
    destruct (Viz.refsOf _ al) eqn:R.
    + destruct (Js.truthy _); [|exact D].
      apply attributed_addSelected, attributed_addSimpleColumn, D.
    + apply attributed_addSelected, attributed_setResolvedAlias; [exact D|].
      eapply first_ref_dotted, R.
  - destruct (Viz.refsOf _ al).
    + destruct (Js.truthy _).
      * apply attributed_addOutputColumn, attributed_addSelected,
          attributed_addSimpleColumn, D.
      * destruct (String.eqb _ _); [|exact D].
        apply attributed_addStarColumn, attributed_addOutputColumn, D.
    + apply attributed_addOutputColumn, attributed_addSelected, D.
Qed.

Ltac not_provides := intros Hprov; discriminate Hprov.

Lemma attributed_emitOutputColumn b o :
  attributed b -> attributed (Viz.emitOutputColumn b o).
Proof.
  intros D. unfold Viz.emitOutputColumn.
  destruct (_ && negb (Dict.has (Viz.aliasNodeIdMap b) o)).
  - apply attributed_pushEdge; [|not_provides].
    apply attributed_setAliasNodeId, attributed_pushNode, D.
  - destruct (_ && negb (Js.arr_includes _ o)).
    + destruct (Viz.getId _ o); [|exact D].
      apply attributed_pushEdge; [exact D|not_provides].
    + destruct (_ && Dict.has _ "*"); [|exact D].
      destruct (Dict.get _ "*"); [|exact D].
      apply attributed_pushEdge; [exact D|not_provides].
Qed.

Lemma attributed_emitProvides b entry :
  attributed b -> attributed (Viz.emitProvides b entry).
Proof.
  intros D. destruct entry as [tn cols]. unfold Viz.emitProvides.
  destruct (Viz.getId _ _) as [tid|]; [|exact D].
  apply fold_left_inv; [|exact D]. intros b' c D'.
  destruct (Viz.getId _ _) as [cid|] eqn:G; [|exact D'].
  apply attributed_pushEdge; [exact D'|]. intros _. cbn [target].
  exists (Js.toLowerCase (tn +++ "." +++ c)). split.
  - rewrite includes_lower_dot. apply dotted_name.
  - apply (at_columns b' D'), getId_get, G.
Qed.

Lemma attributed_emitSelectedFlow b q :
  attributed b -> attributed (Viz.emitSelectedFlow b q).
Proof.
  intros D. unfold Viz.emitSelectedFlow.
  destruct (Viz.getId (Viz.columnNodeIdMap b) q); [|exact D].
  destruct (Js.truthy _).
  - destruct (Viz.getId _ _) as [aid|]; [|exact D].
    apply attributed_pushEdge; [exact D|not_provides].
  - destruct (_ || _); [|exact D].
    destruct (Viz.linked _ _ _ _); [exact D|].
    apply attributed_pushEdge; [exact D|not_provides].
Qed.

Lemma attributed_emitJoin b cond :
  attributed b -> attributed (Viz.emitJoin b cond).
Proof.
  intros D. destruct cond as [l r]. unfold Viz.emitJoin.
  destruct (_ && _); [|exact D].
  destruct (Viz.getId _ (Js.toLowerCase l)) as [lid|]; [|exact D].
  destruct (Viz.getId _ (Js.toLowerCase r)) as [rid|]; [|exact D].
  apply attributed_pushEdge;
    [apply attributed_pushEdge; [exact D|not_provides]|not_provides].
Qed.

Lemma attributed_emitWhere sql al b :
  attributed b -> attributed (Viz.emitWhere sql al b).
Proof.
  intros D. unfold Viz.emitWhere.
  destruct (Re.exec _ _); [|exact D].
  destruct (Js.truthy _); [|exact D].
  apply fold_left_inv; [|exact D]. intros b' q D'. unfold Viz.emitConstraint.
  destruct (Viz.getId _ _); [|exact D'].
  apply attributed_pushEdge; [exact D'|not_provides].
Qed.

Lemma attributed_emitModifies kw re sql b :
  attributed b -> attributed (Viz.emitModifies kw re sql b).
Proof.
  intros D. unfold Viz.emitModifies.
  destruct (Js.includes _ _); [|exact D].
  destruct (Re.exec _ _); [|exact D].
  destruct (Viz.getId _ _); [|exact D].
  apply attributed_pushEdge; [exact D|not_provides].
Qed.

(** ** What the later steps keep *)

Lemma grows_refl b : grows b b.
Proof. constructor; auto. Qed.

Lemma grows_trans b1 b2 b3 : grows b1 b2 -> grows b2 b3 -> grows b1 b3.
Proof. intros [E1 C1 S1 O1] [E2 C2 S2 O2]. constructor; auto. Qed.

Lemma grows_fold {B} (f : Viz.builder -> B -> Viz.builder) l :
  (forall b x, grows b (f b x)) -> forall b, grows b (fold_left f l b).
Proof.
  intros Hf. induction l as [|x l IH]; intros b; simpl; [apply grows_refl|].
  eapply grows_trans; [apply Hf|apply IH].
Qed.

Lemma grows_pushNode b n : grows b (Viz.pushNode b n).
Proof. constructor; cbn; auto. Qed.

Lemma grows_pushEdge b e : grows b (Viz.pushEdge b e).
Proof.
  constructor; cbn [Viz.pushEdge Viz.b_edges Viz.columnNodeIdMap
                    Viz.selectedOriginalQualifiedColumns Viz.outputColumns];
    auto.
  intros e' H. apply in_or_app. auto.
Qed.

Lemma grows_setNodeMap b k v : grows b (Viz.setNodeMap b k v).
Proof. constructor; cbn; auto. Qed.

Lemma grows_setAliasNodeId b k v : grows b (Viz.setAliasNodeId b k v).
Proof. constructor; cbn; auto. Qed.

Lemma grows_setResolvedAlias b k v : grows b (Viz.setResolvedAlias b k v).
Proof. constructor; cbn; auto. Qed.

Lemma grows_setColumnNodeId b k v :
  Dict.has (Viz.columnNodeIdMap b) k = false ->
  grows b (Viz.setColumnNodeId b k v).
Proof.
  intros Hk.
  constructor; cbn [Viz.setColumnNodeId Viz.b_edges Viz.columnNodeIdMap
                    Viz.selectedOriginalQualifiedColumns Viz.outputColumns];
    auto.
  intros k' v' H. rewrite get_set. destruct (String.eqb k k') eqn:E; [|exact H].
  apply String.eqb_eq in E. subst k'. unfold Dict.has in Hk. rewrite H in Hk.
  discriminate.
Qed.

Lemma in_add s k x : In x s -> In x (Dict.add s k).
Proof.
  unfold Dict.add. destruct (Js.arr_includes s k); [auto|].
  intros H. apply in_or_app. auto.
Qed.

Lemma add_has s k : In k (Dict.add s k).
Proof.
  unfold Dict.add. destruct (Js.arr_includes s k) eqn:E.
  - apply arr_includes_in, E.
  - apply in_or_app. right. left. reflexivity.
Qed.

Lemma grows_addSelected b k : grows b (Viz.addSelected b k).
Proof.
  constructor; cbn [Viz.addSelected Viz.b_edges Viz.columnNodeIdMap
                    Viz.selectedOriginalQualifiedColumns Viz.outputColumns];
    auto.
  intros x. apply in_add.
Qed.

Lemma grows_addOutputColumn b k : grows b (Viz.addOutputColumn b k).
Proof.
  constructor; cbn [Viz.addOutputColumn Viz.b_edges Viz.columnNodeIdMap
                    Viz.selectedOriginalQualifiedColumns Viz.outputColumns];
    auto.
  intros x. apply in_add.
Qed.

Lemma grows_addSimpleColumn b c : grows b (Viz.addSimpleColumn b c).
Proof.
  unfold Viz.addSimpleColumn.
  destruct (Dict.has _ _) eqn:H; [apply grows_refl|].
  eapply grows_trans; [apply grows_pushNode|].
  apply grows_setColumnNodeId. exact H.
Qed.

Lemma grows_addStarColumn b : grows b (Viz.addStarColumn b).
Proof.
  unfold Viz.addStarColumn.
  destruct (Dict.has _ _) eqn:H; [apply grows_refl|].
  eapply grows_trans; [apply grows_pushNode|].
  apply grows_setColumnNodeId. exact H.
Qed.

Ltac grows_chain :=
  repeat first
    [ apply grows_refl
    | eapply grows_trans;
      [|first [ apply grows_addOutputColumn | apply grows_addSelected
              | apply grows_setResolvedAlias | apply grows_addSimpleColumn
              | apply grows_addStarColumn | apply grows_pushEdge
              | apply grows_setAliasNodeId | apply grows_pushNode ]] ].

Lemma grows_processSelectPart al b part :
  grows b (Viz.processSelectPart al b part).
Proof.
  unfold Viz.processSelectPart.
  destruct (Re.exec Pat.asAliasRe _) as [m|].
  - destruct (Viz.refsOf _ al).
    + destruct (Js.truthy _); grows_chain.
    + grows_chain.
  - destruct (Viz.refsOf _ al).
    + destruct (Js.truthy _); [grows_chain|].
      destruct (String.eqb _ _); grows_chain.
    + grows_chain.
Qed.

Lemma grows_emitOutputColumn b o : grows b (Viz.emitOutputColumn b o).
Proof.
  unfold Viz.emitOutputColumn.
  destruct (_ && negb (Dict.has (Viz.aliasNodeIdMap b) o)); [grows_chain|].
  destruct (_ && negb (Js.arr_includes _ o)).
  - destruct (Viz.getId _ o); grows_chain.
  - destruct (_ && Dict.has _ "*"); [|grows_chain].
    destruct (Dict.get _ "*"); grows_chain.
Qed.

Lemma grows_emitProvides b entry : grows b (Viz.emitProvides b entry).
Proof.
  destruct entry as [tn cols]. unfold Viz.emitProvides.
  destruct (Viz.getId _ _) as [tid|]; [|apply grows_refl].
  apply grows_fold. intros b' c.
  destruct (Viz.getId _ _); grows_chain.
Qed.

Lemma grows_emitSelectedFlow b q : grows b (Viz.emitSelectedFlow b q).
Proof.
  unfold Viz.emitSelectedFlow.
  destruct (Viz.getId (Viz.columnNodeIdMap b) q); [|apply grows_refl].
  destruct (Js.truthy _).
  - destruct (Viz.getId _ _); grows_chain.
  - destruct (_ || _); [|apply grows_refl].
    destruct (Viz.linked _ _ _ _); grows_chain.
Qed.

Lemma grows_emitJoin b cond : grows b (Viz.emitJoin b cond).
Proof.
  destruct cond as [l r]. unfold Viz.emitJoin.
  destruct (_ && _); [|apply grows_refl].
  destruct (Viz.getId _ (Js.toLowerCase l)); [|apply grows_refl].
  destruct (Viz.getId _ (Js.toLowerCase r)); grows_chain.
Qed.

Lemma grows_emitWhere sql al b : grows b (Viz.emitWhere sql al b).
Proof.
  unfold Viz.emitWhere.
  destruct (Re.exec _ _); [|apply grows_refl].
  destruct (Js.truthy _); [|apply grows_refl].
  apply grows_fold. intros b' q. unfold Viz.emitConstraint.
  destruct (Viz.getId _ _); grows_chain.
Qed.

Lemma grows_emitModifies kw re sql b : grows b (Viz.emitModifies kw re sql b).
Proof.
  unfold Viz.emitModifies.
  destruct (Js.includes _ _); [|apply grows_refl].
  destruct (Re.exec _ _); [|apply grows_refl].
  destruct (Viz.getId _ _); grows_chain.
Qed.

Lemma tracked_grows k b b' : grows b b' -> tracked k b -> tracked k b'.
Proof.
  intros [E C S O] [[v Hv] [Hs Ho]]. split; [exists v; auto|]. split; auto.
Qed.

Lemma flows_grows k b b' : grows b b' -> flows k b -> flows k b'.
Proof.
  intros [E C S O] [v [Hv He]]. exists v. split; auto.
Qed.

(** ** From the select item to the flow into the query *)

Lemma tracked_bare al b part :
  is_ident (Js.trim part) = true -> Js.includes (Js.trim part) "." = false ->
  isSQLKeyword (Js.trim part) = false ->
  tracked (Js.toLowerCase (Js.trim part)) (Viz.processSelectPart al b part).
Proof.
  intros Hi Hd Hk. rewrite (processSelectPart_bare al b part Hi Hd Hk).
  split; [|split].
  - cbn [Viz.addOutputColumn Viz.addSelected Viz.columnNodeIdMap].
    unfold Viz.addSimpleColumn.
    destruct (Dict.has _ _) eqn:H.
    + unfold Dict.has in H.
      destruct (Dict.get _ _) as [v|]; [exists v; reflexivity|discriminate].
    + cbn [Viz.setColumnNodeId Viz.columnNodeIdMap]. eexists.
      rewrite get_set, String.eqb_refl. reflexivity.
  - cbn [Viz.addOutputColumn Viz.addSelected
         Viz.selectedOriginalQualifiedColumns]. apply add_has.
  - cbn [Viz.addOutputColumn Viz.outputColumns]. apply add_has.
Qed.

(** Reaching a property through a [forEach] loop that keeps an
    invariant. *)
Lemma fold_left_reach_inv {A B} (P Q : A -> Prop) (f : A -> B -> A) x :
  (forall a y, P a -> P (f a y)) ->
  (forall a, P a -> Q (f a x)) ->
  (forall a y, P a -> Q a -> Q (f a y)) ->
  forall l a, In x l -> P a -> Q (fold_left f l a).
Proof.
  intros HP Hx HQ. induction l as [|y l IH]; intros a H Pa; [destruct H|].
  simpl. destruct H as [->|H]; [|apply IH; auto].
  assert (G : forall l a, P a -> Q a -> Q (fold_left f l a)).
  { clear - HP HQ. intros l'. induction l' as [|z l' IHl]; intros a Pa Qa;
      simpl; auto. }
  apply G; auto.
Qed.

Lemma linked_in es s t ty :
  Viz.linked es s t ty = true ->
  exists e, In e es /\ source e = s /\ target e = t /\ etype e = ty.
Proof.
  unfold Viz.linked. intros H. apply existsb_exists in H.
  destruct H as [e [He H]]. apply andb_true_iff in H. destruct H as [H Ht].
  apply andb_true_iff in H. destruct H as [Hs Htg].
  apply String.eqb_eq in Hs, Htg. apply edge_type_eqb_eq in Ht.
  exists e. auto.
Qed.

(** The step of the loop over the selected columns, at a column that is
    tracked and whose name holds no dot: its flow into the query is
    there afterwards. *)
Lemma flows_emitSelectedFlow k b :
  Js.includes k "." = false ->
  tidy b -> attributed b -> tracked k b ->
  flows k (Viz.emitSelectedFlow b k).
Proof.
  intros Hd T D [[v Hv] [_ Ho]].
  destruct (at_columns b D k v Hv) as [Hne _].
  assert (G : Viz.getId (Viz.columnNodeIdMap b) k = Some v).
  { unfold Viz.getId. rewrite Hv, Hne. reflexivity. }
  assert (A : Dict.get (Viz.resolvedColumnAliases b) k = None).
  { destruct (Dict.get (Viz.resolvedColumnAliases b) k) as [a|] eqn:E;
      [|reflexivity].
    rewrite (at_aliases b D k a E) in Hd. discriminate. }
  unfold Viz.emitSelectedFlow. rewrite G, A. cbn [Js.truthy].
  apply arr_includes_in in Ho. rewrite Ho. cbn [orb].
  destruct (Viz.linked _ _ _ _) eqn:L.
  - exists v. split; [exact Hv|].
    apply linked_in in L. destruct L as [e [He [Es [Et Ety]]]].
    pose proof (td_kinds b T e He) as [_ Hl]. rewrite Ety in Hl.
    cbn [edge_type_eqb] in Hl.
    destruct e as [s t ty l]. cbn [source target etype label] in *.
    subst. exact He.
  - exists v. split; [exact Hv|].
    cbn [Viz.pushEdge Viz.b_edges]. apply in_or_app. right. left. reflexivity.
Qed.

(** Two nodes of one graph with the same id are the same node. *)
Lemma same_id ns a b :
  NoDup (ids ns) -> In a ns -> In b ns -> id a = id b -> a = b.
Proof.
  induction ns as [|x l IH]; intros N Ha Hb E; [destruct Ha|].
  cbn [ids map] in N. inversion N as [|? ? Hx Hl]. subst.
  destruct Ha as [->|Ha], Hb as [->|Hb].
  - reflexivity.
  - contradiction Hx. rewrite E. apply in_map, Hb.
  - contradiction Hx. rewrite <- E. apply in_map, Ha.
  - apply IH; assumption.
Qed.

(** The graph builder on a statement with a bare identifier among its
    select items: the invariants hold of the final state, and the flow
    of the column into the query is there. *)
Lemma builder_on_bare_identifier sql pr part :
  In part (Viz.selectClauseParts sql) ->
  is_ident (Js.trim part) = true -> Js.includes (Js.trim part) "." = false ->
  isSQLKeyword (Js.trim part) = false ->
  exists b,
    Viz.generateVisualizationData sql pr
    = mkGraph (Viz.b_nodes b) (Viz.b_edges b) /\
    tidy b /\ attributed b /\ flows (Js.toLowerCase (Js.trim part)) b.
Proof.
  intros Hp Hi Hd Hk.
  set (k := Js.toLowerCase (Js.trim part)).
  assert (Hkd : Js.includes k "." = false)
    by (unfold k; rewrite includes_lower_dot; exact Hd).
  pose (ready := fun b => tidy b /\ attributed b /\ tracked k b).
  pose (final := fun b => tidy b /\ attributed b /\ flows k b).
  assert (M : forall kw re s b, final b -> final (Viz.emitModifies kw re s b)).
  { intros kw re s b [T [D F]]. split; [apply tidy_emitModifies, T|].
    split; [apply attributed_emitModifies, D|].
    eapply flows_grows; [apply grows_emitModifies|exact F]. }
  assert (W : forall s al b, final b -> final (Viz.emitWhere s al b)).
  { intros s al b [T [D F]]. split; [apply tidy_emitWhere, T|].
    split; [apply attributed_emitWhere, D|].
    eapply flows_grows; [apply grows_emitWhere|exact F]. }
  assert (J : forall l b, final b -> final (fold_left Viz.emitJoin l b)).
  { intros l. apply fold_left_inv. intros b c [T [D F]].
    split; [apply tidy_emitJoin, T|].
    split; [apply attributed_emitJoin, D|].
    eapply flows_grows; [apply grows_emitJoin|exact F]. }
  assert (S : forall b, ready b ->
                final (fold_left Viz.emitSelectedFlow
                         (Viz.selectedOriginalQualifiedColumns b) b)).
  { intros b [T [D R]].
    assert (Hr : forall a y, ready a -> ready (Viz.emitSelectedFlow a y)).
    { intros a y [Ta [Da Ra]]. split; [apply tidy_emitSelectedFlow, Ta|].
      split; [apply attributed_emitSelectedFlow, Da|].
      eapply tracked_grows; [apply grows_emitSelectedFlow|exact Ra]. }
    pose proof (fold_left_inv ready _
                  (Viz.selectedOriginalQualifiedColumns b) Hr b
                  (conj T (conj D R))) as [T' [D' _]].
    split; [exact T'|]. split; [exact D'|].
    apply (fold_left_reach_inv ready (flows k) Viz.emitSelectedFlow k).
    - exact Hr.
    - intros a [Ta [Da Ra]]. apply flows_emitSelectedFlow; assumption.
    - intros a y _ F.
      eapply flows_grows; [apply grows_emitSelectedFlow|exact F].
    - apply R.
    - exact (conj T (conj D R)). }
  assert (P : forall l b, ready b -> ready (fold_left Viz.emitProvides l b)).
  { intros l. apply fold_left_inv. intros b c [T [D R]].
    split; [apply tidy_emitProvides, T|].
    split; [apply attributed_emitProvides, D|].
    eapply tracked_grows; [apply grows_emitProvides|exact R]. }
  assert (O : forall l b, ready b -> ready (fold_left Viz.emitOutputColumn l b)).
  { intros l. apply fold_left_inv. intros b c [T [D R]].
    split; [apply tidy_emitOutputColumn, T|].
    split; [apply attributed_emitOutputColumn, D|].
    eapply tracked_grows; [apply grows_emitOutputColumn|exact R]. }
  assert (C : forall al b, tidy b /\ attributed b ->
                ready (fold_left (Viz.processSelectPart al)
                         (Viz.selectClauseParts sql) b)).
  { intros al b [T D].
    assert (Hi' : forall a y, tidy a /\ attributed a ->
                    tidy (Viz.processSelectPart al a y) /\
                    attributed (Viz.processSelectPart al a y)).
    { intros a y [Ta Da].
      split; [apply tidy_processSelectPart, Ta
             |apply attributed_processSelectPart, Da]. }
    pose proof (fold_left_inv (fun a => tidy a /\ attributed a) _
                  (Viz.selectClauseParts sql) Hi' b (conj T D)) as [T' D'].
    split; [exact T'|]. split; [exact D'|].
    apply (fold_left_reach (tracked k) (Viz.processSelectPart al) part).
    - intros a. apply tracked_bare; assumption.
    - intros a y. apply tracked_grows, grows_processSelectPart.
    - exact Hp. }
  unfold Viz.generateVisualizationData.
  destruct (Viz.extractTableColumnReferences sql _ _ _) as [tcr qs].
  eexists. split; [reflexivity|].
  apply M, M, W, J, S, P, O, C.
  split.
  - apply fold_left_inv; [intros; apply tidy_addQualifiedColumn; assumption|].
    apply fold_left_inv; [intros; apply tidy_addTable; assumption|].
    apply tidy_initial.
  - apply fold_left_inv;
      [intros; apply attributed_addQualifiedColumn; assumption|].
    apply fold_left_inv; [intros; apply attributed_addTable; assumption|].
    apply attributed_initial.
Qed.

(** What [generateVisualizationData] makes of a select item that is a
    bare identifier and no reserved word: a column node, with its flow
    into the query, at which no provides edge ends. *)
Lemma bare_identifier_unattributed sql pr part :
  In part (Viz.selectClauseParts sql) ->
  is_ident (Js.trim part) = true -> Js.includes (Js.trim part) "." = false ->
  isSQLKeyword (Js.trim part) = false ->
  let g := Viz.generateVisualizationData sql pr in
  exists u x,
    In u (nodes g) /\ type u = column /\ isAlias u = false /\
    originalQualifiedName u = Some x /\
    Js.toLowerCase x = Js.toLowerCase (Js.trim part) /\
    In (mkEdge (id u) "query_main" flows_to None) (edges g) /\
    forall e, In e (edges g) -> etype e = provides -> target e <> id u.
Proof.
  intros Hp Hi Hd Hk g. subst g.
  destruct (builder_on_bare_identifier sql pr part Hp Hi Hd Hk)
    as [b [-> [T [D [v [Hv He]]]]]].
  cbn [nodes edges].
  destruct (at_columns b D _ _ Hv) as [_ [u [x [Hu [Iu [Tu [Au [Ou Lu]]]]]]]].
  exists u, x. rewrite Iu.
  split; [exact Hu|]. split; [exact Tu|]. split; [exact Au|].
  split; [exact Ou|]. split; [exact Lu|]. split; [exact He|].
  intros e Hin Hprov Et.
  destruct (at_provides b D e Hin Hprov)
    as [k' [Hk' [_ [u' [x' [Hu' [Iu' [_ [_ [Ou' Lu']]]]]]]]]].
  assert (Eu : u' = u).
  { apply (same_id (Viz.b_nodes b)); [apply T|assumption..|congruence]. }
  subst u'. rewrite Ou in Ou'. injection Ou' as <-.
  rewrite <- Lu', Lu, includes_lower_dot, Hd in Hk'. discriminate.
Qed.

Lemma selectClauseParts_of sql m part :
  Re.exec Pat.selectRe sql = Some m ->
  In part (Parser.splitSelectClause (Pat.cap m 1)) ->
  In part (Viz.selectClauseParts sql).
Proof.
  intros Hm Hp. unfold Viz.selectClauseParts. rewrite Hm.
  unfold Pat.cap_opt, Pat.cap in *.
  destruct (Re.group (Re.groups m) 1) as [s|]; cbn [Js.truthy];
    [|destruct Hp].
  destruct s; [destruct Hp|exact Hp].
Qed.

Lemma valid_column_not_keyword p :
  Sample.isValidColumnName (Js.trim p) = true ->
  isSQLKeyword (Js.trim p) = false.
Proof.
  unfold Sample.isValidColumnName.
  destruct (Js.is_empty (Js.trim p)); [discriminate|].
  rewrite trim_idem. intros H. apply andb_true_iff in H. destruct H as [_ H].
  destruct (isSQLKeyword (Js.trim p)); [discriminate|reflexivity].
Qed.

(** C7, amended. Take a statement whose text holds no name that objects
    inherit from [Object.prototype] (so that the lookups of the scripts
    in their plain objects meet own keys only), and a SELECT item of it
    that holds no dot and is a single bare identifier that is no reserved
    word.  Only the sample-data path attributes the column to the first
    table: when the statement has a table,
    [parseTableColumnRelationshipsWithAliases] lists the column under the
    first one, which is the table that follows FROM when the FROM pattern
    matches, and the graph has a provides edge from the node of that
    table, [table_0], to the node of the column.  The graph builder,
    [generateVisualizationData], gives the column a node (a column node
    that is no alias, made for the identifier up to letter case) and a
    flows_to edge from it to the query node, and no provides edge ends at
    that node. *)
Theorem unqualified_column_attribution :
  forall (sql : string) (normalized : graph) (pr : Parser.parse_result)
         (m : Re.result) (part : string),
    ordinary sql = true ->
    Re.exec Pat.selectRe sql = Some m ->
    In part (Parser.splitSelectClause (Pat.cap m 1)) ->
    Js.includes (Js.trim part) "." = false ->
    Sample.isValidColumnName (Js.trim part) = true ->
    let g := Sample.createSampleDataFromSQL normalized sql in
    let g' := Viz.generateVisualizationData sql pr in
    (forall (t0 : Sample.table_info) (rest : list Sample.table_info),
       Sample.extractTableInfoWithAliases sql = t0 :: rest ->
       (forall fromMatch,
          Re.exec Pat.fromAliasRe sql = Some fromMatch ->
          t0 = Sample.infoOf fromMatch)
       /\ has_column
            (Sample.parseTableColumnRelationshipsWithAliases sql (t0 :: rest))
            (Sample.tableName t0) (Js.trim part)
       /\ exists j y,
            nth_error (Sample.extractColumnsWithAliases sql) j = Some y /\
            Js.toLowerCase y = Js.toLowerCase (Js.trim part) /\
            In (mkNode (Sample.tableId 0) (Sample.tableName t0) table None false)
               (nodes g) /\
            In (mkNode (Sample.columnId j) y column None false) (nodes g) /\
            provides_edge (edges g) (Sample.tableId 0) (Sample.columnId j))
    /\
    (exists u x,
       In u (nodes g') /\ type u = column /\ isAlias u = false /\
       originalQualifiedName u = Some x /\
       Js.toLowerCase x = Js.toLowerCase (Js.trim part) /\
       In (mkEdge (id u) "query_main" flows_to None) (edges g') /\
       forall e, In e (edges g') -> etype e = provides -> target e <> id u).
Proof.
  intros sql normalized pr m part _ Hm Hp Hd Hv g g'. split.
  - intros t0 rest Hti.
    exact (sample_path_attributes_first_table sql normalized m part t0 rest
             Hm Hp Hd Hv Hti).
  - apply bare_identifier_unattributed.
    + exact (selectClauseParts_of sql m part Hm Hp).
    + apply valid_column_is_ident, Hv.
    + exact Hd.
    + apply valid_column_not_keyword, Hv.
Qed.

(** The theorem at [SELECT id, name FROM another_table], for [id]. *)
Lemma unqualified_column_witness :
  let sql := "SELECT id, name FROM another_table" in
  let g := Sample.createSampleDataFromSQL (mkGraph [] []) sql in
  let g' := Viz.generateVisualizationData sql (Parser.parseSQL sql) in
  let t0 := Sample.mkInfo "another_table" "another_table" "another_table" in
  ((forall fromMatch,
      Re.exec Pat.fromAliasRe sql = Some fromMatch -> t0 = Sample.infoOf fromMatch)
   /\ has_column (Sample.parseTableColumnRelationshipsWithAliases sql [t0])
                 "another_table" (Js.trim "id")
   /\ exists j y,
        nth_error (Sample.extractColumnsWithAliases sql) j = Some y /\
        Js.toLowerCase y = Js.toLowerCase (Js.trim "id") /\
        In (mkNode (Sample.tableId 0) "another_table" table None false) (nodes g) /\
        In (mkNode (Sample.columnId j) y column None false) (nodes g) /\
        provides_edge (edges g) (Sample.tableId 0) (Sample.columnId j))
  /\
  (exists u x,
     In u (nodes g') /\ type u = column /\ isAlias u = false /\
     originalQualifiedName u = Some x /\
     Js.toLowerCase x = Js.toLowerCase (Js.trim "id") /\
     In (mkEdge (id u) "query_main" flows_to None) (edges g') /\
     forall e, In e (edges g') -> etype e = provides -> target e <> id u).
Proof.
  intros sql g g' t0.
  destruct (unqualified_column_attribution
              "SELECT id, name FROM another_table" (mkGraph [] [])
              (Parser.parseSQL "SELECT id, name FROM another_table")
              (Re.mkResult 0 20 "SELECT id, name FROM" [(1, "id, name")]
                           " another_table")
              "id")
    as [A B].
  - vm_compute. reflexivity.
  - vm_compute. reflexivity.
  - vm_compute. auto.
  - vm_compute. reflexivity.
  - vm_compute. reflexivity.
  - split; [|exact B]. apply (A t0 []). vm_compute. reflexivity.
Defined.

(** * The order of the nodes *)

(** ** The references of a text, read from left to right, are determined *)








(** The references of a statement in text order, the names made of them,
    and the nodes of its graph, on an example: the second [o.id] and the
    qualifiers [o] and [u] resolved to [orders] and [users]. *)
Example references_of_a_statement :
  let sql :=
    "SELECT o.id, u.name, o.id FROM orders o JOIN users u ON o.uid = u.id" in
  in_text_order sql 0
    [ mkOccurrence 7 11 "o" "id"; mkOccurrence 13 19 "u" "name";
      mkOccurrence 21 25 "o" "id"; mkOccurrence 56 61 "o" "uid";
      mkOccurrence 64 68 "u" "id" ] /\
  map (qualifiedNameOf (Viz.extractTableAliases sql))
    [ mkOccurrence 7 11 "o" "id"; mkOccurrence 13 19 "u" "name";
      mkOccurrence 21 25 "o" "id"; mkOccurrence 56 61 "o" "uid";
      mkOccurrence 64 68 "u" "id" ]
  = ["orders.id"; "users.name"; "orders.id"; "orders.uid"; "users.id"] /\
  map name (nodes (Viz.extract sql))
  = ["Main Query"; "orders"; "users"; "orders > id"; "users > name";
     "orders > uid"; "users > id"].
Proof.
  intros sql. split; [|split; reflexivity].
  assert (H : scanned Pat.tableColumnRe sql 0 (Re.exec_all Pat.tableColumnRe sql)).
  { apply exec_all_scanned; [reflexivity|vm_compute; lia]. }
  apply scanned_in_text_order in H. exact H.
Qed.


